(** * Token price/liquidity services: a shallow embedding and its properties

    The development follows two services of the repository:

    - [TokenDataService] embeds [backend/services/tokenDataService.js]:
      the per-minute call counter, [fetchPriceData], the priority pass,
      the rotating non-priority pass and the ranking pass.
    - [PoolService] embeds the on-chain discovery/enrichment service
      (multicall decoding, the reference-asset price oracle, the tick to
      price conversion, main-pool selection and persistence).

    Conventions.  Asynchronous JavaScript functions are embedded as
    resumption trees ([task]): every access to a module-level variable and
    every suspension point ([await]) is a node, so that the code between
    two suspension points runs atomically and anything may be interleaved
    at an [await].  Exceptions are explicit ([Throw], [try_catch]).
    Integer-valued JavaScript numbers are [Z]; prices computed through
    [Math.pow], [Math.exp] and [Math.log] live in [R], that is, IEEE
    rounding, infinities and NaN are idealised away. *)

From Stdlib Require Import Ascii String.
From stdpp Require Import gmap strings list pretty sorting.
From Stdlib Require Import ZArith QArith Reals Lra Lia.

Local Open Scope Z_scope.

(** ** JavaScript preliminaries *)

Module JS.

Abbreviation address := string.

(** [String.prototype.toLowerCase], on the ASCII range. *)
Definition ascii_toLowerCase (c : ascii) : ascii :=
  let n := nat_of_ascii c in
  if ((65 <=? n)%nat && (n <=? 90)%nat)%bool then ascii_of_nat (n + 32) else c.

Fixpoint toLowerCase (s : string) : string :=
  match s with
  | EmptyString => EmptyString
  | String c s' => String (ascii_toLowerCase c) (toLowerCase s')
  end.

(** [Array.prototype.slice(start, end)] with JavaScript's treatment of
    negative and out-of-range indices. *)
Definition clamp_index (len k : Z) : Z :=
  if k <? 0 then Z.max (len + k) 0 else Z.min k len.

Definition slice {A} (l : list A) (start stop : Z) : list A :=
  let len := Z.of_nat (length l) in
  let from := clamp_index len start in
  let to := clamp_index len stop in
  take (Z.to_nat (to - from)) (drop (Z.to_nat from) l).

(** A JavaScript object used as a dictionary with string keys that are not
    array indices: [Object.entries] enumerates keys in insertion order, and
    assigning an existing key keeps its position. *)
Definition obj (V : Type) := list (string * V).

Fixpoint obj_set {V} (o : obj V) (k : string) (v : V) : obj V :=
  match o with
  | [] => [(k, v)]
  | (k', v') :: o' =>
      if String.eqb k' k then (k, v) :: o' else (k', v') :: obj_set o' k v
  end.

Fixpoint obj_get {V} (o : obj V) (k : string) : option V :=
  match o with
  | [] => None
  | (k', v') :: o' => if String.eqb k' k then Some v' else obj_get o' k
  end.

Definition obj_keys {V} (o : obj V) : list string := o.*1.

(** Thrown values. *)
Inductive exn : Type :=
| TypeError
| SyntaxError
| RangeError
| Rejected (reason : string).

End JS.

Import JS.

(** ** Resumption trees for asynchronous functions

    [E X] is the type of primitive operations answering in [X].  A tree is
    finite: every loop of the services ranges over a finite array. *)

Module Task.

Inductive task (E : Type -> Type) (A : Type) : Type :=
| Ret (a : A)
| Throw (e : exn)
| Vis {X : Type} (ev : E X) (k : X -> task E A).

Arguments Ret {E A} a.
Arguments Throw {E A} e.
Arguments Vis {E A X} ev k.

Fixpoint bind {E A B} (t : task E A) (f : A -> task E B) : task E B :=
  match t with
  | Ret a => f a
  | Throw e => Throw e
  | Vis ev k => Vis ev (fun x => bind (k x) f)
  end.

(** [try { t } catch (e) { h e }] *)
Fixpoint try_catch {E A} (t : task E A) (h : exn -> task E A) : task E A :=
  match t with
  | Ret a => Ret a
  | Throw e => h e
  | Vis ev k => Vis ev (fun x => try_catch (k x) h)
  end.

(** A synchronous primitive, or a suspension that cannot reject. *)
Definition call {E X} (ev : E X) : task E X := Vis ev Ret.

(** [await p] for a promise [p] that may reject. *)
Definition await {E X} (ev : E (exn + X)%type) : task E X :=
  Vis ev (fun r => match r with inl e => Throw e | inr x => Ret x end).

#[global] Instance task_ret {E} : MRet (task E) := fun A a => Ret a.
#[global] Instance task_bind {E} : MBind (task E) := fun A B f t => bind t f.

(** A handler of the synchronous primitives over a state [M] answers
    [None] at a suspension point.  [run_sync] runs a task up to its next
    suspension point (or to its end): one atomic segment. *)
Section Segments.
Context {E : Type -> Type} {M : Type}.
Variable handle_sync : forall X, E X -> M -> option (M * X).

Fixpoint run_sync {A} (m : M) (t : task E A) : M * task E A :=
  match t with
  | Vis ev k =>
      match handle_sync _ ev m with
      | Some (m', x) => run_sync m' (k x)
      | None => (m, t)
      end
  | _ => (m, t)
  end.
End Segments.

Definition suspended {E A} (t : task E A) : bool :=
  match t with
  | Vis _ _ => true
  | _ => false
  end.

End Task.

Import Task.

(** ** backend/services/tokenDataService.js *)

Module TokenDataService.

(** *** Data *)

(** The [attributes] object of one entry of the price API's answer.  A
    numeric attribute is a JSON string or [null]; it is represented by the
    number [parseFloat] reads from it, [None] standing for a missing or
    [null] attribute. *)
Record attributes := {
  attr_price_usd : option Q;
  attr_fdv_usd : option Q;
  attr_volume_usd : option (option Q);   (* volume_usd?.h24 *)
  attr_name : option string;
  attr_symbol : option string;
  attr_total_reserve_in_usd : option Q;
  attr_total_supply : option Q
}.

Record apiToken := {
  tok_id : option string;
  tok_attributes : option attributes
}.

(** [response.data && response.data.data] *)
Record apiResponse := { resp_data : option (list apiToken) }.

(** The values of [result.tokens]. *)
Record tokenData := {
  price_usd : Q;
  fdv_usd : Q;
  volume_usd : Q;
  market_cap : Q;
  last_updated : Z;
  name : option string;
  symbol : option string;
  total_reserve_in_usd : Q;
  total_supply : Q
}.

Record priceResult := { tokens : obj tokenData }.

(** One [updateOne] operation with [upsert: true]; the update is
    [$set: { ...data, priority, last_updated }]. *)
Record updateOne := {
  filter_contractAddress : address;
  set_data : tokenData;
  set_priority : bool;
  set_last_updated : Z
}.

(** *** Primitive operations *)

Inductive event : Type -> Type :=
(* module-level variables *)
| GetApiCallsThisMinute : event Z
| SetApiCallsThisMinute (n : Z) : event unit
| GetTopTokens : event (list address)
| SetTopTokens (l : list address) : event unit
| SetLastFullUpdateTime (t : Z) : event unit
(* [new Date()] and [Date.now()] *)
| DateNow : event Z
(* suspension points *)
| GeckoTerminalGet (addressesParam : list address) : event (exn + apiResponse)%type
| TokenFindNotIn (excluded : list address) : event (exn + list address)%type
| TokenPriceFindOldest (excluded : list address) (limit : Z) : event (exn + list address)%type
| TokenPriceFindTopByMarketCap (limit : Z) : event (exn + list address)%type
| TokenPriceBulkWrite (operations : list updateOne) : event (exn + unit)%type
| SetTimeout (ms : Z) : event unit
(* the resumption of the caller after [await f()] of an async function *)
| Microtask : event unit.

Abbreviation task := (Task.task event).

(** [await f(...)] where [f] is an async function embedded as [t]: the
    callee runs synchronously up to its first suspension; when it settles,
    the caller resumes in a later microtask. *)
Definition await_async {A} (t : task A) : task A :=
  try_catch (x ← t; _ ← call Microtask; Ret x)
            (fun e => _ ← call Microtask; Throw e).

Definition PRIORITY_TOKEN_COUNT : Z := 10.
Definition BATCH_SIZE : Z := 30.

(** *** fetchPriceData *)

(** [s.split(sep)] *)
Fixpoint split (sep : ascii) (s : string) : list string :=
  match s with
  | EmptyString => [EmptyString]
  | String c s' =>
      if Ascii.eqb c sep then EmptyString :: split sep s'
      else match split sep s' with
           | [] => [String c EmptyString]
           | p :: ps => String c p :: ps
           end
  end.

(** [parseFloat(x || 0)] *)
Definition parseFloat_or_0 (x : option Q) : Q := default 0%Q x.

(** Property access on a value that may be [undefined] or [null]. *)
Definition nonnull {A} (x : option A) : task A :=
  match x with
  | None => Throw TypeError
  | Some a => Ret a
  end.

(** The body of the [forEach] callback. *)
Definition forEach_body (result : priceResult) (token : apiToken) : task priceResult :=
  let attributes_ := tok_attributes token in
  id_ ← nonnull (tok_id token);
  piece ← nonnull (split "_" id_ !! 1%nat);
  let address_ := toLowerCase piece in
  a ← nonnull attributes_;
  now ← call DateNow;
  Ret {| tokens := obj_set (tokens result) address_ {|
           price_usd := parseFloat_or_0 (attr_price_usd a);
           fdv_usd := parseFloat_or_0 (attr_fdv_usd a);
           volume_usd := parseFloat_or_0 (mjoin (attr_volume_usd a));
           market_cap := parseFloat_or_0 (attr_fdv_usd a);
           last_updated := now;
           name := attr_name a;
           symbol := attr_symbol a;
           total_reserve_in_usd := parseFloat_or_0 (attr_total_reserve_in_usd a);
           total_supply := parseFloat_or_0 (attr_total_supply a) |} |}.

Fixpoint forEach (data : list apiToken) (result : priceResult) : task priceResult :=
  match data with
  | [] => Ret result
  | token :: data' => result' ← forEach_body result token; forEach data' result'
  end.

Definition fetchPriceData (addresses : list address) : task priceResult :=
  try_catch
    (n ← call GetApiCallsThisMinute;
     _ ← call (SetApiCallsThisMinute (n + 1));
     (* the request path carries the lower-cased addresses joined by %2C *)
     let addressesParam := toLowerCase <$> addresses in
     try_catch
       (response ← await (GeckoTerminalGet addressesParam);
        let result := {| tokens := [] |} in
        match resp_data response with
        | Some data => forEach data result
        | None => Ret result
        end)
       (fun apiError => Ret {| tokens := [] |}))
    (fun error => Ret {| tokens := [] |}).

(** *** updateTopTokensList *)

Definition updateTopTokensList : task unit :=
  try_catch
    (tokensByMarketCap ← await (TokenPriceFindTopByMarketCap PRIORITY_TOKEN_COUNT);
     _ ← call (SetTopTokens tokensByMarketCap);
     now ← call DateNow;
     call (SetLastFullUpdateTime now))
    (fun error => Ret ()).

(** *** updatePriorityTokens *)

(** The loop over [Object.entries(priceData.tokens)] that fills
    [operations]. *)
Fixpoint build_operations (priority : bool) (entries : obj tokenData) : task (list updateOne) :=
  match entries with
  | [] => Ret []
  | (address_, data) :: entries' =>
      now ← call DateNow;
      operations ← build_operations priority entries';
      Ret ({| filter_contractAddress := address_;
              set_data := data;
              set_priority := priority;
              set_last_updated := now |} :: operations)
  end.

(** [if (priceData && priceData.tokens) { ... }]: [fetchPriceData] always
    resolves to an object with a [tokens] object, so the test holds. *)
Definition store_prices (priority : bool) (priceData : priceResult) : task unit :=
  operations ← build_operations priority (tokens priceData);
  if bool_decide (0 < length operations)%nat
  then (_ ← await (TokenPriceBulkWrite operations); Ret ())
  else Ret ().

Definition updatePriorityTokens : task unit :=
  n ← call GetApiCallsThisMinute;
  if bool_decide (n >= 30) then Ret () else
  topTokens ← call GetTopTokens;
  if bool_decide (length topTokens = 0%nat) then await_async updateTopTokensList else
  try_catch
    (priceData ← await_async (fetchPriceData topTokens);
     store_prices true priceData)
    (fun error => Ret ()).

(** *** updateNonPriorityTokens *)

(** The [for (let i = 0; i < tokensToUpdate.length; i += BATCH_SIZE)] loop.
    [fuel] bounds the number of iterations; the caller passes the length of
    the array, which no run exhausts since [i] grows by [BATCH_SIZE]. *)
Fixpoint batch_loop (fuel : nat) (tokensToUpdate : list address) (i : Z) : task unit :=
  match fuel with
  | O => Ret ()
  | S fuel' =>
      if bool_decide (i < Z.of_nat (length tokensToUpdate)) then
        n ← call GetApiCallsThisMinute;
        if bool_decide (n >= 28) then Ret () (* break *) else
        let batchAddresses := slice tokensToUpdate i (i + BATCH_SIZE) in
        _ ← try_catch
              (priceData ← await_async (fetchPriceData batchAddresses);
               store_prices false priceData)
              (fun error => Ret ());
        _ ← (if bool_decide (i + BATCH_SIZE < Z.of_nat (length tokensToUpdate))
             then call (SetTimeout 100) else Ret ());
        batch_loop fuel' tokensToUpdate (i + BATCH_SIZE)
      else Ret ()
  end.

Definition updateNonPriorityTokens : task unit :=
  n ← call GetApiCallsThisMinute;
  if bool_decide (n >= 28) then Ret () else
  try_catch
    (topTokens ← call GetTopTokens;
     allTokens ← await (TokenFindNotIn topTokens);
     if bool_decide (length allTokens = 0%nat) then Ret () else
     n' ← call GetApiCallsThisMinute;
     let remainingCalls := 28 - n' in
     let maxBatches := remainingCalls in   (* Math.floor of an integer *)
     let maxTokens := maxBatches * BATCH_SIZE in
     topTokens' ← call GetTopTokens;
     oldestFirstTokens ← await (TokenPriceFindOldest topTokens' maxTokens);
     let tokensToUpdate :=
       if bool_decide (0 < length oldestFirstTokens)%nat
       then oldestFirstTokens
       else slice allTokens 0 maxTokens in
     batch_loop (length tokensToUpdate) tokensToUpdate 0)
    (fun error => Ret ()).

(** *** fullTokenUpdate *)

Definition fullTokenUpdate : task unit :=
  try_catch
    (_ ← await_async updateTopTokensList;
     await_async updateNonPriorityTokens)
    (fun error => Ret ()).

(** *** Module-level state and the event loop

    [apiCallsThisMinute], [topTokens] and [lastFullUpdateTime] are the
    module-level variables; [clock] is the wall clock read by [new Date()]. *)

Record mem := {
  apiCallsThisMinute : Z;
  topTokens : list address;
  lastFullUpdateTime : Z;
  clock : Z
}.

(** The synchronous primitives; [None] marks a suspension point. *)
Definition handle_sync {X} (ev : event X) (m : mem) : option (mem * X) :=
  match ev in event X return option (mem * X) with
  | GetApiCallsThisMinute => Some (m, apiCallsThisMinute m)
  | SetApiCallsThisMinute n =>
      Some ({| apiCallsThisMinute := n; topTokens := topTokens m;
               lastFullUpdateTime := lastFullUpdateTime m; clock := clock m |}, ())
  | GetTopTokens => Some (m, topTokens m)
  | SetTopTokens l =>
      Some ({| apiCallsThisMinute := apiCallsThisMinute m; topTokens := l;
               lastFullUpdateTime := lastFullUpdateTime m; clock := clock m |}, ())
  | SetLastFullUpdateTime t =>
      Some ({| apiCallsThisMinute := apiCallsThisMinute m; topTokens := topTokens m;
               lastFullUpdateTime := t; clock := clock m |}, ())
  | DateNow => Some (m, clock m)
  | _ => None
  end.

Abbreviation run_sync := (Task.run_sync (@handle_sync)).

(** Number of price-API requests a suspended task has just sent. *)
Definition request_sent {X} (ev : event X) : Z :=
  match ev with
  | GeckoTerminalGet _ => 1
  | _ => 0
  end.

Definition requests {A} (t : task A) : Z :=
  match t with
  | Vis ev _ => request_sent ev
  | _ => 0
  end.

(** The state of the process: the module state, the number of price-API
    requests sent since the last reset of the counter (a ghost variable),
    and the suspended invocations. *)
Record sys := {
  sys_mem : mem;
  issued : Z;
  pending : list (task unit)
}.

(** Run one atomic segment of [t] and park what is left of it. *)
Definition advance (s : sys) (others : list (task unit)) (t : task unit) : sys :=
  let '(m', t') := run_sync (sys_mem s) t in
  {| sys_mem := m';
     issued := issued s + requests t';
     pending := if suspended t' then t' :: others else others |}.

(** The jobs registered with [cron.schedule] that use the price API. *)
Inductive job := PriorityJob | NonPriorityJob | FullUpdateJob.

Definition job_body (j : job) : task unit :=
  match j with
  | PriorityJob => updatePriorityTokens
  | NonPriorityJob => updateNonPriorityTokens
  | FullUpdateJob => fullTokenUpdate
  end.

(** The callback of [setInterval(..., 60000)] in [setupApiCallTracking]. *)
Definition reset_counter (s : sys) : sys :=
  {| sys_mem := {| apiCallsThisMinute := 0; topTokens := topTokens (sys_mem s);
                   lastFullUpdateTime := lastFullUpdateTime (sys_mem s);
                   clock := clock (sys_mem s) |};
     issued := 0;
     pending := pending s |}.

Definition set_clock (s : sys) (now : Z) : sys :=
  {| sys_mem := {| apiCallsThisMinute := apiCallsThisMinute (sys_mem s);
                   topTokens := topTokens (sys_mem s);
                   lastFullUpdateTime := lastFullUpdateTime (sys_mem s);
                   clock := now |};
     issued := issued s;
     pending := pending s |}.

(** One turn of the event loop: a scheduled job starts, a suspended
    invocation is resumed with any answer, the minute timer fires, or time
    passes. *)
Inductive step : sys -> sys -> Prop :=
| step_cron s j :
    step s (advance s (pending s) (job_body j))
| step_resume s i X (ev : event X) (k : X -> task unit) (x : X) :
    pending s !! i = Some (Vis ev k) ->
    step s (advance s (delete i (pending s)) (k x))
| step_minute_timer s :
    step s (reset_counter s)
| step_time s now :
    step s (set_clock s now).

Definition start (now : Z) : sys :=
  {| sys_mem := {| apiCallsThisMinute := 0; topTokens := [];
                   lastFullUpdateTime := 0; clock := now |};
     issued := 0;
     pending := [] |}.

Inductive reachable : sys -> Prop :=
| reachable_start now : reachable (start now)
| reachable_step s s' : reachable s -> step s s' -> reachable s'.


(** *** A database and a price API behind the primitives

    Passes run one after the other against the two collections and a
    price API; every suspension takes one millisecond. *)

(** A [TokenPrice] document as the passes write it. *)
Record priceDoc := {
  doc_data : tokenData;
  doc_priority : bool;
  doc_last_updated : Z
}.

Record world := {
  w_mem : mem;
  w_tokens : list address;                       (* Token, in natural order *)
  w_prices : gmap address priceDoc;              (* TokenPrice, by contractAddress *)
  w_api : list address -> (exn + apiResponse)%type;   (* the answer to a request *)
  w_requests : list (list address)               (* requests sent, latest first *)
}.

Definition with_mem (w : world) (m : mem) : world :=
  {| w_mem := m; w_tokens := w_tokens w; w_prices := w_prices w;
     w_api := w_api w; w_requests := w_requests w |}.

Definition elapse (w : world) : world :=
  with_mem w {| apiCallsThisMinute := apiCallsThisMinute (w_mem w);
                topTokens := topTokens (w_mem w);
                lastFullUpdateTime := lastFullUpdateTime (w_mem w);
                clock := clock (w_mem w) + 1 |}.

(** [.limit(n)]: zero is no limit, a negative limit counts as its
    absolute value. *)
Definition mongo_limit {A} (n : Z) (l : list A) : list A :=
  if bool_decide (n = 0) then l else take (Z.to_nat (Z.abs n)) l.

Definition older (x y : address * priceDoc) : Prop :=
  doc_last_updated x.2 <= doc_last_updated y.2.

Definition bigger_cap (x y : address * priceDoc) : Prop :=
  Is_true (Qle_bool (market_cap (doc_data y.2)) (market_cap (doc_data x.2))).

#[global] Instance older_dec x y : Decision (older x y) :=
  decide (doc_last_updated x.2 <= doc_last_updated y.2).
#[global] Instance bigger_cap_dec x y : Decision (bigger_cap x y) :=
  decide (Is_true (Qle_bool (market_cap (doc_data y.2)) (market_cap (doc_data x.2)))).

(** [TokenPrice.find({ contractAddress: { $nin } }).sort({ last_updated: 1 })
      .limit(n).select('contractAddress')] *)
Definition find_oldest (prices : gmap address priceDoc) (excluded : list address)
    (limit : Z) : list address :=
  (mongo_limit limit
     (merge_sort older (filter (fun kv => kv.1 ∉ excluded) (map_to_list prices)))).*1.

(** [TokenPrice.find({}).sort({ market_cap: -1 }).limit(n)] *)
Definition find_top (prices : gmap address priceDoc) (limit : Z) : list address :=
  (mongo_limit limit (merge_sort bigger_cap (map_to_list prices))).*1.

(** One upserting [updateOne]. *)
Definition apply_update (prices : gmap address priceDoc) (op : updateOne)
    : gmap address priceDoc :=
  <[filter_contractAddress op :=
      {| doc_data := set_data op;
         doc_priority := set_priority op;
         doc_last_updated := set_last_updated op |}]> prices.

(** A synchronous primitive acts on the module state. *)
Definition sync {X} (ev : event X) (w : world) (unused : X) : world * X :=
  match handle_sync ev (w_mem w) with
  | Some (m', x) => (with_mem w m', x)
  | None => (w, unused)
  end.

(** The effect and the answer of every primitive; a suspension takes one
    millisecond. *)
Definition respond {X} (ev : event X) (w : world) : world * X :=
  match ev in event X return world * X with
  | GetApiCallsThisMinute => sync GetApiCallsThisMinute w 0
  | SetApiCallsThisMinute n => sync (SetApiCallsThisMinute n) w ()
  | GetTopTokens => sync GetTopTokens w []
  | SetTopTokens l => sync (SetTopTokens l) w ()
  | SetLastFullUpdateTime t => sync (SetLastFullUpdateTime t) w ()
  | DateNow => sync DateNow w 0
  | GeckoTerminalGet addressesParam =>
      (elapse {| w_mem := w_mem w; w_tokens := w_tokens w; w_prices := w_prices w;
                 w_api := w_api w; w_requests := addressesParam :: w_requests w |},
       w_api w addressesParam)
  | TokenFindNotIn excluded =>
      (elapse w, inr (filter (fun a => a ∉ excluded) (w_tokens w)))
  | TokenPriceFindOldest excluded limit =>
      (elapse w, inr (find_oldest (w_prices w) excluded limit))
  | TokenPriceFindTopByMarketCap limit =>
      (elapse w, inr (find_top (w_prices w) limit))
  | TokenPriceBulkWrite operations =>
      (elapse {| w_mem := w_mem w; w_tokens := w_tokens w;
                 w_prices := foldl apply_update (w_prices w) operations;
                 w_api := w_api w; w_requests := w_requests w |}, inr ())
  | SetTimeout _ => (elapse w, ())
  | Microtask => (elapse w, ())
  end.

(** Run a task to its end. *)
Fixpoint exec {A} (w : world) (t : task A) : world * (exn + A) :=
  match t with
  | Ret a => (w, inr a)
  | Throw e => (w, inl e)
  | Vis ev k => let '(w', x) := respond ev w in exec w' (k x)
  end.

(** What happens between two passes of interest. *)
Inductive action := RotationPass | MinuteTimer.

Definition act (w : world) (a : action) : world :=
  match a with
  | RotationPass => (exec w updateNonPriorityTokens).1
  | MinuteTimer =>
      with_mem w {| apiCallsThisMinute := 0;
                    topTokens := topTokens (w_mem w);
                    lastFullUpdateTime := lastFullUpdateTime (w_mem w);
                    clock := clock (w_mem w) |}
  end.

End TokenDataService.
(** ** The on-chain discovery and enrichment service

    The service that reads pools through Multicall3, prices tokens from
    pool ticks and upserts [GeckoData] records. *)

Module PoolService.

(** *** Configuration *)

Definition BATCH_SIZE : nat := 30.   (* parseInt(process.env.BATCH_SIZE) || 30 *)
Definition WETH_ADDRESS : address := "0x4200000000000000000000000000000000000006".
Definition UNISWAP_V3_FACTORY_ADDRESS : address := "0x33128a8fC17869897dcE68Ed026d694621f6FDfD".
Definition UNISWAP_FEE_TIERS : list Z := [100; 500; 3000; 10000].
Definition ZeroAddress : address := "0x0000000000000000000000000000000000000000".
Definition WETH_PRICE_CACHE_TTL : Z := 15 * 60 * 1000.

(** *** Numbers and decimal strings *)

Definition digit_of_ascii (c : ascii) : option Z :=
  let n := nat_of_ascii c in
  if ((48 <=? n)%nat && (n <=? 57)%nat)%bool then Some (Z.of_nat n - 48) else None.

Fixpoint parse_digits (s : string) (acc : Z) : option Z :=
  match s with
  | EmptyString => Some acc
  | String c s' =>
      match digit_of_ascii c with
      | Some d => parse_digits s' (10 * acc + d)
      | None => None
      end
  end.

(** [BigInt(s)] on the strings that [uint.toString()] produces: a string of
    decimal digits is read as that integer and the empty string as zero.
    Any other string is a [SyntaxError] here; the signs, radix prefixes and
    surrounding white space that [BigInt] also accepts never occur in the
    decoded data. *)
Definition BigInt (s : string) : option Z := parse_digits s 0.

(** [Number(s)] on decimal strings; [Number] of another string is NaN,
    which has no counterpart in [R]. *)
Definition Number_of_string (s : string) : R := IZR (default 0 (BigInt s)).

(** Truthiness of a number. *)
Definition truthy (x : R) : bool := if Req_dec_T x 0 then false else true.

(** [x || d] on a number that may be [undefined]. *)
Definition num_or (x : option R) (d : R) : R :=
  match x with
  | Some v => if truthy v then v else d
  | None => d
  end.

(** *** Contract reads *)

(** The content of [returnData]: what the bytes hold.  Decoding at the
    return type of the function called throws unless the content has that
    type; [AbiMalformed] stands for bytes that decode at no type. *)
Inductive abi_value :=
| AbiString (s : string)
| AbiUint (n : Z)
| AbiAddress (a : address)
| AbiSlot0 (sqrtPriceX96 : Z) (tick : Z)
| AbiMalformed.

Record callResult := { success : bool; returnData : abi_value }.

Inductive fn :=
| Fn_name | Fn_symbol | Fn_decimals | Fn_totalSupply
| Fn_token0 | Fn_token1 | Fn_fee | Fn_liquidity | Fn_slot0
| Fn_getPool (tokenA tokenB : address) (fee : Z).

Record call3 := { target : address; allowFailure : bool; callData : fn }.

(** [decodeFunctionResult(interface, f, data)[0]] by return type. *)
Definition decode_string (v : abi_value) : option string :=
  match v with AbiString s => Some s | _ => None end.
Definition decode_uint (v : abi_value) : option Z :=
  match v with AbiUint n => Some n | _ => None end.
Definition decode_address (v : abi_value) : option address :=
  match v with AbiAddress a => Some a | _ => None end.
Definition decode_slot0 (v : abi_value) : option (Z * Z) :=
  match v with AbiSlot0 p t => Some (p, t) | _ => None end.

(** *** Records *)

(** A pool object of [poolDataMap].  [sqrtPriceX96] and [tick] are
    assigned together from one decoded [slot0], hence one optional pair. *)
Record pool := {
  pool_address : address;
  token0 : address;
  token1 : address;
  fee : Z;
  dex : string;
  liquidity : option string;
  slot0 : option (string * Z)
}.

Definition sqrtPriceX96 (p : pool) : option string := fst <$> slot0 p.
Definition tick (p : pool) : option Z := snd <$> slot0 p.

(** A value of [tokenInfoMap]; the optional fields are those added after
    the object is created. *)
Record tokenInfo := {
  info_address : address;
  name : string;
  symbol : string;
  decimals : Z;
  totalSupply : string;
  pools : list (option pool);
  pool_count : option Z;
  main_dex : option string;
  main_pool_address : option string;
  main_pool_tick : option Z;
  price_usd : option R;
  liquidity_usd : option R;
  market_cap : option R
}.

(** The document written by [processAndStoreTokensData]. *)
Record tokenDoc := {
  doc_contractAddress : address;
  doc_name : string;
  doc_symbol : string;
  doc_decimals : Z;
  doc_totalSupply : string;
  doc_pool_count : Z;
  doc_price_usd : R;
  doc_market_cap : R;
  doc_main_dex : string;
  doc_main_pool_address : string;
  doc_main_pool_tick : Z;
  doc_lastUpdated : Z
}.

(** *** Primitive operations *)

Inductive event : Type -> Type :=
(* module-level variables *)
| GetIsUpdating : event bool
| SetIsUpdating (b : bool) : event unit
| GetCachedWethPrice : event (option R)
| SetCachedWethPrice (p : R) : event unit
| GetWethPriceLastUpdated : event Z
| SetWethPriceLastUpdated (t : Z) : event unit
| DateNow : event Z
(* ghost markers around the body of updateTokenData *)
| EnterUpdateTokenData : event unit
| LeaveUpdateTokenData : event unit
(* suspension points *)
| ReadWethUsdcPool : event (exn + (address * address * Z))%type
| Aggregate3 (calls : list call3) : event (exn + list callResult)%type
| TokenFindAll : event (exn + list address)%type
| GeckoDataBulkWrite (docs : list tokenDoc) : event (exn + unit)%type
| GetBlockNumber : event (exn + Z)%type
| SetTimeout (ms : Z) : event unit
| Microtask : event unit.

Abbreviation task := (Task.task event).

Definition await_async {A} (t : task A) : task A :=
  try_catch (x ← t; _ ← call Microtask; Ret x)
            (fun e => _ ← call Microtask; Throw e).

(** *** fetchWethPrice *)

Definition referenceTick : Z := -200768.
Definition referencePrice : R := 1911.

(** [Math.pow(base, tick)] at an integer exponent. *)
Definition Math_pow (base : R) (exponent : Z) : R := powerRZ base exponent.

(** [cachedWethPrice || 1911] *)
Definition cached_or_fallback (cachedWethPrice : option R) : R :=
  num_or cachedWethPrice 1911.

(** The part of the [try] block after the cache test: read the pool and
    price the tick against the calibration point. *)
Definition refreshWethPrice (now : Z) : task R :=
  '(token0_, token1_, slot0_tick) ← await ReadWethUsdcPool;
  let tick_ := slot0_tick in         (* Number(slot0[1]) *)
  let isWethToken0 := String.eqb (toLowerCase token0_) (toLowerCase WETH_ADDRESS) in
  let base := 1.0001%R in
  let tickPower := Math_pow base tick_ in
  let referencePower := Math_pow base referenceTick in
  let constantFactor := (referencePrice / referencePower)%R in
  let price := (tickPower * constantFactor)%R in
  _ ← call (SetCachedWethPrice price);
  _ ← call (SetWethPriceLastUpdated now);
  Ret price.

Definition fetchWethPrice : task R :=
  try_catch
    (now ← call DateNow;
     cachedWethPrice ← call GetCachedWethPrice;
     wethPriceLastUpdated ← call GetWethPriceLastUpdated;
     match cachedWethPrice with
     | Some cached =>
         if (truthy cached && bool_decide (now - wethPriceLastUpdated < WETH_PRICE_CACHE_TTL))%bool
         then Ret cached
         else refreshWethPrice now
     | None => refreshWethPrice now
     end)
    (fun error =>
       cachedWethPrice ← call GetCachedWethPrice;
       Ret (cached_or_fallback cachedWethPrice)).

(** *** calculatePriceFromTick *)

Definition calculatePriceFromTick (tick_ decimals0 decimals1 : Z) : R :=
  let base := 1.0001%R in
  let exponent := tick_ in
  let price :=
    if bool_decide (Z.abs exponent > 1000)
    then (let logPrice := (IZR exponent * ln base)%R in exp logPrice)
    else Math_pow base exponent in
  let decimalAdjustment := Math_pow 10 (decimals1 - decimals0) in
  (price * decimalAdjustment)%R.

(** *** calculateMarketCap *)

Definition calculateMarketCap (totalSupply_ : string) (decimals_ : Z) (price : R) : R :=
  if (bool_decide (totalSupply_ = "") || negb (truthy price))%bool then 0%R else
  let divisor := Math_pow 10 decimals_ in
  let normalizedSupply : option R :=       (* None: the [try] block threw *)
    if bool_decide (15 < String.length totalSupply_)%nat then
      totalSupplyBigInt ← BigInt totalSupply_;
      (* BigInt(Math.floor(divisor)) *)
      let divisorBigInt := if bool_decide (decimals_ < 0) then 0 else 10 ^ decimals_ in
      if bool_decide (divisorBigInt = 0) then None (* RangeError *) else
      let wholePart := IZR (Z.quot totalSupplyBigInt divisorBigInt) in
      let fractionPart := IZR (Z.quot (Z.rem totalSupplyBigInt divisorBigInt) divisorBigInt) in
      Some (wholePart + fractionPart)%R
    else Some (Number_of_string totalSupply_ / divisor)%R in
  match normalizedSupply with
  | Some s => (s * price)%R
  | None => 0%R
  end.

(** *** calculateLiquidityInUSD *)

Definition calculateLiquidityInUSD (liquidity_ : option string) (sqrtPriceX96_ : option string)
    (tick_ : Z) (price : R) (isToken0 : bool) (token0Decimals token1Decimals : Z)
    (wethPriceUsd : R) : R :=
  match liquidity_ with
  | None => 0%R
  | Some liquidity_ =>
      if (bool_decide (liquidity_ = "") || bool_decide (liquidity_ = "0") || negb (truthy price))%bool
      then 0%R else
      let liquidityNum := Number_of_string liquidity_ in
      let sqrtPrice := (Number_of_string (default "" sqrtPriceX96_) / 2 ^ 96)%R in
      if isToken0 then
        let wethAmount := (liquidityNum * sqrtPrice / 10 ^ 18)%R in
        let tokenAmount := (liquidityNum / sqrtPrice / Math_pow 10 token0Decimals)%R in
        let tokenValueUSD := (tokenAmount * price)%R in
        let wethValueUSD := (wethAmount * wethPriceUsd)%R in
        (tokenValueUSD + wethValueUSD)%R
      else
        let tokenAmount := (liquidityNum * sqrtPrice / Math_pow 10 token1Decimals)%R in
        let wethAmount := (liquidityNum / sqrtPrice / 10 ^ 18)%R in
        let tokenValueUSD := (tokenAmount * price)%R in
        let wethValueUSD := (wethAmount * wethPriceUsd)%R in
        (tokenValueUSD + wethValueUSD)%R
  end.

(** *** chunkArray *)

Fixpoint chunk_loop {A} (fuel : nat) (array : list A) (size i : nat) : list (list A) :=
  match fuel with
  | O => []
  | S fuel' =>
      if bool_decide (i < length array)%nat
      then slice array (Z.of_nat i) (Z.of_nat (i + size)) :: chunk_loop fuel' array size (i + size)
      else []
  end.

(** [fuel] is the length of the array: enough whenever [size] is positive. *)
Definition chunkArray {A} (array : list A) (size : nat) : list (list A) :=
  chunk_loop (length array) array size 0.

(** *** getTokensBasicInfo *)

(** The statements of a [try] block over local variables [S]: a statement
    that throws ([None]) abandons the remaining ones and leaves the
    variables as they are. *)
Fixpoint try_statements {S} (statements : list (S -> option S)) (s : S) : S :=
  match statements with
  | [] => s
  | st :: rest =>
      match st s with
      | Some s' => try_statements rest s'
      | None => s
      end
  end.

(** [if (results[i].success) { x = decode(results[i].returnData) }] *)
Definition decode_if_success {S V} (results : list callResult) (i : nat)
    (decode : abi_value -> option V) (assign : V -> S -> S) : S -> option S :=
  fun s =>
    r ← results !! i;
    if success r then v ← decode (returnData r); Some (assign v s) else Some s.

Record basicFields := {
  bf_name : string;
  bf_symbol : string;
  bf_decimals : Z;
  bf_totalSupply : string
}.

Definition decode_basic_fields (results : list callResult) (i : nat) : basicFields :=
  try_statements
    [ decode_if_success results i decode_string
        (fun v f => {| bf_name := v; bf_symbol := bf_symbol f;
                       bf_decimals := bf_decimals f; bf_totalSupply := bf_totalSupply f |});
      decode_if_success results (i + 1) decode_string
        (fun v f => {| bf_name := bf_name f; bf_symbol := v;
                       bf_decimals := bf_decimals f; bf_totalSupply := bf_totalSupply f |});
      decode_if_success results (i + 2) decode_uint
        (fun v f => {| bf_name := bf_name f; bf_symbol := bf_symbol f;
                       bf_decimals := v; bf_totalSupply := bf_totalSupply f |});
      decode_if_success results (i + 3) decode_uint
        (fun v f => {| bf_name := bf_name f; bf_symbol := bf_symbol f;
                       bf_decimals := bf_decimals f; bf_totalSupply := pretty v |}) ]
    {| bf_name := ""; bf_symbol := ""; bf_decimals := 18; bf_totalSupply := "0" |}.

Definition new_tokenInfo (address_ : address) (f : basicFields) : tokenInfo :=
  {| info_address := address_;
     name := bf_name f;
     symbol := bf_symbol f;
     decimals := bf_decimals f;
     totalSupply := bf_totalSupply f;
     pools := [];
     pool_count := None; main_dex := None; main_pool_address := None;
     main_pool_tick := None; price_usd := None; liquidity_usd := None;
     market_cap := None |}.

(** The loop [for (let i = 0; i < results.length; i += 4)]; [None] when
    [tokenAddresses[currentToken]] is [undefined], which throws outside the
    inner [try].  [fuel] is the length of [results]. *)
Fixpoint basic_info_loop (fuel : nat) (tokenAddresses : list address)
    (results : list callResult) (i currentToken : nat)
    (tokenInfoMap : obj tokenInfo) : option (obj tokenInfo) :=
  match fuel with
  | O => Some tokenInfoMap
  | S fuel' =>
      if bool_decide (i < length results)%nat then
        a ← tokenAddresses !! currentToken;
        let address_ := toLowerCase a in
        let fields := decode_basic_fields results i in
        basic_info_loop fuel' tokenAddresses results (i + 4) (S currentToken)
          (obj_set tokenInfoMap address_ (new_tokenInfo address_ fields))
      else Some tokenInfoMap
  end.

Definition basic_info_calls (tokenAddresses : list address) : list call3 :=
  a ← tokenAddresses;
  [ {| target := a; allowFailure := true; callData := Fn_name |};
    {| target := a; allowFailure := true; callData := Fn_symbol |};
    {| target := a; allowFailure := true; callData := Fn_decimals |};
    {| target := a; allowFailure := true; callData := Fn_totalSupply |} ].

Definition getTokensBasicInfo (tokenAddresses : list address) : task (obj tokenInfo) :=
  try_catch
    (let calls := basic_info_calls tokenAddresses in
     results ← await (Aggregate3 calls);
     match basic_info_loop (length results) tokenAddresses results 0 0 [] with
     | Some tokenInfoMap => Ret tokenInfoMap
     | None => Throw TypeError
     end)
    (fun error => Ret []).

(** *** findWethPoolsBatched *)

Record callMetadata := {
  md_tokenAddress : address;
  md_token0 : address;
  md_token1 : address;
  md_fee : Z
}.

Record poolMaps := {
  tokenPoolsMap : obj (list address);
  poolDataMap : obj pool
}.

Definition is_hex_digit (c : ascii) : bool :=
  let n := nat_of_ascii c in
  ((48 <=? n)%nat && (n <=? 57)%nat) || ((97 <=? n)%nat && (n <=? 102)%nat).

Fixpoint all_chars (p : ascii -> bool) (s : string) : bool :=
  match s with
  | EmptyString => true
  | String c s' => p c && all_chars p s'
  end.

(** [ethers.getAddress(token)] on a lower-cased string throws unless the
    string is [0x] followed by 40 hexadecimal digits; the checksum casing
    it returns does not change the encoded call. *)
Definition getAddress (token : string) : option address :=
  match token with
  | String "0" (String "x" digits) =>
      if (bool_decide (String.length digits = 40%nat) && all_chars is_hex_digit digits)%bool
      then Some token else None
  | _ => None
  end.

(** The two lookups per fee tier, with what each call is for. *)
Definition pool_calls_for (token checksumToken : address) : list (call3 * callMetadata) :=
  fee_ ← UNISWAP_FEE_TIERS;
  [ ({| target := UNISWAP_V3_FACTORY_ADDRESS; allowFailure := true;
        callData := Fn_getPool checksumToken WETH_ADDRESS fee_ |},
     {| md_tokenAddress := token; md_token0 := token;
        md_token1 := toLowerCase WETH_ADDRESS; md_fee := fee_ |});
    ({| target := UNISWAP_V3_FACTORY_ADDRESS; allowFailure := true;
        callData := Fn_getPool WETH_ADDRESS checksumToken fee_ |},
     {| md_tokenAddress := token; md_token0 := toLowerCase WETH_ADDRESS;
        md_token1 := token; md_fee := fee_ |}) ].

Fixpoint pool_calls (tokenAddresses : list address) : option (list (call3 * callMetadata)) :=
  match tokenAddresses with
  | [] => Some []
  | tokenAddress :: rest =>
      let token := toLowerCase tokenAddress in
      checksumToken ← getAddress token;
      calls ← pool_calls rest;
      Some (pool_calls_for token checksumToken ++ calls)
  end.

(** The body of the loop over one batch of results; every throw inside is
    caught per result. *)
Definition record_pool (metadata : option callMetadata) (result : callResult)
    (maps : poolMaps) : poolMaps :=
  if success result then
    match decode_address (returnData result) with
    | None => maps
    | Some poolAddress =>
        if bool_decide (poolAddress <> ZeroAddress) then
          match metadata with
          | None => maps
          | Some md =>
              let token := md_tokenAddress md in
              match obj_get (tokenPoolsMap maps) token with
              | None => maps
              | Some known =>
                  if bool_decide (poolAddress ∈ known) then maps else
                  {| tokenPoolsMap := obj_set (tokenPoolsMap maps) token (known ++ [poolAddress]);
                     poolDataMap := obj_set (poolDataMap maps) poolAddress
                       {| pool_address := poolAddress;
                          token0 := md_token0 md;
                          token1 := md_token1 md;
                          fee := md_fee md;
                          dex := "Uniswap V3";
                          liquidity := None;
                          slot0 := None |} |}
              end
          end
        else maps
    end
  else maps.

Fixpoint record_pools (results : list callResult) (batchMetadata : list callMetadata)
    (j : nat) (maps : poolMaps) : poolMaps :=
  match results with
  | [] => maps
  | result :: results' =>
      record_pools results' batchMetadata (S j)
        (record_pool (batchMetadata !! j) result maps)
  end.

Definition MULTICALL_BATCH_SIZE : nat := 2000.

Fixpoint discovery_loop (fuel : nat) (calls : list call3) (callMetadata_ : list callMetadata)
    (i : nat) (maps : poolMaps) : task poolMaps :=
  match fuel with
  | O => Ret maps
  | S fuel' =>
      if bool_decide (i < length calls)%nat then
        let batchCalls := slice calls (Z.of_nat i) (Z.of_nat (i + MULTICALL_BATCH_SIZE)) in
        let batchMetadata :=
          slice callMetadata_ (Z.of_nat i) (Z.of_nat (i + MULTICALL_BATCH_SIZE)) in
        results ← await (Aggregate3 batchCalls);
        let maps' := record_pools results batchMetadata 0 maps in
        _ ← (if bool_decide (i + MULTICALL_BATCH_SIZE < length calls)%nat
             then call (SetTimeout 2000) else Ret ());
        discovery_loop fuel' calls callMetadata_ (i + MULTICALL_BATCH_SIZE) maps'
      else Ret maps
  end.

Definition empty_pool_lists (tokenAddresses : list address) : obj (list address) :=
  foldl (fun o a => obj_set o (toLowerCase a) []) [] tokenAddresses.

Definition findWethPoolsBatched (tokenAddresses : list address) : task poolMaps :=
  try_catch
    (let maps := {| tokenPoolsMap := empty_pool_lists tokenAddresses; poolDataMap := [] |} in
     match pool_calls tokenAddresses with
     | None => Throw TypeError
     | Some calls =>
         discovery_loop (length calls) calls.*1 calls.*2 0 maps
     end)
    (fun error => Ret {| tokenPoolsMap := []; poolDataMap := [] |}).

(** *** getPoolsData *)

Definition pool_state_calls (poolAddresses : list address) : list call3 :=
  p ← poolAddresses;
  [ {| target := p; allowFailure := true; callData := Fn_token0 |};
    {| target := p; allowFailure := true; callData := Fn_token1 |};
    {| target := p; allowFailure := true; callData := Fn_fee |};
    {| target := p; allowFailure := true; callData := Fn_liquidity |};
    {| target := p; allowFailure := true; callData := Fn_slot0 |} ].

(** [if (results[i].success && poolDataMap[poolAddress])
       { poolDataMap[poolAddress].field = decode(...) }] *)
Definition update_if_success {V} (results : list callResult) (i : nat)
    (poolAddress : option address) (decode : abi_value -> option V)
    (assign : V -> pool -> pool) : obj pool -> option (obj pool) :=
  fun poolDataMap_ =>
    r ← results !! i;
    match poolAddress ≫= obj_get poolDataMap_, poolAddress with
    | Some p, Some a =>
        if success r then v ← decode (returnData r); Some (obj_set poolDataMap_ a (assign v p))
        else Some poolDataMap_
    | _, _ => Some poolDataMap_
    end.

Definition update_pool (results : list callResult) (i : nat) (poolAddress : option address)
    (poolDataMap_ : obj pool) : obj pool :=
  try_statements
    [ update_if_success results i poolAddress decode_address
        (fun v p => {| pool_address := pool_address p; token0 := toLowerCase v;
                       token1 := token1 p; fee := fee p; dex := dex p;
                       liquidity := liquidity p; slot0 := slot0 p |});
      update_if_success results (i + 1) poolAddress decode_address
        (fun v p => {| pool_address := pool_address p; token0 := token0 p;
                       token1 := toLowerCase v; fee := fee p; dex := dex p;
                       liquidity := liquidity p; slot0 := slot0 p |});
      update_if_success results (i + 2) poolAddress decode_uint
        (fun v p => {| pool_address := pool_address p; token0 := token0 p;
                       token1 := token1 p; fee := v; dex := dex p;
                       liquidity := liquidity p; slot0 := slot0 p |});
      update_if_success results (i + 3) poolAddress decode_uint
        (fun v p => {| pool_address := pool_address p; token0 := token0 p;
                       token1 := token1 p; fee := fee p; dex := dex p;
                       liquidity := Some (pretty v); slot0 := slot0 p |});
      update_if_success results (i + 4) poolAddress decode_slot0
        (fun v p => {| pool_address := pool_address p; token0 := token0 p;
                       token1 := token1 p; fee := fee p; dex := dex p;
                       liquidity := liquidity p; slot0 := Some (pretty v.1, v.2) |}) ]
    poolDataMap_.

Fixpoint pools_data_loop (fuel : nat) (poolAddresses : list address)
    (results : list callResult) (i currentPool : nat) (poolDataMap_ : obj pool) : obj pool :=
  match fuel with
  | O => poolDataMap_
  | S fuel' =>
      if bool_decide (i < length results)%nat then
        let poolAddress := poolAddresses !! currentPool in
        pools_data_loop fuel' poolAddresses results (i + 5) (S currentPool)
          (update_pool results i poolAddress poolDataMap_)
      else poolDataMap_
  end.

Definition getPoolsData (poolAddresses : list address) (poolDataMap_ : obj pool) : task (obj pool) :=
  try_catch
    (if bool_decide (length poolAddresses = 0%nat) then Ret poolDataMap_ else
     let calls := pool_state_calls poolAddresses in
     results ← await (Aggregate3 calls);
     Ret (pools_data_loop (length results) poolAddresses results 0 0 poolDataMap_))
    (fun error => Ret poolDataMap_).

(** *** enrichWithPoolData *)

Definition with_pools (v : list (option pool)) (t : tokenInfo) : tokenInfo :=
  {| info_address := info_address t; name := name t; symbol := symbol t;
     decimals := decimals t; totalSupply := totalSupply t; pools := v;
     pool_count := pool_count t; main_dex := main_dex t;
     main_pool_address := main_pool_address t; main_pool_tick := main_pool_tick t;
     price_usd := price_usd t; liquidity_usd := liquidity_usd t;
     market_cap := market_cap t |}.

Definition with_pool_count (v : Z) (t : tokenInfo) : tokenInfo :=
  {| info_address := info_address t; name := name t; symbol := symbol t;
     decimals := decimals t; totalSupply := totalSupply t; pools := pools t;
     pool_count := Some v; main_dex := main_dex t;
     main_pool_address := main_pool_address t; main_pool_tick := main_pool_tick t;
     price_usd := price_usd t; liquidity_usd := liquidity_usd t;
     market_cap := market_cap t |}.

Definition with_main_dex (v : string) (t : tokenInfo) : tokenInfo :=
  {| info_address := info_address t; name := name t; symbol := symbol t;
     decimals := decimals t; totalSupply := totalSupply t; pools := pools t;
     pool_count := pool_count t; main_dex := Some v;
     main_pool_address := main_pool_address t; main_pool_tick := main_pool_tick t;
     price_usd := price_usd t; liquidity_usd := liquidity_usd t;
     market_cap := market_cap t |}.

Definition with_main_pool (address_ : string) (tick_ : Z) (t : tokenInfo) : tokenInfo :=
  {| info_address := info_address t; name := name t; symbol := symbol t;
     decimals := decimals t; totalSupply := totalSupply t; pools := pools t;
     pool_count := pool_count t; main_dex := main_dex t;
     main_pool_address := Some address_; main_pool_tick := Some tick_;
     price_usd := price_usd t; liquidity_usd := liquidity_usd t;
     market_cap := market_cap t |}.

Definition with_price_and_liquidity (price liquidity_usd_ : R) (t : tokenInfo) : tokenInfo :=
  {| info_address := info_address t; name := name t; symbol := symbol t;
     decimals := decimals t; totalSupply := totalSupply t; pools := pools t;
     pool_count := pool_count t; main_dex := main_dex t;
     main_pool_address := main_pool_address t; main_pool_tick := main_pool_tick t;
     price_usd := Some price; liquidity_usd := Some liquidity_usd_;
     market_cap := market_cap t |}.

Definition with_market_cap (v : R) (t : tokenInfo) : tokenInfo :=
  {| info_address := info_address t; name := name t; symbol := symbol t;
     decimals := decimals t; totalSupply := totalSupply t; pools := pools t;
     pool_count := pool_count t; main_dex := main_dex t;
     main_pool_address := main_pool_address t; main_pool_tick := main_pool_tick t;
     price_usd := price_usd t; liquidity_usd := liquidity_usd t;
     market_cap := Some v |}.

(** The local variables of the pool loop. *)
Record selection := {
  highestLiquidity : Z;
  bestPool : option pool;
  mainPoolAddress : string;
  mainPoolTick : Z
}.

Definition no_selection : selection :=
  {| highestLiquidity := 0; bestPool := None; mainPoolAddress := ""; mainPoolTick := 0 |}.

(** [for (const pool of pools)]: the loop that tracks the pool with the
    highest liquidity and writes [main_dex] on the token as it goes.  The
    last component is the exception [BigInt] may throw. *)
Fixpoint select_main_pool (pools_ : list (option pool)) (sel : selection)
    (info : tokenInfo) : selection * tokenInfo * option exn :=
  match pools_ with
  | [] => (sel, info, None)
  | p :: rest =>
      match p with
      | Some pool_ =>
          match liquidity pool_, tick pool_ with
          | Some liquidity_, Some tick_ =>
              if bool_decide (liquidity_ = "") then select_main_pool rest sel info else
              match BigInt liquidity_ with
              | None => (sel, info, Some SyntaxError)
              | Some liquidityBigInt =>
                  if bool_decide (liquidityBigInt > highestLiquidity sel) then
                    select_main_pool rest
                      {| highestLiquidity := liquidityBigInt;
                         bestPool := Some pool_;
                         mainPoolAddress := pool_address pool_;
                         mainPoolTick := tick_ |}
                      (with_main_dex (dex pool_) info)
                  else select_main_pool rest sel info
              end
          | _, _ => select_main_pool rest sel info
          end
      | None => select_main_pool rest sel info
      end
  end.

(** The two branches that price the token in WETH from the tick. *)
Definition priceInWETH (isToken0 : bool) (tickNumber token0Decimals token1Decimals : Z) : R :=
  if isToken0 then
    calculatePriceFromTick tickNumber token0Decimals token1Decimals
  else
    let priceInverse := calculatePriceFromTick tickNumber token1Decimals token0Decimals in
    (1 / priceInverse)%R.

(** The body of the loop over the tokens, on one token: the token object
    as mutated, and the exception that ended the body, if any. *)
Definition enrich_token (wethPriceUsd : R) (tokenAddress : address) (tokenData : tokenInfo)
    : tokenInfo * option exn :=
  let pools_ := pools tokenData in
  if bool_decide (length pools_ = 0%nat) then (tokenData, None) else
  let info := with_pool_count (Z.of_nat (length pools_)) tokenData in
  let '(sel, info, thrown) := select_main_pool pools_ no_selection info in
  match thrown with
  | Some e => (info, Some e)
  | None =>
      let info := with_main_pool (mainPoolAddress sel) (mainPoolTick sel) info in
      let '(price, liquidity_usd_) :=
        match bestPool sel with
        | Some bestPool_ =>
            match tick bestPool_ with
            | Some tickNumber =>
                let isToken0 :=
                  String.eqb (toLowerCase (token0 bestPool_)) (toLowerCase tokenAddress) in
                let token0Decimals := if isToken0 then decimals info else 18 in
                let token1Decimals := if isToken0 then 18 else decimals info in
                let price :=
                  (priceInWETH isToken0 tickNumber token0Decimals token1Decimals
                   * wethPriceUsd)%R in
                (price,
                 calculateLiquidityInUSD (liquidity bestPool_) (sqrtPriceX96 bestPool_)
                   tickNumber price isToken0 token0Decimals token1Decimals wethPriceUsd)
            | None => (0%R, 0%R)
            end
        | None => (0%R, 0%R)
        end in
      let info := with_price_and_liquidity price liquidity_usd_ info in
      let info :=
        if Rlt_dec 0 price
        then with_market_cap (calculateMarketCap (totalSupply info) (decimals info) price) info
        else info in
      (info, None)
  end.

(** The loop over [Object.entries(tokenInfoMap)].  Both the normal exit
    and the [catch] return [tokenInfoMap] as mutated so far. *)
Fixpoint enrich_entries (wethPriceUsd : R) (entries : list (string * tokenInfo))
    (tokenInfoMap : obj tokenInfo) : obj tokenInfo :=
  match entries with
  | [] => tokenInfoMap
  | (tokenAddress, tokenData) :: rest =>
      let '(info, thrown) := enrich_token wethPriceUsd tokenAddress tokenData in
      let tokenInfoMap' := obj_set tokenInfoMap tokenAddress info in
      match thrown with
      | Some _ => tokenInfoMap'
      | None => enrich_entries wethPriceUsd rest tokenInfoMap'
      end
  end.

Definition enrichWithPoolData (tokenInfoMap : obj tokenInfo) : task (obj tokenInfo) :=
  try_catch
    (wethPriceUsd ← await_async fetchWethPrice;
     Ret (enrich_entries wethPriceUsd tokenInfoMap tokenInfoMap))
    (fun error => Ret tokenInfoMap).

(** *** processAndStoreTokensData *)

Definition make_tokenDoc (now : Z) (address_ : address) (tokenData : tokenInfo) : tokenDoc :=
  {| doc_contractAddress := toLowerCase address_;
     doc_name := name tokenData;                                      (* || '' *)
     doc_symbol := symbol tokenData;                                  (* || '' *)
     doc_decimals := if bool_decide (decimals tokenData = 0) then 18 else decimals tokenData;
     doc_totalSupply :=
       if bool_decide (totalSupply tokenData = "") then "0" else totalSupply tokenData;
     doc_pool_count := default 0 (pool_count tokenData);
     doc_price_usd := num_or (price_usd tokenData) 0;
     doc_market_cap := num_or (market_cap tokenData) 0;
     doc_main_dex := default "" (main_dex tokenData);
     doc_main_pool_address := default "" (main_pool_address tokenData);
     doc_main_pool_tick := default 0 (main_pool_tick tokenData);
     doc_lastUpdated := now |}.

Fixpoint build_docs (entries : list (string * tokenInfo)) : task (list tokenDoc) :=
  match entries with
  | [] => Ret []
  | (address_, tokenData) :: rest =>
      now ← call DateNow;
      docs ← build_docs rest;
      Ret (make_tokenDoc now address_ tokenData :: docs)
  end.

(** [bulkOperations] holds one upserting [updateOne] per document, with
    [$set: tokenDoc]; the event carries the documents. *)
Definition processAndStoreTokensData (tokensData : obj tokenInfo) : task (list tokenDoc) :=
  try_catch
    (if bool_decide (length tokensData = 0%nat) then Ret [] else
     processedTokens ← build_docs tokensData;
     _ ← (if bool_decide (0 < length processedTokens)%nat
          then (startTime ← call DateNow;
                _ ← await (GeckoDataBulkWrite processedTokens);
                _ ← call DateNow;
                Ret ())
          else Ret ());
     Ret processedTokens)
    (fun error => Ret []).

(** The [GeckoData] collection, keyed by [contractAddress]; the schema
    gives [volume_usd] and [liquidity_usd] the default 0. *)
Record geckoRecord := {
  g_name : string;
  g_symbol : string;
  g_decimals : Z;
  g_totalSupply : string;
  g_price_usd : R;
  g_volume_usd : R;
  g_liquidity_usd : R;
  g_market_cap : R;
  g_pool_count : Z;
  g_main_dex : string;
  g_main_pool_address : string;
  g_main_pool_tick : Z;
  g_lastUpdated : Z
}.

(** [updateOne] with [upsert: true] and [$set: doc]: the paths of the
    document are written, the other paths keep their value, or take the
    schema default when the record is created. *)
Definition upsert (store : gmap address geckoRecord) (doc : tokenDoc) : gmap address geckoRecord :=
  let previous := store !! doc_contractAddress doc in
  <[doc_contractAddress doc :=
     {| g_name := doc_name doc;
        g_symbol := doc_symbol doc;
        g_decimals := doc_decimals doc;
        g_totalSupply := doc_totalSupply doc;
        g_price_usd := doc_price_usd doc;
        g_volume_usd := from_option g_volume_usd 0%R previous;
        g_liquidity_usd := from_option g_liquidity_usd 0%R previous;
        g_market_cap := doc_market_cap doc;
        g_pool_count := doc_pool_count doc;
        g_main_dex := doc_main_dex doc;
        g_main_pool_address := doc_main_pool_address doc;
        g_main_pool_tick := doc_main_pool_tick doc;
        g_lastUpdated := doc_lastUpdated doc |}]> store.

Definition bulkWrite (docs : list tokenDoc) (store : gmap address geckoRecord)
    : gmap address geckoRecord :=
  foldl upsert store docs.

(** *** updateTokenData *)

(** [[...new Set(array)]]: first occurrences, in order. *)
Fixpoint unique_from (seen : list address) (array : list address) : list address :=
  match array with
  | [] => []
  | x :: rest =>
      if bool_decide (x ∈ seen) then unique_from seen rest
      else x :: unique_from (x :: seen) rest
  end.

(** The loop that hangs the pool objects on the tokens of the batch. *)
Definition attach_pools (batch : list address) (tokenPoolsMap_ : obj (list address))
    (enrichedPoolDataMap : obj pool) (tokenBasicInfo : obj tokenInfo) : obj tokenInfo :=
  foldl
    (fun tokenBasicInfo_ tokenAddress =>
       let token := toLowerCase tokenAddress in
       match obj_get tokenBasicInfo_ token with
       | Some info =>
           let poolAddresses := default [] (obj_get tokenPoolsMap_ token) in
           obj_set tokenBasicInfo_ token
             (with_pool_count (Z.of_nat (length poolAddresses))
                (with_pools (obj_get enrichedPoolDataMap <$> poolAddresses) info))
       | None => tokenBasicInfo_
       end)
    tokenBasicInfo batch.

Definition process_batch (batch : list address) : task (list tokenDoc) :=
  tokenBasicInfo ← await_async (getTokensBasicInfo batch);
  maps ← await_async (findWethPoolsBatched batch);
  let allPoolAddresses := unique_from [] (concat (tokenPoolsMap maps).*2) in
  enrichedPoolDataMap ← await_async (getPoolsData allPoolAddresses (poolDataMap maps));
  let tokenBasicInfo' :=
    attach_pools batch (tokenPoolsMap maps) enrichedPoolDataMap tokenBasicInfo in
  enrichedData ← await_async (enrichWithPoolData tokenBasicInfo');
  await_async (processAndStoreTokensData enrichedData).

Fixpoint batches_loop (batches : list (list address)) (processedCount : Z) : task Z :=
  match batches with
  | [] => Ret processedCount
  | batch :: rest =>
      updatedTokens ← process_batch batch;
      _ ← (if bool_decide (0 < length rest)%nat then call (SetTimeout 3000) else Ret ());
      batches_loop rest (processedCount + Z.of_nat (length updatedTokens))
  end.

(** The two ghost markers delimit one invocation of the pipeline. *)
Definition updateTokenData : task unit :=
  _ ← call EnterUpdateTokenData;
  _ ← try_catch
        (addresses ← await TokenFindAll;
         let batches := chunkArray addresses BATCH_SIZE in
         _ ← batches_loop batches 0;
         Ret ())
        (fun error => Ret ());
  call LeaveUpdateTokenData.

(** *** initializeDataFetching: the callbacks it registers *)

(** [setTimeout(() => { updateTokenData(); }, 5000)] *)
Definition startup_callback : task unit := updateTokenData.

(** The callback given to [cron.schedule]. *)
Definition cron_callback : task unit :=
  isUpdating ← call GetIsUpdating;
  if (isUpdating : bool) then Ret () else
  _ ← call (SetIsUpdating true);
  (* updateTokenData().finally(() => { isUpdating = false; }) *)
  try_catch
    (_ ← updateTokenData; _ ← call Microtask; call (SetIsUpdating false))
    (fun e => _ ← call Microtask; _ ← call (SetIsUpdating false); Throw e).

(** The pre-fetch of the WETH price. *)
Definition prefetch_callback : task unit := _ ← fetchWethPrice; Ret ().

(** *** Module-level state and the event loop *)

Record mem := {
  isUpdating : bool;
  cachedWethPrice : option R;
  wethPriceLastUpdated : Z;
  clock : Z;
  running : Z           (* ghost: invocations of updateTokenData in progress *)
}.

Definition handle_sync {X} (ev : event X) (m : mem) : option (mem * X) :=
  match ev in event X return option (mem * X) with
  | GetIsUpdating => Some (m, isUpdating m)
  | SetIsUpdating b =>
      Some ({| isUpdating := b; cachedWethPrice := cachedWethPrice m;
               wethPriceLastUpdated := wethPriceLastUpdated m; clock := clock m;
               running := running m |}, ())
  | GetCachedWethPrice => Some (m, cachedWethPrice m)
  | SetCachedWethPrice p =>
      Some ({| isUpdating := isUpdating m; cachedWethPrice := Some p;
               wethPriceLastUpdated := wethPriceLastUpdated m; clock := clock m;
               running := running m |}, ())
  | GetWethPriceLastUpdated => Some (m, wethPriceLastUpdated m)
  | SetWethPriceLastUpdated t =>
      Some ({| isUpdating := isUpdating m; cachedWethPrice := cachedWethPrice m;
               wethPriceLastUpdated := t; clock := clock m; running := running m |}, ())
  | DateNow => Some (m, clock m)
  | EnterUpdateTokenData =>
      Some ({| isUpdating := isUpdating m; cachedWethPrice := cachedWethPrice m;
               wethPriceLastUpdated := wethPriceLastUpdated m; clock := clock m;
               running := running m + 1 |}, ())
  | LeaveUpdateTokenData =>
      Some ({| isUpdating := isUpdating m; cachedWethPrice := cachedWethPrice m;
               wethPriceLastUpdated := wethPriceLastUpdated m; clock := clock m;
               running := running m - 1 |}, ())
  | _ => None
  end.

Abbreviation run_sync := (Task.run_sync (@handle_sync)).

Record sys := {
  sys_mem : mem;
  startup_due : bool;       (* the 5 s start-up timer has not fired yet *)
  pending : list (task unit)
}.

Definition advance (s : sys) (due : bool) (others : list (task unit)) (t : task unit) : sys :=
  let '(m', t') := run_sync (sys_mem s) t in
  {| sys_mem := m';
     startup_due := due;
     pending := if suspended t' then t' :: others else others |}.

Definition set_clock (s : sys) (now : Z) : sys :=
  {| sys_mem := {| isUpdating := isUpdating (sys_mem s);
                   cachedWethPrice := cachedWethPrice (sys_mem s);
                   wethPriceLastUpdated := wethPriceLastUpdated (sys_mem s);
                   clock := now; running := running (sys_mem s) |};
     startup_due := startup_due s;
     pending := pending s |}.

(** One turn of the event loop. *)
Inductive step : sys -> sys -> Prop :=
| step_cron s :
    step s (advance s (startup_due s) (pending s) cron_callback)
| step_startup s :
    startup_due s = true ->
    step s (advance s false (pending s) startup_callback)
| step_resume s i X (ev : event X) (k : X -> task unit) (x : X) :
    pending s !! i = Some (Vis ev k) ->
    step s (advance s (startup_due s) (delete i (pending s)) (k x))
| step_time s now :
    step s (set_clock s now).

(** The state right after [initializeDataFetching] returned: the price
    pre-fetch is waiting for its pool read and both timers are armed. *)
Definition start (now : Z) : sys :=
  advance
    {| sys_mem := {| isUpdating := false; cachedWethPrice := None;
                     wethPriceLastUpdated := 0; clock := now; running := 0 |};
       startup_due := true;
       pending := [] |}
    true [] prefetch_callback.

Inductive reachable : sys -> Prop :=
| reachable_start now : reachable (start now)
| reachable_step s s' : reachable s -> step s s' -> reachable s'.

End PoolService.
(** ** backend/services/tokenDataService.js: discovery of new tokens

    [fetchAndStoreTokens] reads the [TokenCreated] events of the factory
    contracts over the last 20,000 blocks and upserts one [Token] document
    per event.  It uses none of the module-level variables of the price
    passes, hence its own primitives. *)

Module TokenDiscovery.

Definition FACTORY_ADDRESSES : list address :=
  [ "0xb51F74E6d8568119061f59Fd7f98824F1e666AC1";
    "0x9bd7dCc13c532F37F65B0bF078C8f83E037e7445";
    "0x05Dd3Dc91FAeFAf06499D8D7acecc5a7DecCD4be" ].

Definition TOKEN_CREATED_EVENT : string :=
  "TokenCreated(address,uint256,address,string,string,uint256,address,uint256)".

(** [ethers.id(TOKEN_CREATED_EVENT)]: the topic is a fixed function of the
    signature; the signature stands for its hash. *)
Definition eventTopic : string := TOKEN_CREATED_EVENT.

(** The components of [decodedData] the code reads: indices 0, 2, 3, 4
    and 5. *)
Record decodedData := {
  decoded_tokenAddress : address;
  decoded_deployer : address;
  decoded_name : string;
  decoded_symbol : string;
  decoded_supply : Z
}.

(** A log; [None] is a [data] field that [AbiCoder.decode] rejects. *)
Record log := {
  log_data : option decodedData;
  blockNumber : Z
}.

Record filter := {
  filter_address : address;
  topics : list string;
  fromBlock : Z;
  toBlock : Z
}.

(** The objects pushed on [tokens]; each becomes the [$set] of an
    upserting [updateOne] filtered by its [contractAddress]. *)
Record token := {
  contractAddress : address;
  name : string;
  symbol : string;
  decimals : Z;
  createdAt : Z;
  deployer : address;
  factory : address
}.

Inductive event : Type -> Type :=
| GetBlockNumber : event (exn + Z)%type
| GetLogs (f : filter) : event (exn + list log)%type
| TokenBulkWrite (operations : list token) : event (exn + unit)%type.

Abbreviation task := (Task.task event).

(** The body of the inner [try] of the loop over the logs. *)
Definition token_of_log (factoryAddress : address) (l : log) : option token :=
  d ← log_data l;
  Some {| contractAddress := toLowerCase (decoded_tokenAddress d);
          name := decoded_name d;
          symbol := decoded_symbol d;
          decimals := 18;
          createdAt := blockNumber l * 2000;
          deployer := toLowerCase (decoded_deployer d);
          factory := toLowerCase factoryAddress |}.

(** [for (const log of logs)]: a log that does not decode is skipped. *)
Fixpoint process_logs (factoryAddress : address) (logs : list log) (tokens : list token)
    : list token :=
  match logs with
  | [] => tokens
  | l :: logs' =>
      match token_of_log factoryAddress l with
      | Some t => process_logs factoryAddress logs' (tokens ++ [t])
      | None => process_logs factoryAddress logs' tokens
      end
  end.

(** [for (const factoryAddress of FACTORY_ADDRESSES)] *)
Fixpoint factories_loop (factories : list address) (START_BLOCK currentBlock : Z)
    (tokens : list token) : task (list token) :=
  match factories with
  | [] => Ret tokens
  | factoryAddress :: rest =>
      let filter_ := {| filter_address := factoryAddress;
                        topics := [eventTopic];
                        fromBlock := START_BLOCK;
                        toBlock := currentBlock |} in
      tokens' ← try_catch
                  (logs ← await (GetLogs filter_);
                   Ret (process_logs factoryAddress logs tokens))
                  (fun chunkError => Ret tokens);
      factories_loop rest START_BLOCK currentBlock tokens'
  end.

Definition fetchAndStoreTokens : task unit :=
  try_catch
    (try_catch
       (currentBlock ← await GetBlockNumber;
        let START_BLOCK := Z.max 0 (currentBlock - 20000) in
        tokens ← factories_loop FACTORY_ADDRESSES START_BLOCK currentBlock [];
        if bool_decide (0 < length tokens)%nat
        then (_ ← await (TokenBulkWrite tokens); Ret ())
        else Ret ())
       (fun error => Ret ()))
    (fun error => Ret ()).

(** *** A chain and a [Token] collection behind the primitives *)

Record world := {
  w_block : (exn + Z)%type;                          (* getBlockNumber *)
  w_logs : filter -> (exn + list log)%type;          (* getLogs *)
  w_tokens : gset address;                           (* Token: the contractAddress values *)
  w_queries : list filter;                           (* getLogs calls, latest first *)
  w_writes : list (list token)                       (* bulk writes, latest first *)
}.

(** One upserting [updateOne] filtered by [contractAddress]: afterwards
    the collection has a document with that address. *)
Definition upsert (store : gset address) (t : token) : gset address :=
  {[contractAddress t]} ∪ store.

Definition respond {X} (ev : event X) (w : world) : world * X :=
  match ev in event X return world * X with
  | GetBlockNumber => (w, w_block w)
  | GetLogs f =>
      ({| w_block := w_block w; w_logs := w_logs w; w_tokens := w_tokens w;
          w_queries := f :: w_queries w; w_writes := w_writes w |},
       w_logs w f)
  | TokenBulkWrite operations =>
      ({| w_block := w_block w; w_logs := w_logs w;
          w_tokens := foldl upsert (w_tokens w) operations;
          w_queries := w_queries w; w_writes := operations :: w_writes w |},
       inr ())
  end.

Fixpoint exec {A} (w : world) (t : task A) : world * (exn + A) :=
  match t with
  | Ret a => (w, inr a)
  | Throw e => (w, inl e)
  | Vis ev k => let '(w', x) := respond ev w in exec w' (k x)
  end.

End TokenDiscovery.

(** * Objects used as dictionaries, strings *)

Module JSFacts.

Lemma obj_set_fresh {V} (o : obj V) (k : string) (v : V) :
  k ∉ o.*1 -> obj_set o k v = o ++ [(k, v)].
Proof.
  induction o as [|[k' v'] o IH]; intros Hk; simpl; [reflexivity|].
  rewrite fmap_cons, not_elem_of_cons in Hk. destruct Hk as [Hne Hk].
  destruct (String.eqb_spec k' k) as [->|_]; [contradiction|].
  rewrite IH by exact Hk. reflexivity.
Qed.

Lemma obj_get_set {V} (o : obj V) (k k' : string) (v : V) :
  obj_get (obj_set o k v) k' = if decide (k = k') then Some v else obj_get o k'.
Proof.
  induction o as [|[k0 v0] o IH]; simpl.
  - destruct (String.eqb_spec k k'); destruct (decide (k = k')); congruence.
  - destruct (String.eqb_spec k0 k) as [->|Hne]; simpl.
    + destruct (String.eqb_spec k k'); destruct (decide (k = k')); congruence.
    + destruct (String.eqb_spec k0 k') as [->|Hne'].
      * destruct (decide (k = k')); [congruence|reflexivity].
      * exact IH.
Qed.

Lemma obj_set_keys_present {V} (o : obj V) (k : string) (v : V) :
  k ∈ o.*1 -> (obj_set o k v).*1 = o.*1.
Proof.
  induction o as [|[k0 v0] o IH]; intros Hin; simpl.
  - inversion Hin.
  - destruct (String.eqb_spec k0 k) as [->|Hne]; [reflexivity|].
    simpl. f_equal. apply IH.
    apply elem_of_cons in Hin as [Heq|Hin]; [simpl in Heq; congruence|exact Hin].
Qed.

Lemma obj_get_Some_key {V} (o : obj V) (k : string) (v : V) :
  obj_get o k = Some v -> k ∈ o.*1.
Proof.
  induction o as [|[k0 v0] o IH]; simpl; [discriminate|].
  destruct (String.eqb_spec k0 k) as [->|Hne]; intros H.
  - left.
  - right. apply IH, H.
Qed.

Lemma obj_get_elem_of {V} (o : obj V) (k : string) (v : V) :
  NoDup o.*1 -> (k, v) ∈ o -> obj_get o k = Some v.
Proof.
  induction o as [|[k0 v0] o IH]; intros Hnd Hin; [inversion Hin|].
  simpl in Hnd. apply NoDup_cons in Hnd as [Hk0 Hnd].
  apply elem_of_cons in Hin as [[= -> ->]|Hin]; simpl.
  - rewrite String.eqb_refl. reflexivity.
  - destruct (String.eqb_spec k0 k) as [->|Hne].
    + exfalso. apply Hk0. apply (list_elem_of_fmap_2 fst) in Hin. exact Hin.
    + apply IH; assumption.
Qed.

Lemma ascii_toLowerCase_idemp (c : ascii) :
  ascii_toLowerCase (ascii_toLowerCase c) = ascii_toLowerCase c.
Proof. destruct c as [[] [] [] [] [] [] [] []]; reflexivity. Qed.

Lemma toLowerCase_idemp (s : string) : toLowerCase (toLowerCase s) = toLowerCase s.
Proof.
  induction s as [|c s IH]; simpl; [reflexivity|].
  rewrite ascii_toLowerCase_idemp, IH. reflexivity.
Qed.

Lemma obj_get_Some_elem {V} (o : obj V) (k : string) (v : V) :
  obj_get o k = Some v -> (k, v) ∈ o.
Proof.
  induction o as [|[k0 v0] o IH]; simpl; [discriminate|].
  destruct (String.eqb_spec k0 k) as [->|Hne]; intros H.
  - injection H as ->. left.
  - right. apply IH, H.
Qed.

Lemma obj_set_keys_elem {V} (o : obj V) (k k' : string) (v : V) :
  k ∈ (obj_set o k' v).*1 -> k = k' \/ k ∈ o.*1.
Proof.
  induction o as [|[k0 v0] o IH]; simpl.
  - intros Hin. apply list_elem_of_singleton in Hin. left. exact Hin.
  - destruct (String.eqb_spec k0 k') as [->|Hne]; simpl; intros Hin.
    + apply elem_of_cons in Hin as [->|Hin]; [left; reflexivity|right; right; exact Hin].
    + apply elem_of_cons in Hin as [->|Hin]; [right; left|].
      destruct (IH Hin) as [->|H]; [left; reflexivity|right; right; exact H].
Qed.

End JSFacts.

(** * Atomic segments of compound tasks *)

Module TaskFacts.
Section Segments.
Context {E : Type -> Type} {M : Type}.
Variable handle_sync : forall X, E X -> M -> option (M * X).

Lemma run_sync_bind {A B} (t : task E A) (f : A -> task E B) (m : M) :
  run_sync handle_sync m (bind t f) =
  match run_sync handle_sync m t with
  | (m', Ret a) => run_sync handle_sync m' (f a)
  | (m', t') => (m', bind t' f)
  end.
Proof.
  revert m. induction t as [a|e|X ev k IH]; intros m; simpl; try reflexivity.
  destruct (handle_sync X ev m) as [[m' x]|] eqn:Hev; simpl.
  - apply IH.
  - reflexivity.
Qed.

Lemma run_sync_try_catch {A} (t : task E A) (h : exn -> task E A) (m : M) :
  run_sync handle_sync m (try_catch t h) =
  match run_sync handle_sync m t with
  | (m', Throw e) => run_sync handle_sync m' (h e)
  | (m', t') => (m', try_catch t' h)
  end.
Proof.
  revert m. induction t as [a|e|X ev k IH]; intros m; simpl; try reflexivity.
  destruct (handle_sync X ev m) as [[m' x]|] eqn:Hev; simpl.
  - apply IH.
  - reflexivity.
Qed.
End Segments.

(** A weakest precondition over atomic segments.  Inside a segment the
    state [m] is threaded through the synchronous primitives while a ghost
    value [g] stays put; a task may suspend at [ev] only where
    [at_await ev m g] holds, and may be resumed with any answer in any
    state and ghost value that satisfy [resumed]. *)
Section Invariants.
Context {E : Type -> Type} {M G : Type}.
Variable handle_sync : forall X, E X -> M -> option (M * X).
Variable at_await : forall X, E X -> M -> G -> Prop.
Variable resumed : M -> G -> Prop.

Fixpoint wp {A} (t : task E A) (Q : A -> M -> G -> Prop)
    (Qe : exn -> M -> G -> Prop) (m : M) (g : G) : Prop :=
  match t with
  | Ret a => Q a m g
  | Throw e => Qe e m g
  | Vis ev k =>
      match handle_sync _ ev m with
      | Some (m', x) => wp (k x) Q Qe m' g
      | None =>
          at_await _ ev m g /\
          forall x m' g', resumed m' g' -> wp (k x) Q Qe m' g'
      end
  end.

Lemma wp_mono {A} (t : task E A) (Q Q' : A -> M -> G -> Prop)
    (Qe Qe' : exn -> M -> G -> Prop) m g :
  (forall a m g, Q a m g -> Q' a m g) ->
  (forall e m g, Qe e m g -> Qe' e m g) ->
  wp t Q Qe m g -> wp t Q' Qe' m g.
Proof.
  intros HQ HQe. revert m g.
  induction t as [a|e|X ev k IH]; intros m g; simpl; auto.
  destruct (handle_sync X ev m) as [[m' x]|]; [apply IH|].
  intros [Hinv Hk]. split; [exact Hinv|]. intros x m' g' H. apply IH, Hk, H.
Qed.

Lemma wp_bind {A B} (t : task E A) (f : A -> task E B) Q Qe m g :
  wp t (fun a m g => wp (f a) Q Qe m g) Qe m g -> wp (bind t f) Q Qe m g.
Proof.
  revert m g. induction t as [a|e|X ev k IH]; intros m g; simpl; auto.
  destruct (handle_sync X ev m) as [[m' x]|]; [apply IH|].
  intros [Hinv Hk]. split; [exact Hinv|]. intros x m' g' H. apply IH, Hk, H.
Qed.

Lemma wp_try_catch {A} (t : task E A) (h : exn -> task E A) Q Qe m g :
  wp t Q (fun e m g => wp (h e) Q Qe m g) m g -> wp (try_catch t h) Q Qe m g.
Proof.
  revert m g. induction t as [a|e|X ev k IH]; intros m g; simpl; auto.
  destruct (handle_sync X ev m) as [[m' x]|]; [apply IH|].
  intros [Hinv Hk]. split; [exact Hinv|]. intros x m' g' H. apply IH, Hk, H.
Qed.

(** What [wp] promises about one atomic segment. *)
Lemma wp_run_sync {A} (t : task E A) Q Qe m g :
  wp t Q Qe m g ->
  match run_sync handle_sync m t with
  | (m', Ret a) => Q a m' g
  | (m', Throw e) => Qe e m' g
  | (m', Vis ev k) =>
      at_await _ ev m' g /\
      forall x m'' g'', resumed m'' g'' -> wp (k x) Q Qe m'' g''
  end.
Proof.
  revert m g. induction t as [a|e|X ev k IH]; intros m g; simpl; auto.
  destruct (handle_sync X ev m) as [[m' x]|]; [apply IH|]. auto.
Qed.
End Invariants.
End TaskFacts.

(** * Properties of tokenDataService.js *)

Module TokenDataServiceFacts.
Import TokenDataService JSFacts.

(** The [forEach] over the answer reads the clock and nothing else: it
    ends in the same atomic segment, with a result or with a throw. *)
Lemma forEach_settles (data : list apiToken) (result : priceResult) (m : mem) :
  (exists r, run_sync m (forEach data result) = (m, Ret r)) \/
  (exists e, run_sync m (forEach data result) = (m, Throw e)).
Proof.
  revert result. induction data as [|token data IH]; intros result; simpl.
  - left. eexists. reflexivity.
  - unfold forEach_body.
    destruct (tok_id token) as [id_|]; simpl; [|right; eexists; reflexivity].
    destruct (split "_" id_ !! 1%nat) as [piece|]; simpl; [|right; eexists; reflexivity].
    destruct (tok_attributes token) as [a|]; simpl; [|right; eexists; reflexivity].
    apply IH.
Qed.

Definition bump (m : mem) : mem :=
  {| apiCallsThisMinute := apiCallsThisMinute m + 1;
     topTokens := topTokens m;
     lastFullUpdateTime := lastFullUpdateTime m;
     clock := clock m |}.

(** The continuation of [fetchPriceData] at its request. *)
Definition after_request : (exn + apiResponse)%type -> task priceResult :=
  fun answer =>
    try_catch
      (try_catch
         (bind (match answer with inl e => Throw e | inr x => Ret x end)
            (fun response =>
               match resp_data response with
               | Some data => forEach data {| tokens := [] |}
               | None => Ret {| tokens := [] |}
               end))
         (fun apiError => Ret {| tokens := [] |}))
      (fun error => Ret {| tokens := [] |}).

(** C10.  [fetchPriceData] never throws or rejects.  Its first atomic
    segment increments [apiCallsThisMinute] by one and only then sends the
    request.  Whatever the answer, the resumed call returns a result within
    one segment and leaves the module state as it finds it, so the counter
    moves exactly once per invocation; the result has no tokens when the
    request was rejected, when the answer carries no data, and when an
    entry of the answer makes the [forEach] throw. *)
Theorem fetchPriceData_never_throws_counts_once
    (addresses : list address) (m : mem) :
  run_sync m (fetchPriceData addresses)
    = (bump m, Vis (GeckoTerminalGet (toLowerCase <$> addresses)) after_request) /\
  apiCallsThisMinute (bump m) = apiCallsThisMinute m + 1 /\
  forall (answer : (exn + apiResponse)%type) (m' : mem),
    exists result : priceResult,
      run_sync m' (after_request answer) = (m', Ret result) /\
      (forall e, answer = inl e -> tokens result = []) /\
      (forall response, answer = inr response -> resp_data response = None ->
         tokens result = []) /\
      (forall response data e, answer = inr response -> resp_data response = Some data ->
         run_sync m' (forEach data {| tokens := [] |}) = (m', Throw e) ->
         tokens result = []).
Proof.
  split; [reflexivity|]. split; [reflexivity|].
  intros answer m'. unfold after_request.
  destruct answer as [e|response]; simpl.
  - eexists. split; [reflexivity|]. repeat split; intros; try discriminate; reflexivity.
  - rewrite !TaskFacts.run_sync_try_catch.
    destruct (resp_data response) as [data|] eqn:Hdata; simpl.
    + destruct (forEach_settles data {| tokens := [] |} m') as [[r Hr]|[e He]].
      * rewrite Hr. simpl. eexists. split; [reflexivity|].
        split; [intros e; discriminate|]. split; [intros r' [= <-]; congruence|].
        intros r' data' e [= <-] Hdata' Hthrow.
        rewrite Hdata in Hdata'. injection Hdata' as <-.
        rewrite Hr in Hthrow. discriminate Hthrow.
      * rewrite He. simpl. eexists. split; [reflexivity|].
        repeat split; intros; reflexivity.
    + eexists. split; [reflexivity|]. repeat split; intros; try discriminate; reflexivity.
Qed.

(** ** The call budget

    [budget_inv m n]: [n] requests were sent since the last reset, each was
    counted, and the counter is within the quota. *)

Definition QUOTA : Z := 30.

Definition budget_inv (m : mem) (n : Z) : Prop :=
  0 <= n /\ n <= apiCallsThisMinute m /\ apiCallsThisMinute m <= QUOTA.

(** At a suspension point the request just sent, if any, is accounted
    for. *)
Definition budget_at_await {X} (ev : event X) (m : mem) (n : Z) : Prop :=
  budget_inv m (n + request_sent ev).

#[local] Arguments budget_at_await {X} ev m n /.

Abbreviation wp := (TaskFacts.wp (@handle_sync) (@budget_at_await) budget_inv).

Ltac wp_step :=
  lazymatch goal with
  | |- TaskFacts.wp _ _ _ (mbind _ _) _ _ _ _ =>
      unfold mbind, task_bind; apply TaskFacts.wp_bind
  | |- TaskFacts.wp _ _ _ (bind _ _) _ _ _ _ => apply TaskFacts.wp_bind
  | |- TaskFacts.wp _ _ _ (try_catch _ _) _ _ _ _ => apply TaskFacts.wp_try_catch
  end.

Definition holds {A} : A -> mem -> Z -> Prop := fun _ m n => budget_inv m n.

(** Tasks that only read the clock end in their segment and leave the
    state alone. *)
Lemma wp_forEach data result Q Qe m n :
  (forall r, Q r m n) -> (forall e, Qe e m n) -> wp (forEach data result) Q Qe m n.
Proof.
  intros HQ HQe. revert result. induction data as [|token data IH]; intros result; simpl.
  - apply HQ.
  - unfold forEach_body.
    destruct (tok_id token) as [id_|]; simpl; [|apply HQe].
    destruct (split "_" id_ !! 1%nat) as [piece|]; simpl; [|apply HQe].
    destruct (tok_attributes token) as [a|]; simpl; [|apply HQe].
    apply IH.
Qed.

Lemma wp_build_operations priority entries Q Qe m n :
  (forall r, Q r m n) -> wp (build_operations priority entries) Q Qe m n.
Proof.
  intros HQ. revert Q HQ. induction entries as [|[a d] entries IH]; intros Q HQ; simpl.
  - apply HQ.
  - apply TaskFacts.wp_bind. apply IH. intros r. simpl. apply HQ.
Qed.

Lemma wp_store_prices priority priceData m n :
  budget_inv m n -> wp (store_prices priority priceData) holds holds m n.
Proof.
  intros Hinv. unfold store_prices. wp_step.
  apply wp_build_operations. intros ops.
  case_bool_decide as Hlen; simpl; [|exact Hinv].
  rewrite Z.add_0_r. split; [exact Hinv|].
  intros [e|[]] m' n' Hinv'; simpl; exact Hinv'.
Qed.

(** [fetchPriceData] may be entered whenever the counter is strictly
    below the quota; the request it sends is counted first. *)
Lemma wp_fetchPriceData addresses m n :
  0 <= n -> n <= apiCallsThisMinute m -> apiCallsThisMinute m < QUOTA ->
  wp (fetchPriceData addresses) holds (fun _ _ _ => False) m n.
Proof.
  intros H0 Hn Hlt. unfold fetchPriceData. simpl. split.
  - unfold budget_inv, QUOTA in *. simpl. lia.
  - intros [e|response] m' n' H; simpl; [exact H|].
    do 2 wp_step.
    destruct (resp_data response) as [data|]; simpl; [|exact H].
    apply wp_forEach; intros; exact H.
Qed.

Lemma wp_await_async {A} (t : task A) Q Qe m n :
  wp t (fun a m n => budget_inv m n /\ forall m' n', budget_inv m' n' -> Q a m' n')
       (fun e m n => budget_inv m n /\ forall m' n', budget_inv m' n' -> Qe e m' n') m n ->
  wp (await_async t) Q Qe m n.
Proof.
  intros H. unfold await_async. wp_step. wp_step.
  eapply TaskFacts.wp_mono; [| |exact H]; simpl.
  - intros a m1 n1 [Hinv HQ]. rewrite Z.add_0_r. split; [exact Hinv|].
    intros [] m' n' H'. simpl. apply HQ, H'.
  - intros e m1 n1 [Hinv HQ]. rewrite Z.add_0_r. split; [exact Hinv|].
    intros [] m' n' H'. simpl. apply HQ, H'.
Qed.

#[local] Arguments await_async : simpl never.
#[local] Arguments fetchPriceData : simpl never.
#[local] Arguments store_prices : simpl never.
#[local] Arguments updateTopTokensList : simpl never.
#[local] Arguments updateNonPriorityTokens : simpl never.

Lemma budget_inv_lt m n :
  budget_inv m n -> ~ apiCallsThisMinute m >= 30 ->
  0 <= n /\ n <= apiCallsThisMinute m /\ apiCallsThisMinute m < QUOTA.
Proof. unfold budget_inv, QUOTA. lia. Qed.

Lemma wp_updateTopTokensList m n :
  budget_inv m n -> wp updateTopTokensList holds holds m n.
Proof.
  intros Hinv. unfold updateTopTokensList. simpl.
  rewrite Z.add_0_r. split; [exact Hinv|].
  intros [e|l] m' n' Hinv'; simpl; exact Hinv'.
Qed.

(** One guarded batch: the body of the [try] in both passes. *)
Lemma wp_fetch_and_store priority addresses m n :
  budget_inv m n -> ~ apiCallsThisMinute m >= 30 ->
  wp (try_catch
        (priceData ← await_async (fetchPriceData addresses);
         store_prices priority priceData)
        (fun error => Ret ())) holds holds m n.
Proof.
  intros Hinv Hlt. destruct (budget_inv_lt m n Hinv Hlt) as (H0 & Hn & Hq).
  wp_step. wp_step. apply wp_await_async.
  eapply TaskFacts.wp_mono; [| |apply (wp_fetchPriceData addresses m n H0 Hn Hq)]; simpl.
  - intros priceData m1 n1 H1. split; [exact H1|].
    intros m' n' H'. eapply TaskFacts.wp_mono; [| |apply wp_store_prices, H']; simpl; auto.
  - intros e m1 n1 [].
Qed.

Lemma wp_updatePriorityTokens m n :
  budget_inv m n -> wp updatePriorityTokens holds holds m n.
Proof.
  intros Hinv. unfold updatePriorityTokens. cbn.
  case_bool_decide as Hskip; cbn; [exact Hinv|].
  case_bool_decide as Hempty; cbn.
  - apply wp_await_async.
    eapply TaskFacts.wp_mono; [| |apply wp_updateTopTokensList, Hinv]; cbn; auto.
  - apply wp_fetch_and_store; assumption.
Qed.

Lemma wp_batch_loop fuel tokensToUpdate i m n :
  budget_inv m n -> wp (batch_loop fuel tokensToUpdate i) holds holds m n.
Proof.
  revert i m n. induction fuel as [|fuel IH]; intros i m n Hinv; cbn; [exact Hinv|].
  case_bool_decide as Hi; cbn; [|exact Hinv].
  case_bool_decide as Hskip; cbn; [exact Hinv|].
  apply TaskFacts.wp_bind.
  eapply TaskFacts.wp_mono; [| |apply wp_fetch_and_store; [exact Hinv|lia]]; cbn.
  - intros [] m1 n1 H1.
    case_bool_decide as Hlast; cbn.
    + rewrite Z.add_0_r. split; [exact H1|]. intros [] m' n' H'. apply IH, H'.
    + apply IH, H1.
  - intros e m1 n1 H1. exact H1.
Qed.

Lemma wp_updateNonPriorityTokens m n :
  budget_inv m n -> wp updateNonPriorityTokens holds holds m n.
Proof.
  intros Hinv. unfold updateNonPriorityTokens. cbn.
  case_bool_decide as Hskip; cbn; [exact Hinv|].
  rewrite Z.add_0_r. split; [exact Hinv|].
  intros [e|allTokens] m1 n1 H1; cbn; [exact H1|].
  case_bool_decide as Hempty; cbn; [exact H1|].
  rewrite Z.add_0_r. split; [exact H1|].
  intros [e|oldestFirstTokens] m2 n2 H2; cbn; [exact H2|].
  apply TaskFacts.wp_try_catch.
  eapply TaskFacts.wp_mono; [| |apply wp_batch_loop, H2]; cbn; auto.
Qed.

Lemma wp_fullTokenUpdate m n :
  budget_inv m n -> wp fullTokenUpdate holds holds m n.
Proof.
  intros Hinv. unfold fullTokenUpdate. wp_step. wp_step.
  apply wp_await_async.
  eapply TaskFacts.wp_mono; [| |apply wp_updateTopTokensList, Hinv]; cbn.
  - intros [] m1 n1 H1. split; [exact H1|]. intros m' n' H'.
    apply wp_await_async.
    eapply TaskFacts.wp_mono; [| |apply wp_updateNonPriorityTokens, H']; cbn; auto.
  - intros e m1 n1 H1. split; [exact H1|]. auto.
Qed.

Lemma wp_job j m n : budget_inv m n -> wp (job_body j) holds holds m n.
Proof.
  destruct j; unfold job_body.
  - apply wp_updatePriorityTokens.
  - apply wp_updateNonPriorityTokens.
  - apply wp_fullTokenUpdate.
Qed.

(** ** The invariant of the event loop *)

Definition resumable (t : task unit) : Prop :=
  match t with
  | Vis ev k => forall x m n, budget_inv m n -> wp (k x) holds holds m n
  | _ => True
  end.

Definition sys_inv (s : sys) : Prop :=
  budget_inv (sys_mem s) (issued s) /\ Forall resumable (pending s).

Lemma advance_keeps_budget s others t :
  wp t holds holds (sys_mem s) (issued s) ->
  Forall resumable others ->
  sys_inv (advance s others t).
Proof.
  intros Hwp Hothers. unfold advance.
  pose proof (TaskFacts.wp_run_sync _ _ _ t holds holds (sys_mem s) (issued s) Hwp) as Hrun.
  destruct (run_sync (sys_mem s) t) as [m' t'].
  destruct t' as [[]|e|X ev k]; simpl.
  - split; simpl; [rewrite Z.add_0_r; exact Hrun|exact Hothers].
  - split; simpl; [rewrite Z.add_0_r; exact Hrun|exact Hothers].
  - destruct Hrun as [Hinv Hk]. split; simpl; [exact Hinv|].
    constructor; [exact Hk|exact Hothers].
Qed.

Lemma step_keeps_budget s s' : sys_inv s -> step s s' -> sys_inv s'.
Proof.
  intros [Hinv Hpend] Hstep. destruct Hstep as [s j|s i X ev k x Hi|s|s now].
  - apply advance_keeps_budget; [apply wp_job, Hinv|exact Hpend].
  - apply advance_keeps_budget.
    + assert (resumable (Vis ev k)) as Hres.
      { rewrite Forall_lookup in Hpend. exact (Hpend i _ Hi). }
      apply Hres, Hinv.
    + apply Forall_delete, Hpend.
  - split; simpl; [|exact Hpend]. unfold budget_inv, QUOTA; simpl. lia.
  - split; simpl; [|exact Hpend]. exact Hinv.
Qed.

Lemma reachable_within_budget s : reachable s -> sys_inv s.
Proof.
  induction 1 as [now|s s' _ IH Hstep].
  - split; simpl; [|constructor]. unfold budget_inv, QUOTA; simpl. lia.
  - exact (step_keeps_budget s s' IH Hstep).
Qed.

Lemma batch_loop_break fuel tokensToUpdate i m :
  apiCallsThisMinute m >= 28 ->
  run_sync m (batch_loop fuel tokensToUpdate i) = (m, Ret ()).
Proof.
  intros Hge. destruct fuel as [|fuel]; cbn; [reflexivity|].
  case_bool_decide; cbn; [|reflexivity].
  case_bool_decide; cbn; [reflexivity|contradiction].
Qed.


(** A reachable state: the priority job fired once right after start-up
    and is waiting for the ranking query. *)
Definition after_first_priority_tick : sys :=
  advance (start 0) (pending (start 0)) (job_body PriorityJob).


(** ** Rotation and tokens without a price record *)

Lemma exec_bind {A B} (t : task A) (f : A -> task B) (w : world) :
  exec w (bind t f) =
  match exec w t with
  | (w', inr a) => exec w' (f a)
  | (w', inl e) => (w', inl e)
  end.
Proof.
  revert w. induction t as [a|e|X ev k IH]; intros w; simpl.
  - destruct (exec w (f a)) as [w' r]. reflexivity.
  - reflexivity.
  - destruct (respond ev w) as [w' x]. apply IH.
Qed.

Lemma exec_try_catch {A} (t : task A) (h : exn -> task A) (w : world) :
  exec w (try_catch t h) =
  match exec w t with
  | (w', inl e) => exec w' (h e)
  | (w', inr a) => (w', inr a)
  end.
Proof.
  revert w. induction t as [a|e|X ev k IH]; intros w; simpl.
  - reflexivity.
  - destruct (exec w (h e)) as [w' r]. reflexivity.
  - destruct (respond ev w) as [w' x]. apply IH.
Qed.

(** Two tracked tokens. *)
Definition tokA : address := "0xaaaaaaaaaaaaaaaaaaaaaaaaaaaaaaaaaaaaaaaa".
Definition tokB : address := "0xbbbbbbbbbbbbbbbbbbbbbbbbbbbbbbbbbbbbbbbb".

(** The price API answers about tokens of the request only. *)
Definition answers_what_was_asked (api : list address -> (exn + apiResponse)%type) : Prop :=
  forall request response data token id_ piece,
    api request = inr response ->
    resp_data response = Some data ->
    token ∈ data ->
    tok_id token = Some id_ ->
    split "_" id_ !! 1%nat = Some piece ->
    toLowerCase piece ∈ request.

Section Starvation.
Variable api : list address -> (exn + apiResponse)%type.
Hypothesis api_ok : answers_what_was_asked api.

(** The situation that lasts: no priority list, both tokens tracked, a
    price record for the first token only, and no request that mentions
    another token. *)
Definition only_first_priced (w : world) : Prop :=
  topTokens (w_mem w) = [] /\
  w_tokens w = [tokA; tokB] /\
  dom (w_prices w) = {[tokA]} /\
  Forall (Forall (fun a => a = tokA)) (w_requests w) /\
  w_api w = api.

(** [t] keeps the situation, and its result, if any, satisfies [Q]. *)
Definition keeps {A} (t : task A) (Q : A -> Prop) : Prop :=
  forall w, only_first_priced w ->
    only_first_priced (exec w t).1 /\
    match (exec w t).2 with
    | inr a => Q a
    | inl _ => True
    end.

Definition event_keeps {X} (ev : event X) (Q : X -> Prop) : Prop :=
  forall w, only_first_priced w ->
    only_first_priced (respond ev w).1 /\ Q (respond ev w).2.

Lemma keeps_ret {A} (a : A) (Q : A -> Prop) : Q a -> keeps (Ret a) Q.
Proof. intros HQ w Hw. simpl. auto. Qed.

Lemma keeps_throw {A} (e : exn) (Q : A -> Prop) : keeps (Throw e) Q.
Proof. intros w Hw. simpl. auto. Qed.

Lemma keeps_bind {A B} (t : task A) (f : A -> task B) (Q : A -> Prop) (Q' : B -> Prop) :
  keeps t Q -> (forall a, Q a -> keeps (f a) Q') -> keeps (bind t f) Q'.
Proof.
  intros Ht Hf w Hw. rewrite exec_bind.
  destruct (Ht w Hw) as [Hw' HQ]. destruct (exec w t) as [w' [e|a]]; simpl in *.
  - auto.
  - apply (Hf a HQ w' Hw').
Qed.

Lemma keeps_try_catch {A} (t : task A) (h : exn -> task A) (Q : A -> Prop) :
  keeps t Q -> (forall e, keeps (h e) Q) -> keeps (try_catch t h) Q.
Proof.
  intros Ht Hh w Hw. rewrite exec_try_catch.
  destruct (Ht w Hw) as [Hw' HQ]. destruct (exec w t) as [w' [e|a]]; simpl in *.
  - apply (Hh e w' Hw').
  - auto.
Qed.

Lemma keeps_weaken {A} (t : task A) (Q Q' : A -> Prop) :
  (forall a, Q a -> Q' a) -> keeps t Q -> keeps t Q'.
Proof.
  intros HQ Ht w Hw. destruct (Ht w Hw) as [Hw' H]. split; [exact Hw'|].
  destruct ((exec w t).2); auto.
Qed.

Lemma keeps_vis {A X} (ev : event X) (k : X -> task A) (R : X -> Prop) (Q : A -> Prop) :
  event_keeps ev R -> (forall x, R x -> keeps (k x) Q) -> keeps (Vis ev k) Q.
Proof.
  intros Hev Hk w Hw. simpl. destruct (Hev w Hw) as [Hw' HR].
  destruct (respond ev w) as [w' x]. simpl in *. apply (Hk x HR w' Hw').
Qed.

Lemma keeps_call {X} (ev : event X) (R : X -> Prop) : event_keeps ev R -> keeps (call ev) R.
Proof. intros Hev. apply (keeps_vis ev Ret R R Hev). intros x Hx. apply keeps_ret, Hx. Qed.

Lemma keeps_await {X} (ev : event (exn + X)%type) (R : X -> Prop) :
  event_keeps ev (fun r => match r with inr x => R x | inl _ => True end) ->
  keeps (await ev) R.
Proof.
  intros Hev. eapply keeps_vis; [exact Hev|].
  intros [e|x] Hx; [apply keeps_throw|apply keeps_ret, Hx].
Qed.

(** The primitives the rotation pass uses. *)
Lemma ev_GetApiCallsThisMinute : event_keeps GetApiCallsThisMinute (fun _ => True).
Proof. intros w Hw. split; [exact Hw|exact I]. Qed.

Lemma ev_SetApiCallsThisMinute n : event_keeps (SetApiCallsThisMinute n) (fun _ => True).
Proof. intros w Hw. split; [exact Hw|exact I]. Qed.

Lemma ev_GetTopTokens : event_keeps GetTopTokens (fun l => l = []).
Proof. intros w Hw. split; [exact Hw|apply Hw]. Qed.

Lemma ev_DateNow : event_keeps DateNow (fun _ => True).
Proof. intros w Hw. split; [exact Hw|exact I]. Qed.

Lemma ev_SetTimeout ms : event_keeps (SetTimeout ms) (fun _ => True).
Proof. intros w Hw. split; [exact Hw|exact I]. Qed.

Lemma ev_Microtask : event_keeps Microtask (fun _ => True).
Proof. intros w Hw. split; [exact Hw|exact I]. Qed.

Lemma ev_TokenFindNotIn excluded :
  event_keeps (TokenFindNotIn excluded) (fun _ => True).
Proof. intros w Hw. split; [exact Hw|exact I]. Qed.

Lemma ev_GeckoTerminalGet addressesParam :
  Forall (fun a => a = tokA) addressesParam ->
  event_keeps (GeckoTerminalGet addressesParam)
    (fun r => match r with
              | inr response => api addressesParam = inr response
              | inl _ => True
              end).
Proof.
  intros Hall w (Htop & Htok & Hdom & Hreq & Hapi). split.
  - repeat split; try assumption. simpl. constructor; assumption.
  - simpl. rewrite Hapi. destruct (api addressesParam); auto.
Qed.

Lemma dom_apply_updates operations prices :
  Forall (fun op => filter_contractAddress op = tokA) operations ->
  dom prices = {[tokA]} ->
  dom (foldl apply_update prices operations) = {[tokA]}.
Proof.
  intros Hall. revert prices. induction Hall as [|op ops Hop _ IH]; intros prices Hdom; simpl.
  - exact Hdom.
  - apply IH. unfold apply_update. rewrite dom_insert_L, Hop, Hdom. set_solver.
Qed.

Lemma ev_TokenPriceBulkWrite operations :
  Forall (fun op => filter_contractAddress op = tokA) operations ->
  event_keeps (TokenPriceBulkWrite operations) (fun _ => True).
Proof.
  intros Hall w (Htop & Htok & Hdom & Hreq & Hapi). split; [|exact I].
  repeat split; try assumption. simpl. apply dom_apply_updates; assumption.
Qed.

Lemma find_oldest_only_first prices limit :
  dom prices = {[tokA]} ->
  Forall (fun a => a = tokA) (find_oldest prices [] limit) /\
  (0 < limit -> find_oldest prices [] limit <> []).
Proof.
  intros Hdom. unfold find_oldest.
  set (found := filter (fun kv => kv.1 ∉ []) (map_to_list prices)).
  set (sorted := merge_sort older found).
  assert (sorted ≡ₚ found) as Hperm by apply merge_sort_Permutation.
  assert (forall kv, kv ∈ found -> kv.1 = tokA) as Hkeys.
  { intros [k v] Hin. apply list_elem_of_filter in Hin as [_ Hin].
    apply elem_of_map_to_list in Hin.
    assert (k ∈ dom prices) as Hk by (apply elem_of_dom; eauto).
    rewrite Hdom in Hk. simpl. set_solver. }
  split.
  - apply Forall_forall. intros a Ha.
    apply list_elem_of_fmap in Ha as ([k v] & -> & Hin).
    apply Hkeys. rewrite <- Hperm.
    unfold mongo_limit in Hin. case_bool_decide; [exact Hin|].
    apply (subseteq_take _ _ _ Hin).
  - intros Hpos Hnil. apply fmap_nil_inv in Hnil.
    assert (exists v, prices !! tokA = Some v) as [v Hv].
    { apply elem_of_dom. rewrite Hdom. set_solver. }
    assert ((tokA, v) ∈ sorted) as Hin.
    { rewrite Hperm. apply list_elem_of_filter. split; [simpl; set_solver|].
      apply elem_of_map_to_list, Hv. }
    unfold mongo_limit in Hnil. rewrite bool_decide_eq_false_2 in Hnil by lia.
    destruct sorted as [|x sorted']; [inversion Hin|].
    destruct (Z.to_nat (Z.abs limit)) as [|n] eqn:Hn; [lia|]. discriminate Hnil.
Qed.

Lemma keeps_nonnull {A} (x : option A) : keeps (nonnull x) (fun a => x = Some a).
Proof. destruct x as [a|]; [apply keeps_ret; reflexivity|apply keeps_throw]. Qed.

(** The address an entry of the answer is filed under. *)
Definition filed_under (token : apiToken) (k : address) : Prop :=
  exists id_ piece,
    tok_id token = Some id_ /\ split "_" id_ !! 1%nat = Some piece /\ k = toLowerCase piece.

Lemma keeps_forEach_body result token :
  keeps (forEach_body result token)
    (fun res => forall k, k ∈ (tokens res).*1 ->
                  k ∈ (tokens result).*1 \/ filed_under token k).
Proof.
  unfold forEach_body, mbind, task_bind.
  eapply keeps_bind; [apply keeps_nonnull|]. intros id_ Hid. simpl in Hid.
  eapply keeps_bind; [apply keeps_nonnull|]. intros piece Hpiece. simpl in Hpiece.
  eapply keeps_bind; [apply keeps_nonnull|]. intros a _.
  eapply keeps_bind; [apply keeps_call, ev_DateNow|]. intros now _.
  apply keeps_ret. simpl. intros k Hk.
  apply obj_set_keys_elem in Hk as [->|Hk]; [right|left; exact Hk].
  exists id_, piece. auto.
Qed.

Lemma keeps_forEach data result :
  keeps (forEach data result)
    (fun res => forall k, k ∈ (tokens res).*1 ->
                  k ∈ (tokens result).*1 \/ exists token, token ∈ data /\ filed_under token k).
Proof.
  revert result. induction data as [|token data IH]; intros result; cbn [forEach].
  - apply keeps_ret. auto.
  - unfold mbind, task_bind.
    eapply keeps_bind; [apply keeps_forEach_body|]. intros result' Hbody. simpl in Hbody.
    eapply keeps_weaken; [|apply IH]. simpl. intros res Hres k Hk.
    destruct (Hres k Hk) as [Hin|(token' & Hin & Hf)].
    + destruct (Hbody k Hin) as [Hin'|Hf]; [left; exact Hin'|].
      right. exists token. split; [left|exact Hf].
    + right. exists token'. split; [right; exact Hin|exact Hf].
Qed.

Lemma keeps_fetchPriceData addresses :
  Forall (fun a => a = tokA) addresses ->
  keeps (fetchPriceData addresses) (fun res => Forall (fun a => a = tokA) (tokens res).*1).
Proof.
  intros Hall.
  assert (Forall (fun a => a = tokA) (toLowerCase <$> addresses)) as Hlow.
  { apply Forall_fmap. eapply Forall_impl; [exact Hall|]. intros a ->. reflexivity. }
  unfold fetchPriceData, mbind, task_bind.
  apply keeps_try_catch; [|intros e; apply keeps_ret; constructor].
  eapply keeps_bind; [apply keeps_call, ev_GetApiCallsThisMinute|]. intros n _.
  eapply keeps_bind; [apply keeps_call, ev_SetApiCallsThisMinute|]. intros _ _.
  apply keeps_try_catch; [|intros e; apply keeps_ret; constructor].
  eapply keeps_bind; [apply keeps_await, ev_GeckoTerminalGet, Hlow|].
  intros response Hresponse. simpl in Hresponse.
  destruct (resp_data response) as [data|] eqn:Hdata; [|apply keeps_ret; constructor].
  eapply keeps_weaken; [|apply keeps_forEach]. simpl. intros res Hres.
  apply Forall_forall. intros k Hk.
  destruct (Hres k Hk) as [Hin|(token & Hin & id_ & piece & Hid & Hpiece & ->)];
    [inversion Hin|].
  pose proof (api_ok _ _ _ _ _ _ Hresponse Hdata Hin Hid Hpiece) as Hreq.
  rewrite Forall_forall in Hlow. apply Hlow, Hreq.
Qed.

Lemma keeps_build_operations priority entries :
  keeps (build_operations priority entries)
    (fun operations => filter_contractAddress <$> operations = entries.*1).
Proof.
  induction entries as [|[a d] entries IH]; cbn [build_operations].
  - apply keeps_ret. reflexivity.
  - unfold mbind, task_bind.
    eapply keeps_bind; [apply keeps_call, ev_DateNow|]. intros now _.
    eapply keeps_bind; [apply IH|]. intros operations Hops. simpl in Hops.
    apply keeps_ret. rewrite !fmap_cons, Hops. reflexivity.
Qed.

Lemma keeps_store_prices priority priceData :
  Forall (fun a => a = tokA) (tokens priceData).*1 ->
  keeps (store_prices priority priceData) (fun _ => True).
Proof.
  intros Hall. unfold store_prices, mbind, task_bind.
  eapply keeps_bind; [apply keeps_build_operations|]. intros operations Hops. simpl in Hops.
  case_bool_decide; [|apply keeps_ret; exact I].
  eapply keeps_bind; [|intros; apply keeps_ret; exact I].
  apply (keeps_await (TokenPriceBulkWrite operations) (fun _ => True)).
  intros w Hw. destruct (ev_TokenPriceBulkWrite operations) with (w := w) as [Hw' _];
    [|exact Hw|split; [exact Hw'|exact I]].
  rewrite <- Hops in Hall. apply Forall_fmap in Hall. exact Hall.
Qed.

Lemma keeps_await_async {A} (t : task A) (Q : A -> Prop) :
  keeps t Q -> keeps (await_async t) Q.
Proof.
  intros Ht. unfold await_async, mbind, task_bind.
  apply keeps_try_catch.
  - eapply keeps_bind; [exact Ht|]. intros a Ha.
    eapply keeps_bind; [apply keeps_call, ev_Microtask|]. intros _ _.
    apply keeps_ret, Ha.
  - intros e. eapply keeps_bind; [apply keeps_call, ev_Microtask|]. intros _ _.
    apply keeps_throw.
Qed.

Lemma Forall_slice {A} (P : A -> Prop) (l : list A) (i j : Z) :
  Forall P l -> Forall P (slice l i j).
Proof. intros H. unfold slice. apply Forall_take, Forall_drop, H. Qed.

Lemma keeps_batch_loop fuel tokensToUpdate i :
  Forall (fun a => a = tokA) tokensToUpdate ->
  keeps (batch_loop fuel tokensToUpdate i) (fun _ => True).
Proof.
  intros Hall. revert i. induction fuel as [|fuel IH]; intros i; cbn [batch_loop].
  - apply keeps_ret. exact I.
  - case_bool_decide; [|apply keeps_ret; exact I].
    unfold mbind, task_bind.
    eapply keeps_bind; [apply keeps_call, ev_GetApiCallsThisMinute|]. intros n _.
    case_bool_decide; [apply keeps_ret; exact I|].
    eapply keeps_bind with (Q := fun _ => True).
    + apply keeps_try_catch; [|intros e; apply keeps_ret; exact I].
      eapply keeps_bind.
      * apply keeps_await_async, keeps_fetchPriceData, Forall_slice, Hall.
      * intros priceData Hdata. apply keeps_store_prices, Hdata.
    + intros _ _. eapply keeps_bind with (Q := fun _ => True).
      * case_bool_decide; [apply keeps_call, ev_SetTimeout|apply keeps_ret; exact I].
      * intros _ _. apply IH.
Qed.

Lemma only_first_priced_rotation w :
  only_first_priced w -> only_first_priced (exec w updateNonPriorityTokens).1.
Proof.
  intros Hw. destruct w as [m tokens_ prices api' requests_].
  pose proof Hw as (Htop & Htok & Hdom & Hreq & Hapi). simpl in Htop, Htok, Hdom, Hreq, Hapi.
  subst tokens_.
  unfold updateNonPriorityTokens. cbn.
  case_bool_decide as Hskip; [exact Hw|].
  cbn. rewrite Htop. cbn.
  rewrite (bool_decide_eq_false_2 (2%nat = 0%nat)) by discriminate.
  cbn. rewrite Htop. cbn.
  destruct (find_oldest_only_first prices ((28 - apiCallsThisMinute m) * BATCH_SIZE) Hdom)
    as [Hall Hne].
  assert (0 < (28 - apiCallsThisMinute m) * BATCH_SIZE) as Hpos
    by (unfold BATCH_SIZE; lia).
  specialize (Hne Hpos).
  remember (find_oldest prices [] ((28 - apiCallsThisMinute m) * BATCH_SIZE))
    as oldestFirstTokens eqn:Hold.
  rewrite (bool_decide_eq_true_2 (0 < length oldestFirstTokens)%nat)
    by (destruct oldestFirstTokens; [congruence|simpl; lia]).
  match goal with
  | |- only_first_priced (exec ?w' ?t).1 =>
      assert (keeps t (fun _ => True)) as Hkeeps;
      [|apply (Hkeeps w'); repeat split; assumption]
  end.
  apply keeps_try_catch; [|intros e; apply keeps_ret; exact I].
  apply keeps_batch_loop, Hall.
Qed.

Lemma only_first_priced_act w a : only_first_priced w -> only_first_priced (act w a).
Proof.
  intros Hw. destruct a; simpl.
  - apply only_first_priced_rotation, Hw.
  - exact Hw.
Qed.

Lemma only_first_priced_acts actions w :
  only_first_priced w -> only_first_priced (foldl act w actions).
Proof.
  revert w. induction actions as [|a actions IH]; intros w Hw; simpl; [exact Hw|].
  apply IH, only_first_priced_act, Hw.
Qed.

End Starvation.

Definition some_data : tokenData :=
  {| price_usd := 1 # 2; fdv_usd := 1000; volume_usd := 5; market_cap := 1000;
     last_updated := 0; name := Some "A"; symbol := Some "A";
     total_reserve_in_usd := 0; total_supply := 2000 |}.

(** Both tokens are tracked, the first has a price record, the second has
    none, and no priority list has been built. *)
Definition one_priced (api : list address -> (exn + apiResponse)%type) : world :=
  {| w_mem := {| apiCallsThisMinute := 0; topTokens := [];
                 lastFullUpdateTime := 0; clock := 0 |};
     w_tokens := [tokA; tokB];
     w_prices := {[ tokA := {| doc_data := some_data; doc_priority := false;
                               doc_last_updated := 0 |} ]};
     w_api := api;
     w_requests := [] |}.


(** A price API that has data on the first token only. *)
Definition api_knows_first (request : list address) : (exn + apiResponse)%type :=
  inr {| resp_data := Some
           (if bool_decide (tokA ∈ request)
            then [ {| tok_id := Some ("base_" +:+ tokA);
                      tok_attributes := Some
                        {| attr_price_usd := Some (1 # 2); attr_fdv_usd := Some 1000%Q;
                           attr_volume_usd := Some (Some 5%Q); attr_name := Some "A";
                           attr_symbol := Some "A"; attr_total_reserve_in_usd := None;
                           attr_total_supply := Some 2000%Q |} |} ]
            else []) |}.

Lemma api_knows_first_ok : answers_what_was_asked api_knows_first.
Proof.
  intros request response data token id_ piece [= <-] [= <-] Hin Hid Hpiece.
  case_bool_decide as Hreq; [|inversion Hin].
  apply list_elem_of_singleton in Hin. subst token.
  injection Hid as <-. injection Hpiece as <-. exact Hreq.
Qed.


(** How that state comes about: on an empty [TokenPrice] collection the
    first pass falls back to the token list and asks about both tokens;
    the API has data on the first only; every later pass asks about the
    first only. *)
Example rotation_from_empty_collection :
  let w0 := {| w_mem := w_mem (one_priced api_knows_first);
               w_tokens := [tokA; tokB]; w_prices := ∅;
               w_api := api_knows_first; w_requests := [] |} in
  let w := foldl act w0 [RotationPass; RotationPass; MinuteTimer; RotationPass] in
  w_requests w = [[tokA]; [tokA]; [tokA; tokB]] /\
  (map_to_list (w_prices w)).*1 = [tokA].
Proof. vm_compute. split; reflexivity. Qed.

End TokenDataServiceFacts.

(** * Properties of the discovery and enrichment service *)

Module PoolServiceFacts.
Import PoolService JSFacts.

(** ** The in-flight flag *)

(** The cron callback fires while no run is active, and the start-up timer
    fires while that run is waiting for its first answer. *)
Definition cron_then_startup : sys :=
  let s1 := advance (start 0) (startup_due (start 0)) (pending (start 0)) cron_callback in
  advance s1 false (pending s1) startup_callback.

(** C9 (evaluated on the code).  After the cron callback started a run and
    set [isUpdating], the start-up timer starts a second run without
    looking at the flag: the state is reachable and two invocations of
    [updateTokenData] are in progress in it. *)
Theorem startup_run_overlaps_cron_run :
  reachable cron_then_startup /\
  isUpdating (sys_mem cron_then_startup) = true /\
  running (sys_mem cron_then_startup) = 2.
Proof.
  split; [|split; reflexivity].
  unfold cron_then_startup.
  eapply reachable_step.
  - eapply reachable_step; [apply (reachable_start 0)|apply step_cron].
  - apply step_startup. reflexivity.
Qed.

(** ** The reference-asset price oracle *)

Lemma truthy_pos (p : R) : (0 < p)%R -> truthy p = true.
Proof. intros Hp. unfold truthy. destruct (Req_dec_T p 0); [lra|reflexivity]. Qed.

Lemma Math_pow_pos (base : R) (n : Z) : (0 < base)%R -> (0 < Math_pow base n)%R.
Proof. apply powerRZ_lt. Qed.

(** The price computed from any tick against the calibration point is
    positive. *)
Lemma calibrated_price_pos (tick_ : Z) :
  (0 < Math_pow 1.0001 tick_ * (referencePrice / Math_pow 1.0001 referenceTick))%R.
Proof.
  apply Rmult_lt_0_compat; [apply Math_pow_pos; lra|].
  apply Rdiv_lt_0_compat; [unfold referencePrice; lra|apply Math_pow_pos; lra].
Qed.

(** Every cached price is positive: [cachedWethPrice] is [null] until a
    read succeeds and only [fetchWethPrice] assigns it. *)
Definition cache_positive (m : mem) : Prop :=
  match cachedWethPrice m with
  | Some p => (0 < p)%R
  | None => True
  end.

Definition last_cached_or_fallback (m : mem) : R :=
  match cachedWethPrice m with
  | Some p => p
  | None => 1911%R
  end.

(** The continuation of [fetchWethPrice] at its pool read. *)
Definition after_pool_read (now : Z) : (exn + (address * address * Z))%type -> task R :=
  fun answer =>
    try_catch
      (bind (match answer with inl e => Throw e | inr x => Ret x end)
         (fun '(token0_, token1_, slot0_tick) =>
            let price :=
              (Math_pow 1.0001 slot0_tick
               * (referencePrice / Math_pow 1.0001 referenceTick))%R in
            _ ← call (SetCachedWethPrice price);
            _ ← call (SetWethPriceLastUpdated now);
            Ret price))
      (fun error =>
         cachedWethPrice ← call GetCachedWethPrice;
         Ret (cached_or_fallback cachedWethPrice)).

(** The first atomic segment: a fresh cache answers at once, otherwise the
    call waits for the pool read. *)
Lemma fetchWethPrice_first_segment (m : mem) :
  (exists p, cachedWethPrice m = Some p /\ run_sync m fetchWethPrice = (m, Ret p)) \/
  run_sync m fetchWethPrice = (m, Vis ReadWethUsdcPool (after_pool_read (clock m))).
Proof.
  unfold fetchWethPrice. cbn.
  destruct (cachedWethPrice m) as [cached|] eqn:Hc; cbn.
  - destruct (truthy cached && bool_decide (clock m - wethPriceLastUpdated m < WETH_PRICE_CACHE_TTL))%bool.
    + left. exists cached. split; reflexivity.
    + right. reflexivity.
  - right. reflexivity.
Qed.

Lemma after_pool_read_failure now e m :
  cache_positive m ->
  run_sync m (after_pool_read now (inl e)) = (m, Ret (last_cached_or_fallback m)).
Proof.
  intros Hpos. unfold after_pool_read. cbn.
  unfold cached_or_fallback, num_or, last_cached_or_fallback, cache_positive in *.
  destruct (cachedWethPrice m) as [p|]; [|reflexivity].
  rewrite (truthy_pos p Hpos). reflexivity.
Qed.

Lemma after_pool_read_settles now answer m :
  cache_positive m ->
  exists p m', run_sync m (after_pool_read now answer) = (m', Ret p) /\ cache_positive m'.
Proof.
  intros Hpos. destruct answer as [e|[[token0_ token1_] slot0_tick]].
  - exists (last_cached_or_fallback m), m. split; [|exact Hpos].
    apply after_pool_read_failure, Hpos.
  - eexists _, _. split; [reflexivity|].
    unfold cache_positive. cbn. apply calibrated_price_pos.
Qed.

(** *** The cache stays positive in every reachable state *)

Definition cache_at_await {X} (ev : event X) (m : mem) (g : unit) : Prop :=
  cache_positive m.
Definition cache_resumed (m : mem) (g : unit) : Prop := cache_positive m.

#[local] Arguments cache_at_await {X} ev m g /.
#[local] Arguments cache_resumed m g /.

Abbreviation wpc := (TaskFacts.wp (@handle_sync) (@cache_at_await) cache_resumed).

Definition positive {A} : A -> mem -> unit -> Prop := fun _ m _ => cache_positive m.

#[local] Arguments positive {A} _ m _ /.

Ltac wpc_step :=
  lazymatch goal with
  | |- TaskFacts.wp _ _ _ (mbind _ _) _ _ _ _ =>
      unfold mbind, task_bind; apply TaskFacts.wp_bind
  | |- TaskFacts.wp _ _ _ (bind _ _) _ _ _ _ => apply TaskFacts.wp_bind
  | |- TaskFacts.wp _ _ _ (try_catch _ _) _ _ _ _ => apply TaskFacts.wp_try_catch
  end.

(** Use a lemma whose postconditions are [positive] where the goal asks
    for continuations. *)
Ltac wpc_use lem :=
  eapply TaskFacts.wp_mono; [| |apply lem]; cbn.

Lemma wpc_fetchWethPrice m g :
  cache_positive m -> wpc fetchWethPrice positive positive m g.
Proof.
  intros Hpos.
  assert (forall now, wpc (try_catch (refreshWethPrice now)
                             (fun error =>
                                cachedWethPrice ← call GetCachedWethPrice;
                                Ret (cached_or_fallback cachedWethPrice)))
                        positive positive m g) as Hrefresh.
  { intros now. cbn. split; [exact Hpos|].
    intros [e|[[token0_ token1_] slot0_tick]] m' g' Hpos'; cbn; [exact Hpos'|].
    apply calibrated_price_pos. }
  unfold fetchWethPrice. cbn.
  destruct (cachedWethPrice m) as [cached|] eqn:Hc; [|apply Hrefresh].
  destruct (truthy cached && bool_decide (clock m - wethPriceLastUpdated m < WETH_PRICE_CACHE_TTL))%bool;
    [|apply Hrefresh].
  cbn. exact Hpos.
Qed.

Lemma wpc_await_async {A} (t : task A) Q Qe m g :
  wpc t (fun a m g => cache_positive m /\ forall m' g', cache_positive m' -> Q a m' g')
        (fun e m g => cache_positive m /\ forall m' g', cache_positive m' -> Qe e m' g') m g ->
  wpc (await_async t) Q Qe m g.
Proof.
  intros H. unfold await_async. wpc_step. wpc_step.
  eapply TaskFacts.wp_mono; [| |exact H]; cbn.
  - intros a m1 g1 [Hinv HQ]. split; [exact Hinv|].
    intros [] m' g' H'. cbn. apply HQ, H'.
  - intros e m1 g1 [Hinv HQ]. split; [exact Hinv|].
    intros [] m' g' H'. cbn. apply HQ, H'.
Qed.

(** [await f(...)] of a function that keeps the cache positive, followed
    by a continuation that does. *)
Lemma wpc_await_then {A B} (t : task A) (f : A -> task B) m g :
  wpc t positive positive m g ->
  (forall a m' g', cache_positive m' -> wpc (f a) positive positive m' g') ->
  wpc (bind (await_async t) f) positive positive m g.
Proof.
  intros Ht Hf. wpc_step. apply wpc_await_async.
  eapply TaskFacts.wp_mono; [| |exact Ht]; cbn.
  - intros a m1 g1 H1. split; [exact H1|]. intros m' g' H'. apply Hf, H'.
  - intros e m1 g1 H1. split; [exact H1|]. auto.
Qed.

Lemma wpc_getTokensBasicInfo tokenAddresses m g :
  cache_positive m -> wpc (getTokensBasicInfo tokenAddresses) positive positive m g.
Proof.
  intros Hpos. unfold getTokensBasicInfo. cbn. split; [exact Hpos|].
  intros [e|results] m' g' Hpos'; cbn; [exact Hpos'|].
  destruct (basic_info_loop _ _ _ _ _ _); exact Hpos'.
Qed.

Lemma wpc_discovery_loop fuel calls callMetadata_ i maps m g :
  cache_positive m ->
  wpc (discovery_loop fuel calls callMetadata_ i maps) positive positive m g.
Proof.
  revert i maps m g. induction fuel as [|fuel IH]; intros i maps m g Hpos;
    cbn [discovery_loop]; [exact Hpos|].
  case_bool_decide; [|exact Hpos].
  cbn. split; [exact Hpos|].
  intros [e|results] m' g' Hpos'; cbn; [exact Hpos'|].
  case_bool_decide; cbn.
  - split; [exact Hpos'|]. intros [] m'' g'' Hpos''. apply IH, Hpos''.
  - apply IH, Hpos'.
Qed.

Lemma wpc_findWethPoolsBatched tokenAddresses m g :
  cache_positive m -> wpc (findWethPoolsBatched tokenAddresses) positive positive m g.
Proof.
  intros Hpos. unfold findWethPoolsBatched. wpc_step.
  destruct (pool_calls tokenAddresses) as [calls|]; [|exact Hpos].
  wpc_use wpc_discovery_loop; auto.
Qed.

Lemma wpc_getPoolsData poolAddresses poolDataMap_ m g :
  cache_positive m -> wpc (getPoolsData poolAddresses poolDataMap_) positive positive m g.
Proof.
  intros Hpos. unfold getPoolsData. cbn.
  case_bool_decide; [exact Hpos|]. cbn. split; [exact Hpos|].
  intros [e|results] m' g' Hpos'; exact Hpos'.
Qed.

Lemma wpc_enrichWithPoolData tokenInfoMap m g :
  cache_positive m -> wpc (enrichWithPoolData tokenInfoMap) positive positive m g.
Proof.
  intros Hpos. unfold enrichWithPoolData, mbind, task_bind. wpc_step.
  eapply TaskFacts.wp_mono;
    [| |apply wpc_await_then;
        [apply wpc_fetchWethPrice, Hpos|intros wethPriceUsd m' g' Hpos'; exact Hpos']];
    cbn; auto.
Qed.

Lemma wpc_build_docs entries Q Qe m g :
  (forall docs, Q docs m g) -> wpc (build_docs entries) Q Qe m g.
Proof.
  revert Q. induction entries as [|[k v] entries IH]; intros Q HQ; cbn.
  - apply HQ.
  - apply TaskFacts.wp_bind. apply IH. intros docs. cbn. apply HQ.
Qed.

Lemma wpc_processAndStoreTokensData tokensData m g :
  cache_positive m -> wpc (processAndStoreTokensData tokensData) positive positive m g.
Proof.
  intros Hpos. unfold processAndStoreTokensData, mbind, task_bind. wpc_step.
  case_bool_decide; [exact Hpos|].
  wpc_step. apply wpc_build_docs. intros docs.
  case_bool_decide; cbn; [|exact Hpos].
  split; [exact Hpos|]. intros [e|[]] m' g' Hpos'; exact Hpos'.
Qed.

#[local] Arguments await_async : simpl never.
#[local] Arguments getTokensBasicInfo : simpl never.
#[local] Arguments findWethPoolsBatched : simpl never.
#[local] Arguments getPoolsData : simpl never.
#[local] Arguments enrichWithPoolData : simpl never.
#[local] Arguments processAndStoreTokensData : simpl never.
#[local] Arguments fetchWethPrice : simpl never.

Lemma wpc_process_batch batch m g :
  cache_positive m -> wpc (process_batch batch) positive positive m g.
Proof.
  intros Hpos. unfold process_batch, mbind, task_bind.
  apply wpc_await_then; [apply wpc_getTokensBasicInfo, Hpos|].
  intros tokenBasicInfo m1 g1 H1.
  apply wpc_await_then; [apply wpc_findWethPoolsBatched, H1|].
  intros maps m2 g2 H2.
  apply wpc_await_then; [apply wpc_getPoolsData, H2|].
  intros enrichedPoolDataMap m3 g3 H3.
  apply wpc_await_then; [apply wpc_enrichWithPoolData, H3|].
  intros enrichedData m4 g4 H4.
  apply wpc_await_async.
  wpc_use wpc_processAndStoreTokensData; auto.
Qed.

Lemma wpc_batches_loop batches processedCount m g :
  cache_positive m -> wpc (batches_loop batches processedCount) positive positive m g.
Proof.
  revert processedCount m g.
  induction batches as [|batch rest IH]; intros processedCount m g Hpos;
    cbn [batches_loop]; [exact Hpos|].
  unfold mbind, task_bind. wpc_step.
  wpc_use wpc_process_batch; [| |exact Hpos]; [|auto].
  intros updatedTokens m1 g1 H1.
  case_bool_decide; cbn.
  - split; [exact H1|]. intros [] m' g' H'. apply IH, H'.
  - apply IH, H1.
Qed.

Lemma wpc_updateTokenData m g :
  cache_positive m -> wpc updateTokenData positive positive m g.
Proof.
  intros Hpos. unfold updateTokenData. cbn. split; [exact Hpos|].
  intros [e|addresses] m' g' Hpos'; cbn; [exact Hpos'|].
  apply TaskFacts.wp_bind. apply TaskFacts.wp_try_catch. apply TaskFacts.wp_bind.
  wpc_use wpc_batches_loop; [| |exact Hpos']; auto.
Qed.

#[local] Arguments updateTokenData : simpl never.

Lemma wpc_cron_callback m g :
  cache_positive m -> wpc cron_callback positive positive m g.
Proof.
  intros Hpos. unfold cron_callback. cbn.
  destruct (isUpdating m); [exact Hpos|]. cbn.
  apply TaskFacts.wp_try_catch. apply TaskFacts.wp_bind.
  wpc_use wpc_updateTokenData; [| |exact Hpos].
  - intros [] m1 g1 H1. split; [exact H1|]. intros [] m' g' H'. exact H'.
  - intros e m1 g1 H1. split; [exact H1|]. intros [] m' g' H'. exact H'.
Qed.

Lemma wpc_prefetch_callback m g :
  cache_positive m -> wpc prefetch_callback positive positive m g.
Proof.
  intros Hpos. unfold prefetch_callback, mbind, task_bind. wpc_step.
  wpc_use wpc_fetchWethPrice; auto.
Qed.

Definition resumable (t : task unit) : Prop :=
  match t with
  | Vis ev k => forall x m g, cache_positive m -> wpc (k x) positive positive m g
  | _ => True
  end.

Definition sys_inv (s : sys) : Prop :=
  cache_positive (sys_mem s) /\ Forall resumable (pending s).

Lemma advance_keeps_cache s due others t :
  wpc t positive positive (sys_mem s) () ->
  Forall resumable others ->
  sys_inv (advance s due others t).
Proof.
  intros Hwp Hothers. unfold advance.
  pose proof (TaskFacts.wp_run_sync _ _ _ t positive positive (sys_mem s) () Hwp) as Hrun.
  destruct (run_sync (sys_mem s) t) as [m' t'].
  destruct t' as [[]|e|X ev k]; cbn in *.
  - split; [exact Hrun|exact Hothers].
  - split; [exact Hrun|exact Hothers].
  - destruct Hrun as [Hinv Hk]. split; [exact Hinv|].
    constructor; [exact Hk|exact Hothers].
Qed.

Lemma step_keeps_cache s s' : sys_inv s -> step s s' -> sys_inv s'.
Proof.
  intros [Hinv Hpend] Hstep. destruct Hstep as [s|s Hdue|s i X ev k x Hi|s now].
  - apply advance_keeps_cache; [apply wpc_cron_callback, Hinv|exact Hpend].
  - apply advance_keeps_cache; [apply wpc_updateTokenData, Hinv|exact Hpend].
  - apply advance_keeps_cache.
    + assert (resumable (Vis ev k)) as Hres.
      { rewrite Forall_lookup in Hpend. exact (Hpend i _ Hi). }
      apply Hres, Hinv.
    + apply Forall_delete, Hpend.
  - split; [exact Hinv|exact Hpend].
Qed.

Lemma reachable_cache_positive s : reachable s -> cache_positive (sys_mem s).
Proof.
  intros Hreach. enough (sys_inv s) as [H _] by exact H.
  induction Hreach as [now|s s' _ IH Hstep].
  - apply advance_keeps_cache; [|constructor]. apply wpc_prefetch_callback. exact I.
  - exact (step_keeps_cache s s' IH Hstep).
Qed.

(** C3.  In every state [s] the event loop reaches (so: whenever
    [fetchWethPrice] is called, and whenever its pool read is answered),
    the call either answers from its cache or waits for the pool read;
    the continuation at the read returns a number whatever the answer and
    never throws; when the read failed it returns the cached price if
    there is one and 1911 otherwise.  In particular a failed read on a
    cold cache returns 1911, which is not zero. *)
Theorem fetchWethPrice_read_failure_falls_back (s : sys) :
  reachable s ->
  let m := sys_mem s in
  ((exists p, cachedWethPrice m = Some p /\ run_sync m fetchWethPrice = (m, Ret p)) \/
   run_sync m fetchWethPrice = (m, Vis ReadWethUsdcPool (after_pool_read (clock m)))) /\
  (forall now answer, exists p m', run_sync m (after_pool_read now answer) = (m', Ret p)) /\
  (forall now e,
     run_sync m (after_pool_read now (inl e)) = (m, Ret (last_cached_or_fallback m))) /\
  (cachedWethPrice m = None ->
     forall now e, run_sync m (after_pool_read now (inl e)) = (m, Ret 1911%R)) /\
  (1911 <> 0)%R.
Proof.
  intros Hreach m. pose proof (reachable_cache_positive s Hreach) as Hpos. fold m in Hpos.
  split; [apply fetchWethPrice_first_segment|]. split; [|split; [|split; [|lra]]].
  - intros now answer.
    destruct (after_pool_read_settles now answer m Hpos) as (p & m' & Hrun & _). eauto.
  - intros now e. apply after_pool_read_failure, Hpos.
  - intros Hcold now e. rewrite after_pool_read_failure by exact Hpos.
    unfold last_cached_or_fallback. rewrite Hcold. reflexivity.
Qed.

(** The module state before anything ran. *)
Definition cold : mem :=
  {| isUpdating := false; cachedWethPrice := None; wethPriceLastUpdated := 0;
     clock := 0; running := 0 |}.

(** Right after start-up the cache is cold and the pre-fetch is waiting. *)
Lemma fetchWethPrice_read_failure_falls_back_witness :
  reachable (start 0) /\
  forall now e,
    run_sync (sys_mem (start 0)) (after_pool_read now (inl e))
    = (sys_mem (start 0), Ret 1911%R).
Proof.
  split; [apply reachable_start|].
  destruct (fetchWethPrice_read_failure_falls_back (start 0) (reachable_start 0))
    as (_ & _ & _ & Hcold & _).
  apply Hcold. reflexivity.
Defined.

(** ** Tick prices *)

(** In exact arithmetic both forms of [calculatePriceFromTick] are
    [1.0001^tick * 10^(decimals1 - decimals0)]. *)
Lemma calculatePriceFromTick_exact (tick_ decimals0 decimals1 : Z) :
  calculatePriceFromTick tick_ decimals0 decimals1
  = (powerRZ 1.0001 tick_ * powerRZ 10 (decimals1 - decimals0))%R.
Proof.
  unfold calculatePriceFromTick, Math_pow.
  case_bool_decide; [|reflexivity].
  rewrite (powerRZ_Rpower 1.0001 tick_) by lra. reflexivity.
Qed.

Lemma calculatePriceFromTick_pos (tick_ decimals0 decimals1 : Z) :
  (0 < calculatePriceFromTick tick_ decimals0 decimals1)%R.
Proof.
  rewrite calculatePriceFromTick_exact.
  apply Rmult_lt_0_compat; apply powerRZ_lt; lra.
Qed.

(** C8 as stated fails: a token with 6 decimals that is the second asset
    of a pool whose first asset (WETH) has 18 decimals, at tick 0, is
    priced at [10^-12] WETH, not at [1 / (1.0001^0 * 10^(6 - 18)) = 10^12]. *)
Lemma second_asset_price_counterexample :
  priceInWETH false 0 18 6 <> (1 / (powerRZ 1.0001 0 * powerRZ 10 (6 - 18)))%R.
Proof.
  unfold priceInWETH. rewrite calculatePriceFromTick_exact.
  replace (18 - 6) with 12 by reflexivity. replace (6 - 18) with (-12) by reflexivity.
  cbn [powerRZ]. rewrite !Rmult_1_l.
  set (x := (10 ^ Pos.to_nat 12)%R).
  assert (1 < x)%R as Hx.
  { subst x. replace (Pos.to_nat 12) with 12%nat by reflexivity. simpl. lra. }
  unfold Rdiv. rewrite !Rmult_1_l, Rinv_inv.
  intros Heq.
  assert (/ x < 1)%R as Hinv.
  { rewrite <- Rinv_1. apply Rinv_lt_contravar; lra. }
  lra.
Qed.

(** C8 (amended).  When the token is the second asset, the decimals are
    passed to [calculatePriceFromTick] in swapped order, so the price in
    WETH is the inverse of [1.0001^tick * 10^(d0 - d1)], with [d0] the
    decimals of the first asset and [d1] those of the token. *)
Theorem second_asset_price_inverts_swapped_adjustment
    (tickNumber token0Decimals token1Decimals : Z) :
  priceInWETH false tickNumber token0Decimals token1Decimals
  = (1 / (powerRZ 1.0001 tickNumber * powerRZ 10 (token0Decimals - token1Decimals)))%R.
Proof.
  unfold priceInWETH. rewrite calculatePriceFromTick_exact. reflexivity.
Qed.

(** ** The main pool *)

(** A pool the loop considers: it has a non-empty liquidity string, which
    reads as [liq], and a tick [t]. *)
Definition candidate (q : pool) (liq t : Z) : Prop :=
  exists l, liquidity q = Some l /\ l <> "" /\ BigInt l = Some liq /\ tick q = Some t.

(** Liquidity strings are decimal: [BigInt] reads them. *)
Definition reads_as_integer (p : option pool) : Prop :=
  forall q l, p = Some q -> liquidity q = Some l -> is_Some (BigInt l).

Lemma with_main_dex_twice d1 d2 info :
  with_main_dex d2 (with_main_dex d1 info) = with_main_dex d2 info.
Proof. reflexivity. Qed.

(** What the loop has established after scanning [pools_] from the local
    variables [sel] and the token [info]. *)
Definition scanned (pools_ : list (option pool)) (sel : selection) (info : tokenInfo)
    (sel' : selection) (info' : tokenInfo) : Prop :=
  highestLiquidity sel <= highestLiquidity sel' /\
  (forall q liq t, Some q ∈ pools_ -> candidate q liq t -> liq <= highestLiquidity sel') /\
  ((sel' = sel /\ info' = info) \/
   (exists best t,
      Some best ∈ pools_ /\ candidate best (highestLiquidity sel') t /\
      highestLiquidity sel < highestLiquidity sel' /\
      bestPool sel' = Some best /\
      mainPoolAddress sel' = pool_address best /\
      mainPoolTick sel' = t /\
      info' = with_main_dex (dex best) info)).

(** A pool that is no candidate does not change the outcome. *)
Lemma scanned_skip p rest sel info sel' info' :
  (forall q liq t, p = Some q -> ~ candidate q liq t) ->
  scanned rest sel info sel' info' -> scanned (p :: rest) sel info sel' info'.
Proof.
  intros Hnot (Hle & Hmax & Hcase). split; [exact Hle|]. split.
  - intros q liq t Hin Hc. apply elem_of_cons in Hin as [Heq|Hin].
    + exfalso. exact (Hnot q liq t (eq_sym Heq) Hc).
    + exact (Hmax q liq t Hin Hc).
  - destruct Hcase as [Hsame|(best & t & Hin & Hrest)]; [left; exact Hsame|].
    right. exists best, t. split; [right; exact Hin|exact Hrest].
Qed.

Lemma select_main_pool_skip p rest sel info :
  reads_as_integer p ->
  (forall q liq t, p = Some q -> ~ candidate q liq t) ->
  select_main_pool (p :: rest) sel info = select_main_pool rest sel info.
Proof.
  intros Hp Hnot. simpl. destruct p as [q|]; [|reflexivity].
  destruct (liquidity q) as [l|] eqn:Hl; [|reflexivity].
  destruct (tick q) as [t|] eqn:Ht; [|reflexivity].
  case_bool_decide as Hempty; [reflexivity|].
  destruct (Hp q l eq_refl Hl) as [liq Hliq].
  exfalso. apply (Hnot q liq t eq_refl). exists l. auto.
Qed.

Lemma candidate_or_not (p : option pool) :
  reads_as_integer p ->
  (exists q liq t, p = Some q /\ candidate q liq t) \/
  (forall q liq t, p = Some q -> ~ candidate q liq t).
Proof.
  intros Hp. destruct p as [q|]; [|right; intros ? ? ? [=]].
  destruct (liquidity q) as [l|] eqn:Hl;
    [|right; intros ? ? ? [= <-] (l & Hl' & _); congruence].
  destruct (tick q) as [t|] eqn:Ht;
    [|right; intros ? ? ? [= <-] (l' & _ & _ & _ & Ht'); congruence].
  destruct (decide (l = "")) as [->|Hne];
    [right; intros ? ? ? [= <-] (l' & Hl' & Hne & _); congruence|].
  destruct (Hp q l eq_refl Hl) as [liq Hliq].
  left. exists q, liq, t. split; [reflexivity|]. exists l. auto.
Qed.

Lemma select_main_pool_spec (pools_ : list (option pool)) (sel : selection) (info : tokenInfo) :
  Forall reads_as_integer pools_ ->
  exists sel' info',
    select_main_pool pools_ sel info = (sel', info', None) /\
    scanned pools_ sel info sel' info'.
Proof.
  intros Hread. revert sel info.
  induction Hread as [|p rest Hp Hrest IH]; intros sel info.
  - exists sel, info. split; [reflexivity|]. split; [lia|]. split.
    + intros q liq t Hin. inversion Hin.
    + left. split; reflexivity.
  - destruct (candidate_or_not p Hp) as [(q & liq & t & -> & Hcand)|Hnot].
    + (* a candidate: compare with the best so far *)
      assert (forall liq' t', candidate q liq' t' -> liq' = liq /\ t' = t) as Hfun.
      { destruct Hcand as (l & Hl & _ & Hb & Ht).
        intros liq' t' (l' & Hl' & _ & Hb' & Ht'). split; congruence. }
      pose proof Hcand as (l & Hl & Hne & Hb & Ht).
      simpl. rewrite Hl, Ht. simpl.
      rewrite bool_decide_eq_false_2 by exact Hne. rewrite Hb.
      case_bool_decide as Hgt.
      * set (sel1 := {| highestLiquidity := liq; bestPool := Some q;
                        mainPoolAddress := pool_address q; mainPoolTick := t |}).
        destruct (IH sel1 (with_main_dex (dex q) info))
          as (sel' & info' & Heq & Hle & Hmax & Hcase).
        exists sel', info'. split; [exact Heq|]. simpl in Hle.
        split; [lia|]. split.
        -- intros q0 liq0 t0 Hin Hc. apply elem_of_cons in Hin as [[= ->]|Hin].
           ++ destruct (Hfun liq0 t0 Hc) as [-> ->]. exact Hle.
           ++ apply (Hmax q0 liq0 t0 Hin Hc).
        -- right.
           destruct Hcase as [[-> ->]|(best & t0 & Hin & Hc & Hlt & Hb' & Ha & Ht0 & Hi)].
           ++ exists q, t. simpl. split; [left|]. split; [exact Hcand|].
              split; [lia|]. auto.
           ++ exists best, t0. split; [right; exact Hin|]. split; [exact Hc|].
              simpl in Hlt. split; [lia|]. split; [exact Hb'|]. split; [exact Ha|].
              split; [exact Ht0|]. rewrite Hi. apply with_main_dex_twice.
      * destruct (IH sel info) as (sel' & info' & Heq & Hle & Hmax & Hcase).
        exists sel', info'. split; [exact Heq|]. split; [exact Hle|]. split.
        -- intros q0 liq0 t0 Hin Hc. apply elem_of_cons in Hin as [[= ->]|Hin].
           ++ destruct (Hfun liq0 t0 Hc) as [-> ->]. lia.
           ++ apply (Hmax q0 liq0 t0 Hin Hc).
        -- destruct Hcase as [Hsame|(best & t0 & Hin & Hrest')]; [left; exact Hsame|].
           right. exists best, t0. split; [right; exact Hin|exact Hrest'].
    + (* no candidate: the iteration continues *)
      rewrite (select_main_pool_skip p rest sel info Hp Hnot).
      destruct (IH sel info) as (sel' & info' & Heq & Hscan).
      exists sel', info'. split; [exact Heq|]. apply scanned_skip; assumption.
Qed.

(** C4.  For a token whose pools carry decimal liquidity strings and of
    which at least one has a tick and a positive liquidity, the enrichment
    of the token ends normally and records as main pool a pool of the
    token whose liquidity, read as an integer of arbitrary precision, is
    the largest among the pools with liquidity and tick data; the DEX
    label, address and tick recorded on the token are those of that pool. *)
Theorem main_pool_has_largest_liquidity
    (wethPriceUsd : R) (tokenAddress : address) (tokenData : tokenInfo) :
  Forall reads_as_integer (pools tokenData) ->
  (exists q liq t, Some q ∈ pools tokenData /\ candidate q liq t /\ 0 < liq) ->
  exists (best : pool) (liq t : Z) (info' : tokenInfo),
    enrich_token wethPriceUsd tokenAddress tokenData = (info', None) /\
    Some best ∈ pools tokenData /\
    candidate best liq t /\
    (forall q liq' t', Some q ∈ pools tokenData -> candidate q liq' t' -> liq' <= liq) /\
    main_dex info' = Some (dex best) /\
    main_pool_address info' = Some (pool_address best) /\
    main_pool_tick info' = Some t.
Proof.
  intros Hread (q0 & liq0 & t0 & Hin0 & Hc0 & Hpos0).
  set (info1 := with_pool_count (Z.of_nat (length (pools tokenData))) tokenData).
  destruct (select_main_pool_spec (pools tokenData) no_selection info1 Hread)
    as (sel' & info' & Heq & Hle & Hmax & Hcase).
  pose proof (Hmax q0 liq0 t0 Hin0 Hc0) as Hbound.
  destruct Hcase as [[-> _]|(best & t & Hin & Hc & Hlt & Hb & Ha & Ht & Hi)].
  { simpl in Hbound. lia. }
  exists best, (highestLiquidity sel'), t.
  unfold enrich_token.
  rewrite bool_decide_eq_false_2; cycle 1.
  { intros Hlen. destruct (pools tokenData); [inversion Hin0|discriminate Hlen]. }
  fold info1. rewrite Heq. rewrite Hb.
  assert (tick best = Some t) as Htick by (destruct Hc as (l & _ & _ & _ & H); exact H).
  rewrite Htick.
  match goal with
  | |- context [Rlt_dec 0 ?p] => destruct (Rlt_dec 0 p)
  end.
  - eexists. split; [reflexivity|]. split; [exact Hin|]. split; [exact Hc|].
    split; [exact Hmax|]. subst info'. simpl. rewrite Ha, Ht. auto.
  - eexists. split; [reflexivity|]. split; [exact Hin|]. split; [exact Hc|].
    split; [exact Hmax|]. subst info'. simpl. rewrite Ha, Ht. auto.
Qed.

(** The scenario of the specification: two pools with liquidity "100" and
    "500000". *)
Definition example_pool (address_ liquidity_ : string) (tick_ : Z) : pool :=
  {| pool_address := address_;
     token0 := "0x1111111111111111111111111111111111111111";
     token1 := toLowerCase WETH_ADDRESS;
     fee := 3000; dex := "Uniswap V3";
     liquidity := Some liquidity_;
     slot0 := Some ("79228162514264337593543950336", tick_) |}.

Definition example_token (pools_ : list (option pool)) : tokenInfo :=
  with_pools pools_
    (new_tokenInfo "0x1111111111111111111111111111111111111111"
       {| bf_name := "Token"; bf_symbol := "TKN"; bf_decimals := 18;
          bf_totalSupply := "1000000000000000000000" |}).

Definition two_pools : list (option pool) :=
  [Some (example_pool "0xPoolA" "100" 10); Some (example_pool "0xPoolB" "500000" (-20))].

Lemma main_pool_has_largest_liquidity_witness :
  Forall reads_as_integer two_pools /\
  exists (best : pool) (liq t : Z) (info' : tokenInfo),
    enrich_token 1911 "0x1111111111111111111111111111111111111111" (example_token two_pools)
      = (info', None) /\
    Some best ∈ two_pools /\
    candidate best liq t /\
    (forall q liq' t', Some q ∈ two_pools -> candidate q liq' t' -> liq' <= liq) /\
    main_dex info' = Some (dex best) /\
    main_pool_address info' = Some (pool_address best) /\
    main_pool_tick info' = Some t.
Proof.
  assert (Forall reads_as_integer two_pools) as Hread.
  { repeat constructor; intros q l [= <-] [= <-]; eexists; reflexivity. }
  split; [exact Hread|].
  apply (main_pool_has_largest_liquidity 1911
           "0x1111111111111111111111111111111111111111" (example_token two_pools) Hread).
  exists (example_pool "0xPoolB" "500000" (-20)), 500000, (-20).
  split; [right; left|]. split; [|lia].
  exists "500000". repeat split. discriminate.
Defined.

Example second_pool_is_selected :
  let '(sel, _, thrown) :=
    select_main_pool two_pools no_selection (example_token two_pools) in
  mainPoolAddress sel = "0xPoolB" /\ mainPoolTick sel = -20
  /\ highestLiquidity sel = 500000 /\ thrown = None.
Proof. vm_compute. auto. Qed.

(** Two liquidity values that IEEE doubles cannot tell apart
    (2^53 and 2^53 + 1) are told apart. *)
Example liquidity_beyond_double_precision :
  let pools_ := [Some (example_pool "0xPoolA" "9007199254740992" 1);
                 Some (example_pool "0xPoolB" "9007199254740993" 2)] in
  let '(sel, _, _) := select_main_pool pools_ no_selection (example_token pools_) in
  mainPoolAddress sel = "0xPoolB".
Proof. vm_compute. reflexivity. Qed.

(** ** Decoding the aggregated answer of getTokensBasicInfo *)

#[local] Arguments Nat.mul : simpl never.

(** The entries the loop appends for the tokens [rest], the first of which
    has index [cur]. *)
Fixpoint decoded_entries (results : list callResult) (cur : nat) (rest : list address)
    : obj tokenInfo :=
  match rest with
  | [] => []
  | a :: rest' =>
      (toLowerCase a,
       new_tokenInfo (toLowerCase a) (decode_basic_fields results (4 * cur)))
      :: decoded_entries results (S cur) rest'
  end.

Lemma basic_info_loop_spec fuel (done rest : list address) results tokenInfoMap :
  length results = (4 * length (done ++ rest))%nat ->
  (length rest <= fuel)%nat ->
  NoDup (tokenInfoMap.*1 ++ (toLowerCase <$> rest)) ->
  basic_info_loop fuel (done ++ rest) results (4 * length done) (length done) tokenInfoMap
  = Some (tokenInfoMap ++ decoded_entries results (length done) rest).
Proof.
  revert fuel done tokenInfoMap.
  induction rest as [|a rest IH]; intros fuel done tokenInfoMap Hlen Hfuel Hnodup.
  - rewrite app_nil_r in *. cbn [decoded_entries]. rewrite app_nil_r.
    destruct fuel as [|fuel]; cbn [basic_info_loop]; [reflexivity|].
    rewrite bool_decide_eq_false_2 by lia. reflexivity.
  - destruct fuel as [|fuel]; cbn [length] in Hfuel; [lia|]. cbn [basic_info_loop].
    rewrite bool_decide_eq_true_2 by (rewrite Hlen, length_app; cbn [length]; lia).
    rewrite list_lookup_middle by reflexivity. cbn [mbind option_bind].
    rewrite fmap_cons in Hnodup.
    apply NoDup_app in Hnodup as (Hmap & Hdisj & Hrest).
    apply NoDup_cons in Hrest as [Ha Hrest].
    rewrite obj_set_fresh by (intros Hin; apply (Hdisj _ Hin); left).
    assert (length (done ++ [a]) = S (length done)) as Hdone
      by (rewrite length_app; cbn [length]; lia).
    replace (4 * length done + 4)%nat with (4 * length (done ++ [a]))%nat by lia.
    rewrite <- Hdone.
    rewrite (cons_middle a done rest), app_assoc.
    rewrite IH.
    + rewrite <- app_assoc. cbn [decoded_entries app]. rewrite Hdone. reflexivity.
    + rewrite <- app_assoc. exact Hlen.
    + lia.
    + rewrite fmap_app. cbn [fmap list_fmap]. rewrite <- app_assoc.
      apply NoDup_app. split; [exact Hmap|]. split.
      * intros x Hx Hin. apply elem_of_cons in Hin as [->|Hin].
        -- apply (Hdisj _ Hx). left.
        -- apply (Hdisj _ Hx). right. exact Hin.
      * apply NoDup_cons. split; assumption.
Qed.

Lemma decoded_entries_keys results cur rest :
  (decoded_entries results cur rest).*1 = toLowerCase <$> rest.
Proof.
  revert cur. induction rest as [|a rest IH]; intros cur; simpl; [reflexivity|].
  rewrite IH. reflexivity.
Qed.

Lemma decoded_entries_lookup results cur rest i a :
  rest !! i = Some a ->
  decoded_entries results cur rest !! i
  = Some (toLowerCase a,
          new_tokenInfo (toLowerCase a) (decode_basic_fields results (4 * (cur + i)))).
Proof.
  revert cur i. induction rest as [|b rest IH]; intros cur i Hi; [discriminate Hi|].
  destruct i as [|i]; cbn [decoded_entries].
  - injection Hi as ->. rewrite Nat.add_0_r. reflexivity.
  - change ((b :: rest) !! S i) with (rest !! i) in Hi.
    etrans; [apply (IH (S cur) i Hi)|].
    replace (S cur + i)%nat with (cur + S i)%nat by lia. reflexivity.
Qed.

(** What the specification asks of one token: each field is the decoded
    value of its call when the call succeeded, and the default otherwise. *)
Definition string_of (v : abi_value) : string :=
  match v with AbiString s => s | _ => "" end.
Definition uint_of (v : abi_value) : Z :=
  match v with AbiUint n => n | _ => 0 end.

Definition expected_fields (r0 r1 r2 r3 : callResult) : basicFields :=
  {| bf_name := if success r0 then string_of (returnData r0) else "";
     bf_symbol := if success r1 then string_of (returnData r1) else "";
     bf_decimals := if success r2 then uint_of (returnData r2) else 18;
     bf_totalSupply := if success r3 then pretty (uint_of (returnData r3)) else "0" |}.

(** The return data of a successful call decodes at the return type of
    the function called: [name] and [symbol] give strings, [decimals] and
    [totalSupply] unsigned integers. *)
Definition well_typed (results : list callResult) : Prop :=
  forall (k : nat) (r : callResult),
    (results !! (4 * k)%nat = Some r -> success r = true ->
       is_Some (decode_string (returnData r))) /\
    (results !! (4 * k + 1)%nat = Some r -> success r = true ->
       is_Some (decode_string (returnData r))) /\
    (results !! (4 * k + 2)%nat = Some r -> success r = true ->
       is_Some (decode_uint (returnData r))) /\
    (results !! (4 * k + 3)%nat = Some r -> success r = true ->
       is_Some (decode_uint (returnData r))).

Lemma decode_basic_fields_expected results k r0 r1 r2 r3 :
  well_typed results ->
  results !! (4 * k)%nat = Some r0 ->
  results !! (4 * k + 1)%nat = Some r1 ->
  results !! (4 * k + 2)%nat = Some r2 ->
  results !! (4 * k + 3)%nat = Some r3 ->
  decode_basic_fields results (4 * k) = expected_fields r0 r1 r2 r3.
Proof.
  intros Hty H0 H1 H2 H3.
  destruct (Hty k r0) as (T0 & _). destruct (Hty k r1) as (_ & T1 & _).
  destruct (Hty k r2) as (_ & _ & T2 & _). destruct (Hty k r3) as (_ & _ & _ & T3).
  specialize (T0 H0). specialize (T1 H1). specialize (T2 H2). specialize (T3 H3).
  unfold decode_basic_fields, expected_fields, try_statements, decode_if_success.
  rewrite H0, H1, H2, H3. simpl.
  destruct r0 as [[] [] ], r1 as [[] [] ], r2 as [[] [] ], r3 as [[] [] ]; simpl in *;
    try reflexivity;
    try (destruct (T0 eq_refl) as [? [=]]); try (destruct (T1 eq_refl) as [? [=]]);
    try (destruct (T2 eq_refl) as [? [=]]); try (destruct (T3 eq_refl) as [? [=]]).
Qed.

(** The continuation of [getTokensBasicInfo] at its aggregated call. *)
Definition after_aggregate (tokenAddresses : list address)
    : (exn + list callResult)%type -> task (obj tokenInfo) :=
  fun answer =>
    try_catch
      (bind (match answer with inl e => Throw e | inr x => Ret x end)
         (fun results =>
            match basic_info_loop (length results) tokenAddresses results 0 0 [] with
            | Some tokenInfoMap => Ret tokenInfoMap
            | None => Throw TypeError
            end))
      (fun error => Ret []).


(** Two tokens; the [symbol] call of the first and the [decimals] call of
    the second failed. *)
Definition two_tokens : list address :=
  ["0xAbC0000000000000000000000000000000000001";
   "0xdef0000000000000000000000000000000000002"].

Definition two_tokens_results : list callResult :=
  [ {| success := true; returnData := AbiString "Alpha" |};
    {| success := false; returnData := AbiMalformed |};
    {| success := true; returnData := AbiUint 6 |};
    {| success := true; returnData := AbiUint 1000000 |};
    {| success := true; returnData := AbiString "Beta" |};
    {| success := true; returnData := AbiString "BET" |};
    {| success := false; returnData := AbiMalformed |};
    {| success := true; returnData := AbiUint 42 |} ].

Lemma two_tokens_results_well_typed : well_typed two_tokens_results.
Proof.
  intros k r. destruct k as [|[|k]].
  - repeat split; intros [= <-] Hs; try discriminate Hs; eexists; reflexivity.
  - repeat split; intros [= <-] Hs; try discriminate Hs; eexists; reflexivity.
  - repeat split; intros H; exfalso; apply lookup_lt_Some in H;
      unfold two_tokens_results in H; cbn [length] in H; lia.
Qed.

Lemma two_tokens_distinct : NoDup (toLowerCase <$> two_tokens).
Proof.
  apply NoDup_cons. split; [|apply NoDup_singleton].
  intros Hin. apply list_elem_of_singleton in Hin. discriminate Hin.
Qed.


Example failed_calls_get_defaults :
  (snd <$> decoded_entries two_tokens_results 0 two_tokens)
  = [ new_tokenInfo "0xabc0000000000000000000000000000000000001"
        {| bf_name := "Alpha"; bf_symbol := ""; bf_decimals := 6;
           bf_totalSupply := "1000000" |};
      new_tokenInfo "0xdef0000000000000000000000000000000000002"
        {| bf_name := "Beta"; bf_symbol := "BET"; bf_decimals := 18;
           bf_totalSupply := "42" |} ].
Proof. vm_compute. reflexivity. Qed.

(** ** A token without pools *)

(** A token object on which no pool was hung and no price computed. *)
Definition without_pools (info : tokenInfo) : Prop :=
  pools info = [] /\ default 0 (pool_count info) = 0 /\
  price_usd info = None /\ market_cap info = None.

Lemma attach_pools_without_pools batch tokenPoolsMap_ enrichedPoolDataMap tokenBasicInfo a0 info :
  default [] (obj_get tokenPoolsMap_ a0) = [] ->
  obj_get tokenBasicInfo a0 = Some info -> without_pools info ->
  exists info',
    obj_get (attach_pools batch tokenPoolsMap_ enrichedPoolDataMap tokenBasicInfo) a0
      = Some info' /\ without_pools info'.
Proof.
  intros Hnone. unfold attach_pools.
  revert tokenBasicInfo info. induction batch as [|x batch IH]; intros o info Hget Hwo; simpl.
  - exists info. auto.
  - destruct (obj_get o (toLowerCase x)) as [ix|] eqn:Hx; [|apply (IH o info Hget Hwo)].
    destruct (decide (toLowerCase x = a0)) as [Heq|Hne].
    + rewrite Heq in *. rewrite Hnone. simpl.
      eapply IH.
      * rewrite obj_get_set, decide_True by reflexivity. reflexivity.
      * destruct Hwo as (_ & _ & Hp & Hm). rewrite Hget in Hx. injection Hx as <-.
        repeat split; assumption.
    + eapply IH; [|exact Hwo].
      rewrite obj_get_set, decide_False by exact Hne. exact Hget.
Qed.

Lemma attach_pools_keys batch tokenPoolsMap_ enrichedPoolDataMap tokenBasicInfo :
  (attach_pools batch tokenPoolsMap_ enrichedPoolDataMap tokenBasicInfo).*1
  = tokenBasicInfo.*1.
Proof.
  unfold attach_pools. revert tokenBasicInfo.
  induction batch as [|x batch IH]; intros o; simpl; [reflexivity|].
  destruct (obj_get o (toLowerCase x)) as [ix|] eqn:Hx; [|apply IH].
  rewrite IH. apply obj_set_keys_present. eapply obj_get_Some_key, Hx.
Qed.

Lemma enrich_token_without_pools wethPriceUsd tokenAddress info :
  pools info = [] -> enrich_token wethPriceUsd tokenAddress info = (info, None).
Proof. intros Hp. unfold enrich_token. rewrite Hp. reflexivity. Qed.

Lemma enrich_entries_keys wethPriceUsd entries tokenInfoMap :
  entries.*1 ⊆ tokenInfoMap.*1 ->
  (enrich_entries wethPriceUsd entries tokenInfoMap).*1 = tokenInfoMap.*1.
Proof.
  revert tokenInfoMap. induction entries as [|[k v] entries IH]; intros o Hsub; simpl;
    [reflexivity|].
  assert (k ∈ o.*1) as Hk by (apply Hsub; left).
  destruct (enrich_token wethPriceUsd k v) as [info thrown].
  destruct thrown; [apply obj_set_keys_present, Hk|].
  rewrite IH.
  - apply obj_set_keys_present, Hk.
  - rewrite obj_set_keys_present by exact Hk.
    intros x Hx. apply Hsub. right. exact Hx.
Qed.

Lemma enrich_entries_without_pools wethPriceUsd entries tokenInfoMap a0 info :
  pools info = [] ->
  obj_get tokenInfoMap a0 = Some info ->
  (forall v, (a0, v) ∈ entries -> v = info) ->
  obj_get (enrich_entries wethPriceUsd entries tokenInfoMap) a0 = Some info.
Proof.
  intros Hp. revert tokenInfoMap.
  induction entries as [|[k v] entries IH]; intros o Hget Hent; simpl; [exact Hget|].
  destruct (decide (k = a0)) as [->|Hne].
  - rewrite (Hent v) by left.
    rewrite enrich_token_without_pools by exact Hp.
    apply IH.
    + rewrite obj_get_set, decide_True by reflexivity. reflexivity.
    + intros v' Hin. apply Hent. right. exact Hin.
  - destruct (enrich_token wethPriceUsd k v) as [info' thrown].
    assert (obj_get (obj_set o k info') a0 = Some info) as Hget'
      by (rewrite obj_get_set, decide_False by exact Hne; exact Hget).
    destruct thrown; [exact Hget'|].
    apply IH; [exact Hget'|].
    intros v' Hin. apply Hent. right. exact Hin.
Qed.

(** ** Persistence *)

Definition docs_of (now : Z) (entries : list (string * tokenInfo)) : list tokenDoc :=
  (fun '(address_, tokenData) => make_tokenDoc now address_ tokenData) <$> entries.

Lemma build_docs_run entries m :
  run_sync m (build_docs entries) = (m, Ret (docs_of (clock m) entries)).
Proof.
  induction entries as [|[k v] entries IH]; cbn; [reflexivity|].
  unfold mbind, task_bind.
  rewrite (TaskFacts.run_sync_bind (@handle_sync)), IH. reflexivity.
Qed.

(** The continuation of [processAndStoreTokensData] at its bulk write. *)
Definition after_bulkWrite (processedTokens : list tokenDoc)
    : (exn + unit)%type -> task (list tokenDoc) :=
  fun answer =>
    try_catch
      (bind (bind (match answer with inl e => Throw e | inr x => Ret x end)
               (fun _ => bind (call DateNow) (fun _ => Ret ())))
         (fun _ => Ret processedTokens))
      (fun error => Ret []).

Lemma processAndStoreTokensData_first_segment tokensData m :
  tokensData <> [] ->
  run_sync m (processAndStoreTokensData tokensData)
  = (m, Vis (GeckoDataBulkWrite (docs_of (clock m) tokensData))
          (after_bulkWrite (docs_of (clock m) tokensData))).
Proof.
  intros Hne. unfold processAndStoreTokensData.
  rewrite (TaskFacts.run_sync_try_catch (@handle_sync)).
  rewrite bool_decide_eq_false_2 by (destruct tokensData; [congruence|discriminate]).
  unfold mbind, task_bind.
  rewrite (TaskFacts.run_sync_bind (@handle_sync)), build_docs_run.
  rewrite bool_decide_eq_true_2; cycle 1.
  { unfold docs_of. rewrite length_fmap. destruct tokensData; [congruence|simpl; lia]. }
  reflexivity.
Qed.

(** Stores that only this pipeline wrote. *)
Inductive written_by_pipeline : gmap address geckoRecord -> Prop :=
| written_nothing : written_by_pipeline ∅
| written_upsert store doc :
    written_by_pipeline store -> written_by_pipeline (upsert store doc).

(** No document carries [liquidity_usd]: the pipeline leaves the schema
    default in every record. *)
Lemma pipeline_liquidity_default store k r :
  written_by_pipeline store -> store !! k = Some r -> g_liquidity_usd r = 0%R.
Proof.
  intros Hw. revert k r. induction Hw as [|store doc Hw IH]; intros k r Hr.
  - rewrite lookup_empty in Hr. discriminate Hr.
  - unfold upsert in Hr. rewrite lookup_insert in Hr.
    case_decide as Hk; [|apply (IH k r Hr)].
    injection Hr as <-. simpl.
    destruct (store !! doc_contractAddress doc) as [r0|] eqn:H0; simpl; [|reflexivity].
    apply (IH _ _ H0).
Qed.

Lemma bulkWrite_written docs store :
  written_by_pipeline store -> written_by_pipeline (bulkWrite docs store).
Proof.
  unfold bulkWrite. revert store.
  induction docs as [|doc docs IH]; intros store Hw; simpl; [exact Hw|].
  apply IH. constructor. exact Hw.
Qed.

Lemma bulkWrite_other docs store k :
  k ∉ doc_contractAddress <$> docs -> bulkWrite docs store !! k = store !! k.
Proof.
  unfold bulkWrite. revert store.
  induction docs as [|doc docs IH]; intros store Hk; simpl; [reflexivity|].
  rewrite fmap_cons, not_elem_of_cons in Hk. destruct Hk as [Hne Hk].
  rewrite IH by exact Hk. unfold upsert. apply lookup_insert_ne. congruence.
Qed.

(** The record of a document written once in the batch carries the
    document's values. *)
Lemma bulkWrite_lookup docs store doc :
  NoDup (doc_contractAddress <$> docs) -> doc ∈ docs ->
  exists r,
    bulkWrite docs store !! doc_contractAddress doc = Some r /\
    g_pool_count r = doc_pool_count doc /\
    g_price_usd r = doc_price_usd doc /\
    g_market_cap r = doc_market_cap doc.
Proof.
  revert store. induction docs as [|d docs IH]; intros store Hnd Hin; [inversion Hin|].
  rewrite fmap_cons in Hnd. apply NoDup_cons in Hnd as [Hd Hnd].
  apply elem_of_cons in Hin as [->|Hin].
  - unfold bulkWrite. simpl. fold (bulkWrite docs (upsert store d)).
    rewrite bulkWrite_other by exact Hd.
    unfold upsert. rewrite lookup_insert_eq. eexists. split; [reflexivity|]. auto.
  - unfold bulkWrite. simpl. fold (bulkWrite docs (upsert store d)).
    apply IH; assumption.
Qed.

Lemma docs_of_addresses now entries :
  doc_contractAddress <$> docs_of now entries = toLowerCase <$> entries.*1.
Proof.
  unfold docs_of. induction entries as [|[k v] entries IH]; [reflexivity|].
  rewrite !fmap_cons, IH. reflexivity.
Qed.



(** Discovery drops a lookup that failed or answered the zero address. *)
Lemma record_pool_no_pool metadata result maps :
  success result = false \/ returnData result = AbiAddress ZeroAddress ->
  record_pool metadata result maps = maps.
Proof.
  intros [Hfail|Hzero]; unfold record_pool.
  - rewrite Hfail. reflexivity.
  - rewrite Hzero. destruct (success result); reflexivity.
Qed.

End PoolServiceFacts.

(** * Outcomes of a task under every environment *)

Module TaskOutcomes.
Section Outcomes.
Context {E : Type -> Type}.

(** [settles t Q Qe]: whatever every primitive answers, [t] ends, with a
    result that satisfies [Q] or with a thrown value that satisfies [Qe]. *)
Fixpoint settles {A} (t : task E A) (Q : A -> Prop) (Qe : exn -> Prop) : Prop :=
  match t with
  | Ret a => Q a
  | Throw e => Qe e
  | Vis ev k => forall x, settles (k x) Q Qe
  end.

(** [always t Q]: [t] never throws, and every result it can have satisfies
    [Q]. *)
Definition always {A} (t : task E A) (Q : A -> Prop) : Prop :=
  settles t Q (fun _ => False).

Lemma settles_mono {A} (t : task E A) (Q Q' : A -> Prop) (Qe Qe' : exn -> Prop) :
  (forall a, Q a -> Q' a) -> (forall e, Qe e -> Qe' e) ->
  settles t Q Qe -> settles t Q' Qe'.
Proof.
  intros HQ HQe. induction t as [a|e|X ev k IH]; simpl; auto.
Qed.

Lemma settles_bind {A B} (t : task E A) (f : A -> task E B) Q Qe :
  settles t (fun a => settles (f a) Q Qe) Qe -> settles (bind t f) Q Qe.
Proof. induction t as [a|e|X ev k IH]; simpl; auto. Qed.

Lemma settles_try_catch {A} (t : task E A) (h : exn -> task E A) Q Qe :
  settles t Q (fun e => settles (h e) Q Qe) -> settles (try_catch t h) Q Qe.
Proof. induction t as [a|e|X ev k IH]; simpl; auto. Qed.

Lemma settles_call {X} (ev : E X) (Q : X -> Prop) Qe :
  (forall x, Q x) -> settles (call ev) Q Qe.
Proof. intros H x. apply H. Qed.

Lemma settles_await {X} (ev : E (exn + X)%type) (Q : X -> Prop) (Qe : exn -> Prop) :
  (forall x, Q x) -> (forall e, Qe e) -> settles (await ev) Q Qe.
Proof. intros HQ HQe [e|x]; simpl; auto. Qed.

Lemma always_mono {A} (t : task E A) (Q Q' : A -> Prop) :
  (forall a, Q a -> Q' a) -> always t Q -> always t Q'.
Proof. intros HQ. apply settles_mono; auto. Qed.

Lemma always_bind {A B} (t : task E A) (f : A -> task E B) Q Q' :
  always t Q -> (forall a, Q a -> always (f a) Q') -> always (bind t f) Q'.
Proof.
  intros Ht Hf. apply settles_bind.
  eapply settles_mono; [| |exact Ht]; simpl; auto.
Qed.

(** A [try] block whose handler recovers never throws. *)
Lemma always_try_catch {A} (t : task E A) (h : exn -> task E A) Q (Qe : exn -> Prop) :
  settles t Q Qe -> (forall e, Qe e -> always (h e) Q) -> always (try_catch t h) Q.
Proof.
  intros Ht Hh. apply settles_try_catch.
  eapply settles_mono; [| |exact Ht]; simpl; auto.
Qed.

(** An outcome in every environment is in particular the outcome of one
    atomic segment that ends the task. *)
Lemma settles_run_sync {A M} (handle_sync : forall X, E X -> M -> option (M * X))
    (t : task E A) Q Qe (m : M) :
  settles t Q Qe ->
  match run_sync handle_sync m t with
  | (_, Ret a) => Q a
  | (_, Throw e) => Qe e
  | (_, Vis ev k) => forall x, settles (k x) Q Qe
  end.
Proof.
  revert m. induction t as [a|e|X ev k IH]; intros m; simpl; auto.
  intros H. destruct (handle_sync X ev m) as [[m' x]|]; [apply IH, H|exact H].
Qed.

End Outcomes.
End TaskOutcomes.

(** * Windows of an array *)

Module JSArrays.

(** [array.slice(i, i + size)] for a start index inside or past the
    array. *)
Lemma slice_window {A} (l : list A) (i size : nat) :
  slice l (Z.of_nat i) (Z.of_nat (i + size)) = take size (drop i l).
Proof.
  unfold slice, clamp_index.
  rewrite (proj2 (Z.ltb_ge _ _)) by lia. rewrite (proj2 (Z.ltb_ge _ _)) by lia.
  destruct (decide (i <= length l)%nat) as [Hi|Hi].
  - rewrite (Z.min_l (Z.of_nat i)) by lia. rewrite Nat2Z.id.
    destruct (decide (i + size <= length l)%nat) as [Hs|Hs].
    + rewrite Z.min_l by lia. f_equal. lia.
    + rewrite Z.min_r by lia.
      rewrite (take_ge (drop i l) size) by (rewrite length_drop; lia).
      apply take_ge. rewrite length_drop. lia.
  - rewrite !Z.min_r by lia. rewrite Z.sub_diag. simpl.
    rewrite (drop_ge l i) by lia. destruct size; reflexivity.
Qed.

(** The number of windows of 30 elements still to come from index [i]. *)
Lemma windows_left (len i : nat) :
  (i < len)%nat ->
  ((len - i + 29) / 30 = S ((len - (i + 30) + 29) / 30))%nat.
Proof.
  intros Hi. destruct (decide (i + 30 <= len)%nat) as [Hfull|Hlast].
  - replace (len - i + 29)%nat with ((len - (i + 30) + 29) + 1 * 30)%nat by lia.
    rewrite Nat.div_add by lia. lia.
  - replace (len - (i + 30))%nat with 0%nat by lia.
    replace ((0 + 29) / 30)%nat with 0%nat by reflexivity.
    symmetry. apply (Nat.div_unique _ 30 1 (len - i - 1)); lia.
Qed.

End JSArrays.

(** * Further properties of the discovery and enrichment service *)

Module PoolServiceProperties.
Import PoolService JSFacts TaskOutcomes JSArrays.

(** ** chunkArray *)

Lemma chunk_loop_concat {A} (fuel : nat) (array : list A) (size i : nat) :
  (0 < size)%nat -> (length array <= i + fuel)%nat ->
  concat (chunk_loop fuel array size i) = drop i array.
Proof.
  intros Hsize. revert i. induction fuel as [|fuel IH]; intros i Hfuel; simpl.
  - symmetry. apply drop_ge. lia.
  - case_bool_decide as Hi; simpl.
    + rewrite IH by lia. rewrite slice_window, <- drop_drop. apply take_drop.
    + symmetry. apply drop_ge. lia.
Qed.

Lemma chunk_loop_lookup {A} (fuel : nat) (array : list A) (size i j : nat) :
  (0 < size)%nat -> (length array <= i + fuel)%nat ->
  chunk_loop fuel array size i !! j =
  if bool_decide (i + j * size < length array)%nat
  then Some (take size (drop (i + j * size) array)) else None.
Proof.
  intros Hsize. revert i j. induction fuel as [|fuel IH]; intros i j Hfuel; simpl.
  - rewrite bool_decide_eq_false_2 by lia. reflexivity.
  - case_bool_decide as Hi; simpl.
    + destruct j as [|j]; simpl.
      * rewrite Nat.add_0_r, bool_decide_eq_true_2 by lia.
        rewrite slice_window. reflexivity.
      * rewrite IH by lia.
        replace (i + size + j * size)%nat with (i + (size + j * size))%nat by lia.
        reflexivity.
    + rewrite bool_decide_eq_false_2 by nia. reflexivity.
Qed.

(** X1.  Chunking loses nothing and invents nothing: for a positive chunk
    size, the chunks of [chunkArray], put end to end, are the array
    itself, in order. *)
Theorem chunkArray_concat {A} (array : list A) (size : nat) :
  (0 < size)%nat -> concat (chunkArray array size) = array.
Proof.
  intros Hsize. unfold chunkArray.
  rewrite chunk_loop_concat by lia. reflexivity.
Qed.

Lemma chunkArray_concat_witness :
  (0 < 2)%nat /\ concat (chunkArray ["a"; "b"; "c"; "d"; "e"] 2) = ["a"; "b"; "c"; "d"; "e"].
Proof. split; [lia|apply (chunkArray_concat ["a"; "b"; "c"; "d"; "e"] 2); lia]. Defined.

(** X2.  For a positive chunk size, the chunk at index [j] is the window
    of [size] elements that starts at [j * size], cut at the end of the
    array; there is a chunk at index [j] exactly when that window starts
    inside the array.  So no chunk is empty, none is longer than [size],
    and only the last one can be shorter. *)
Theorem chunkArray_windows {A} (array : list A) (size j : nat) :
  (0 < size)%nat ->
  chunkArray array size !! j =
    (if bool_decide (j * size < length array)%nat
     then Some (take size (drop (j * size) array)) else None) /\
  (forall chunk, chunkArray array size !! j = Some chunk ->
     (0 < length chunk <= size)%nat /\
     (((j + 1) * size <= length array)%nat -> length chunk = size)).
Proof.
  intros Hsize.
  assert (chunkArray array size !! j =
          if bool_decide (j * size < length array)%nat
          then Some (take size (drop (j * size) array)) else None) as Hj.
  { unfold chunkArray. rewrite chunk_loop_lookup by lia. reflexivity. }
  split; [exact Hj|].
  intros chunk Hchunk. rewrite Hj in Hchunk.
  case_bool_decide as Hin; [|discriminate].
  injection Hchunk as <-. rewrite length_take, length_drop. lia.
Qed.

Lemma chunkArray_windows_witness :
  (0 < 2)%nat /\ chunkArray ["a"; "b"; "c"; "d"; "e"] 2 !! 2%nat = Some ["e"].
Proof.
  split; [lia|].
  exact (proj1 (chunkArray_windows ["a"; "b"; "c"; "d"; "e"] 2 2 ltac:(lia))).
Defined.

(** ** fetchWethPrice *)

(** The module state after a successful read at time [now]. *)
Definition with_cached_price (m : mem) (price : R) (now : Z) : mem :=
  {| isUpdating := isUpdating m; cachedWethPrice := Some price;
     wethPriceLastUpdated := now; clock := clock m; running := running m |}.

Definition at_time (m : mem) (now : Z) : mem :=
  {| isUpdating := isUpdating m; cachedWethPrice := cachedWethPrice m;
     wethPriceLastUpdated := wethPriceLastUpdated m; clock := now;
     running := running m |}.

Lemma fetchWethPrice_hit_or_read (m : mem) (cached : R) :
  cachedWethPrice m = Some cached -> cached <> 0%R ->
  run_sync m fetchWethPrice =
    if bool_decide (clock m - wethPriceLastUpdated m < 900000)
    then (m, Ret cached)
    else (m, Vis ReadWethUsdcPool (PoolServiceFacts.after_pool_read (clock m))).
Proof.
  intros Hc Hnz. unfold fetchWethPrice. cbn. rewrite Hc. cbn.
  unfold truthy. destruct (Req_dec_T cached 0) as [Hz|_]; [contradiction|].
  cbn. change WETH_PRICE_CACHE_TTL with 900000.
  case_bool_decide; reflexivity.
Qed.

(** X3.  With a non-zero cached price, [fetchWethPrice] answers from the
    cache, in the same atomic segment and without touching the module
    state, while the cache is younger than 15 minutes; from 15 minutes on
    it waits for a read of the WETH/USDC pool. *)
Theorem fetchWethPrice_cache_policy (m : mem) (cached : R) :
  cachedWethPrice m = Some cached -> cached <> 0%R ->
  (clock m - wethPriceLastUpdated m < 900000 ->
     run_sync m fetchWethPrice = (m, Ret cached)) /\
  (900000 <= clock m - wethPriceLastUpdated m ->
     run_sync m fetchWethPrice =
       (m, Vis ReadWethUsdcPool (PoolServiceFacts.after_pool_read (clock m)))).
Proof.
  intros Hc Hnz. rewrite (fetchWethPrice_hit_or_read m cached Hc Hnz).
  split; intros H.
  - rewrite bool_decide_eq_true_2 by exact H. reflexivity.
  - rewrite bool_decide_eq_false_2 by lia. reflexivity.
Qed.

Definition warm (price : R) (last now : Z) : mem :=
  {| isUpdating := false; cachedWethPrice := Some price;
     wethPriceLastUpdated := last; clock := now; running := 0 |}.

Lemma fetchWethPrice_cache_policy_witness :
  run_sync (warm 2000 0 899999) fetchWethPrice = (warm 2000 0 899999, Ret 2000%R) /\
  run_sync (warm 2000 0 900000) fetchWethPrice =
    (warm 2000 0 900000, Vis ReadWethUsdcPool (PoolServiceFacts.after_pool_read 900000)).
Proof.
  assert (2000 <> 0)%R as Hnz by lra.
  split.
  - apply (proj1 (fetchWethPrice_cache_policy (warm 2000 0 899999) 2000 eq_refl Hnz)).
    simpl. lia.
  - apply (proj2 (fetchWethPrice_cache_policy (warm 2000 0 900000) 2000 eq_refl Hnz)).
    simpl. lia.
Defined.

Lemma calibration (tick_ : Z) :
  (Math_pow 1.0001 tick_ * (referencePrice / Math_pow 1.0001 referenceTick)
   = 1911 * powerRZ 1.0001 (tick_ + 200768))%R.
Proof.
  unfold Math_pow, referencePrice, referenceTick.
  rewrite powerRZ_add by lra.
  replace (-200768) with (- (200768)) by reflexivity.
  rewrite powerRZ_neg'.
  assert (0 < powerRZ 1.0001 200768)%R as Hpos by (apply powerRZ_lt; lra).
  field. lra.
Qed.

(** X4.  A successful pool read, in a call that began at time [now],
    prices WETH at [1911 * 1.0001 ^ (tick + 200768)] (in exact
    arithmetic), whichever of the two pool tokens comes first: the price
    is positive, it is 1911 at the calibration tick -200768, it is cached
    with the time stamp [now], and every call made less than 15 minutes
    after [now] returns it without another read. *)
Theorem fetchWethPrice_successful_read
    (m : mem) (now tick_ : Z) (token0_ token1_ : address) :
  exists price : R,
    run_sync m (PoolServiceFacts.after_pool_read now (inr (token0_, token1_, tick_)))
      = (with_cached_price m price now, Ret price) /\
    price = (1911 * powerRZ 1.0001 (tick_ + 200768))%R /\
    (0 < price)%R /\
    (tick_ = -200768 -> price = 1911%R) /\
    (forall later, later - now < 900000 ->
       run_sync (at_time (with_cached_price m price now) later) fetchWethPrice
         = (at_time (with_cached_price m price now) later, Ret price)).
Proof.
  exists (Math_pow 1.0001 tick_ * (referencePrice / Math_pow 1.0001 referenceTick))%R.
  assert (0 < Math_pow 1.0001 tick_ * (referencePrice / Math_pow 1.0001 referenceTick))%R
    as Hpos by apply PoolServiceFacts.calibrated_price_pos.
  split; [reflexivity|]. split; [apply calibration|]. split; [exact Hpos|]. split.
  - intros ->. rewrite calibration. simpl. lra.
  - intros later Hlater.
    match goal with
    | |- run_sync ?m' _ = (_, Ret ?p) =>
        rewrite (fetchWethPrice_hit_or_read m' p eq_refl) by lra
    end.
    rewrite bool_decide_eq_true_2 by (simpl; lia). reflexivity.
Qed.

(** ** Decimal strings *)

Lemma digit_of_ascii_range (c : ascii) (d : Z) :
  digit_of_ascii c = Some d -> 0 <= d <= 9.
Proof.
  unfold digit_of_ascii.
  destruct ((48 <=? nat_of_ascii c)%nat && (nat_of_ascii c <=? 57)%nat)%bool eqn:Hc;
    [|discriminate].
  apply andb_true_iff in Hc as [H1 H2].
  apply Nat.leb_le in H1. apply Nat.leb_le in H2.
  intros [= <-]. lia.
Qed.

Lemma parse_digits_ge (s : string) (acc n : Z) :
  parse_digits s acc = Some n -> 0 <= acc -> acc <= n.
Proof.
  revert acc. induction s as [|c s IH]; intros acc; simpl.
  - intros [= <-] _. lia.
  - destruct (digit_of_ascii c) as [d|] eqn:Hd; [|discriminate].
    apply digit_of_ascii_range in Hd. intros H Hacc.
    apply IH in H; lia.
Qed.

Lemma BigInt_nonneg (s : string) (n : Z) : BigInt s = Some n -> 0 <= n.
Proof. intros H. apply parse_digits_ge in H; lia. Qed.

Lemma digit_of_pretty_N_char (d : N) :
  (d < 10)%N -> digit_of_ascii (pretty_N_char d) = Some (Z.of_N d).
Proof.
  intros Hd.
  assert (d = 0 \/ d = 1 \/ d = 2 \/ d = 3 \/ d = 4 \/ d = 5 \/ d = 6 \/ d = 7
          \/ d = 8 \/ d = 9)%N as H by lia.
  destruct H as [->|[->|[->|[->|[->|[->|[->|[->|[->| ->]]]]]]]]]; reflexivity.
Qed.

(** The digits [pretty_N_go] puts in front of [s] read as [x]. *)
Lemma parse_pretty_N_go (x : N) :
  forall s, exists k : Z, 0 <= k /\
    forall acc, parse_digits (pretty_N_go x s) acc
                = parse_digits s (acc * 10 ^ k + Z.of_N x).
Proof.
  induction (N.lt_wf_0 x) as [x _ IH]. intros s.
  destruct (decide (x = 0)%N) as [->|Hx].
  - exists 0. split; [lia|]. intros acc. rewrite pretty_N_go_0. f_equal. simpl. lia.
  - rewrite pretty_N_go_step by lia.
    destruct (IH (x `div` 10)%N) with (s := String (pretty_N_char (x `mod` 10)) s)
      as (k & Hk & Hparse).
    { apply N.div_lt; lia. }
    exists (k + 1). split; [lia|]. intros acc. rewrite Hparse. simpl.
    rewrite digit_of_pretty_N_char by (apply N.mod_lt; lia).
    f_equal. rewrite Z.pow_add_r by lia.
    pose proof (N.div_mod x 10 ltac:(lia)) as Hdm.
    rewrite Z.pow_1_r. lia.
Qed.

(** [BigInt(n.toString())] is [n], for every non-negative integer. *)
Lemma BigInt_toString (n : Z) : 0 <= n -> BigInt (pretty n) = Some n.
Proof.
  intros Hn. destruct n as [|p|p]; [reflexivity| |lia].
  unfold pretty, pretty_Z, pretty, pretty_positive, pretty, pretty_N.
  rewrite decide_False by discriminate.
  destruct (parse_pretty_N_go (N.pos p) "") as (k & _ & Hparse).
  unfold BigInt. rewrite Hparse. simpl. reflexivity.
Qed.

(** ** calculateMarketCap *)

(** X5.  For a supply string of more than 15 digits the supply is divided
    as a big integer, and the fractional part the code adds is always
    zero: the market cap is [floor(totalSupply / 10^decimals) * price],
    so whatever the supply holds below one whole token is dropped.
    (Decimals up to 22, where [Math.pow(10, decimals)] is an exact
    integer; numbers in exact arithmetic.) *)
Theorem calculateMarketCap_long_supply_truncates
    (totalSupply_ : string) (supply decimals_ : Z) (price : R) :
  (15 < String.length totalSupply_)%nat ->
  BigInt totalSupply_ = Some supply ->
  0 <= decimals_ <= 22 ->
  price <> 0%R ->
  calculateMarketCap totalSupply_ decimals_ price
    = (IZR (supply / 10 ^ decimals_) * price)%R.
Proof.
  intros Hlen Hbig Hd Hprice. unfold calculateMarketCap.
  rewrite (bool_decide_eq_false_2 (totalSupply_ = ""))
    by (intros ->; simpl in Hlen; lia).
  unfold truthy. destruct (Req_dec_T price 0) as [|_]; [contradiction|]. simpl.
  rewrite (bool_decide_eq_true_2 _ Hlen). rewrite Hbig. simpl.
  rewrite (bool_decide_eq_false_2 (decimals_ < 0)) by lia.
  assert (0 < 10 ^ decimals_) as Hpos by (apply Z.pow_pos_nonneg; lia).
  rewrite bool_decide_eq_false_2 by lia.
  pose proof (BigInt_nonneg _ _ Hbig) as Hsupply.
  rewrite Z.quot_div_nonneg by lia.
  rewrite Z.rem_mod_nonneg by lia.
  rewrite (Z.quot_small (supply mod 10 ^ decimals_)) by (apply Z.mod_pos_bound; lia).
  rewrite Rplus_0_r. reflexivity.
Qed.

Lemma calculateMarketCap_long_supply_truncates_witness :
  calculateMarketCap "1999999999999999999" 18 2
    = (IZR (1999999999999999999 / 10 ^ 18) * 2)%R.
Proof.
  apply (calculateMarketCap_long_supply_truncates "1999999999999999999"
           1999999999999999999 18 2).
  - simpl. lia.
  - reflexivity.
  - lia.
  - lra.
Defined.

(** X6.  [calculateMarketCap] answers 0 instead of failing: for an empty
    supply string, for a zero price, and, on the big-integer path (a
    supply string of more than 15 characters), for negative decimals,
    where the divisor is [BigInt(0)] and the division throws. *)
Theorem calculateMarketCap_zero_on_bad_input
    (totalSupply_ : string) (decimals_ : Z) (price : R) :
  totalSupply_ = "" \/ price = 0%R \/
  ((15 < String.length totalSupply_)%nat /\ decimals_ < 0) ->
  calculateMarketCap totalSupply_ decimals_ price = 0%R.
Proof.
  intros H. unfold calculateMarketCap.
  destruct (bool_decide (totalSupply_ = "")) eqn:Hempty; [reflexivity|].
  apply bool_decide_eq_false in Hempty.
  unfold truthy. destruct (Req_dec_T price 0) as [|Hprice]; [reflexivity|]. simpl.
  destruct H as [H|[H|[Hlen H]]]; [contradiction..|].
  rewrite (bool_decide_eq_true_2 _ Hlen).
  destruct (BigInt totalSupply_) as [supply|]; simpl; [|reflexivity].
  rewrite (bool_decide_eq_true_2 _ H). simpl. reflexivity.
Qed.

Lemma calculateMarketCap_zero_on_bad_input_witness :
  calculateMarketCap "1000000000000000000" (-1) 2 = 0%R /\
  calculateMarketCap "" 18 2 = 0%R.
Proof.
  split.
  - apply (calculateMarketCap_zero_on_bad_input "1000000000000000000" (-1) 2).
    right. right. split; [simpl; lia|lia].
  - apply (calculateMarketCap_zero_on_bad_input "" 18 2).
    left. reflexivity.
Defined.

(** ** getPoolsData *)

Lemma try_statements_inv {S} (P : S -> Prop) (statements : list (S -> option S)) (s : S) :
  Forall (fun st => forall s s', P s -> st s = Some s' -> P s') statements ->
  P s -> P (try_statements statements s).
Proof.
  intros Hall. revert s. induction Hall as [|st rest Hst _ IH]; intros s Hs; simpl.
  - exact Hs.
  - destruct (st s) as [s'|] eqn:Hs'; [|exact Hs].
    apply IH. exact (Hst s s' Hs Hs').
Qed.

(** An assignment to a field other than the address and the label. *)
Definition keeps_identity (assign : pool -> pool) : Prop :=
  forall p, pool_address (assign p) = pool_address p /\ dex (assign p) = dex p.

(** [cur] has the pools of [base], under the same keys and in the same
    order, each with the address and the label it has in [base]. *)
Definition same_pools (base cur : obj pool) : Prop :=
  obj_keys cur = obj_keys base /\
  forall a p', obj_get cur a = Some p' ->
    exists p, obj_get base a = Some p /\
      pool_address p' = pool_address p /\ dex p' = dex p.

Lemma same_pools_refl (base : obj pool) : same_pools base base.
Proof. split; [reflexivity|]. intros a p' H. exists p'. auto. Qed.

Lemma same_pools_set (base cur : obj pool) (a : address) (p q : pool) :
  same_pools base cur -> obj_get cur a = Some p ->
  pool_address q = pool_address p -> dex q = dex p ->
  same_pools base (obj_set cur a q).
Proof.
  intros [Hkeys Hpools] Hget Haddr Hdex. split.
  - unfold obj_keys in *. rewrite obj_set_keys_present; [exact Hkeys|].
    eapply obj_get_Some_key, Hget.
  - intros a' p' Hget'. rewrite obj_get_set in Hget'.
    destruct (decide (a = a')) as [<-|Hne].
    + injection Hget' as <-. destruct (Hpools a p Hget) as (p0 & H0 & H1 & H2).
      exists p0. split; [exact H0|]. split; congruence.
    + apply Hpools, Hget'.
Qed.

Lemma update_if_success_same_pools {V} (base : obj pool) (results : list callResult)
    (i : nat) (poolAddress : option address) (decode : abi_value -> option V)
    (assign : V -> pool -> pool) (cur cur' : obj pool) :
  (forall v, keeps_identity (assign v)) ->
  same_pools base cur ->
  update_if_success results i poolAddress decode assign cur = Some cur' ->
  same_pools base cur'.
Proof.
  intros Hassign Hsame. unfold update_if_success.
  destruct (results !! i) as [r|]; simpl; [|discriminate].
  destruct poolAddress as [a|]; simpl; [|intros [= <-]; exact Hsame].
  destruct (obj_get cur a) as [p|] eqn:Hget; [|intros [= <-]; exact Hsame].
  destruct (success r); [|intros [= <-]; exact Hsame].
  destruct (decode (returnData r)) as [v|]; simpl; [|discriminate].
  intros [= <-]. destruct (Hassign v p) as [H1 H2].
  eapply same_pools_set; eassumption.
Qed.

Lemma update_pool_same_pools (base : obj pool) (results : list callResult) (i : nat)
    (poolAddress : option address) (cur : obj pool) :
  same_pools base cur -> same_pools base (update_pool results i poolAddress cur).
Proof.
  intros Hsame. unfold update_pool.
  apply (try_statements_inv (same_pools base)); [|exact Hsame].
  repeat (apply Forall_cons; split;
          [intros s s' Hs Hst;
           (eapply update_if_success_same_pools; [|exact Hs|exact Hst]);
           intros v p; split; reflexivity|]).
  apply Forall_nil. exact I.
Qed.

Lemma pools_data_loop_same_pools (base : obj pool) (fuel : nat)
    (poolAddresses : list address) (results : list callResult) (i currentPool : nat)
    (cur : obj pool) :
  same_pools base cur ->
  same_pools base (pools_data_loop fuel poolAddresses results i currentPool cur).
Proof.
  revert i currentPool cur.
  induction fuel as [|fuel IH]; intros i currentPool cur Hsame; simpl; [exact Hsame|].
  case_bool_decide; [|exact Hsame].
  apply IH, update_pool_same_pools, Hsame.
Qed.

(** X7.  [getPoolsData] never throws and never adds, drops, renames or
    reorders a pool: whatever the multicall answers (a rejection, too few
    or too many results, results that do not decode), the map it returns
    has the keys of [poolDataMap], in the same order, and every pool keeps
    its address and its DEX label.  With no pool address at all it
    returns [poolDataMap] itself in the same atomic segment, without a
    multicall. *)
Theorem getPoolsData_keeps_the_pools
    (poolAddresses : list address) (poolDataMap_ : obj pool) :
  always (getPoolsData poolAddresses poolDataMap_) (same_pools poolDataMap_) /\
  forall m : mem, run_sync m (getPoolsData [] poolDataMap_) = (m, Ret poolDataMap_).
Proof.
  split; [|reflexivity].
  unfold getPoolsData.
  apply always_try_catch with (Qe := fun _ => True).
  - case_bool_decide; [apply same_pools_refl|].
    unfold mbind, task_bind. apply settles_bind.
    intros [e|results]; simpl; [exact I|].
    apply pools_data_loop_same_pools, same_pools_refl.
  - intros e _. apply same_pools_refl.
Qed.

Lemma update_pool_other (results : list callResult) (i : nat)
    (poolAddress : option address) (cur : obj pool) (a : address) :
  poolAddress <> Some a ->
  obj_get (update_pool results i poolAddress cur) a = obj_get cur a.
Proof.
  intros Hne. unfold update_pool.
  apply (try_statements_inv (fun cur' => obj_get cur' a = obj_get cur a)); [|reflexivity].
  repeat (apply Forall_cons; split;
          [intros s s' Hs; unfold update_if_success;
           (destruct (results !! _) as [r|]; simpl; [|discriminate]);
           (destruct poolAddress as [a'|]; simpl; [|intros [= <-]; exact Hs]);
           (destruct (obj_get s a') as [p|]; [|intros [= <-]; exact Hs]);
           (destruct (success r); [|intros [= <-]; exact Hs]);
           (destruct (_ (returnData r)) as [v|]; simpl; [|discriminate]);
           intros [= <-]; rewrite obj_get_set;
           (destruct (decide (a' = a)) as [->|_]; [congruence|exact Hs])|]).
  apply Forall_nil. exact I.
Qed.

Lemma pools_data_loop_other (fuel : nat) (poolAddresses : list address)
    (results : list callResult) (i currentPool : nat) (cur : obj pool) (a : address) :
  (forall c, (currentPool <= c)%nat -> poolAddresses !! c <> Some a) ->
  obj_get (pools_data_loop fuel poolAddresses results i currentPool cur) a = obj_get cur a.
Proof.
  revert i currentPool cur.
  induction fuel as [|fuel IH]; intros i currentPool cur Hother; simpl; [reflexivity|].
  case_bool_decide; [|reflexivity].
  rewrite IH by (intros c Hc; apply Hother; lia).
  apply update_pool_other, Hother. lia.
Qed.

(** The pool object after the five assignments. *)
Definition refreshed (p : pool) (token0_ token1_ : address) (fee_ liquidity_ : Z)
    (sqrtPriceX96_ tick_ : Z) : pool :=
  {| pool_address := pool_address p;
     token0 := toLowerCase token0_;
     token1 := toLowerCase token1_;
     fee := fee_;
     dex := dex p;
     liquidity := Some (pretty liquidity_);
     slot0 := Some (pretty sqrtPriceX96_, tick_) |}.

(** The five results of one pool, all successful and of the right type. *)
Definition pool_read (results : list callResult) (i : nat) (token0_ token1_ : address)
    (fee_ liquidity_ sqrtPriceX96_ tick_ : Z) : Prop :=
  results !! i = Some {| success := true; returnData := AbiAddress token0_ |} /\
  results !! (i + 1)%nat = Some {| success := true; returnData := AbiAddress token1_ |} /\
  results !! (i + 2)%nat = Some {| success := true; returnData := AbiUint fee_ |} /\
  results !! (i + 3)%nat = Some {| success := true; returnData := AbiUint liquidity_ |} /\
  results !! (i + 4)%nat =
    Some {| success := true; returnData := AbiSlot0 sqrtPriceX96_ tick_ |}.

Lemma update_pool_read (results : list callResult) (i : nat) (a : address)
    (cur : obj pool) (p : pool) token0_ token1_ fee_ liquidity_ sqrtPriceX96_ tick_ :
  obj_get cur a = Some p ->
  pool_read results i token0_ token1_ fee_ liquidity_ sqrtPriceX96_ tick_ ->
  obj_get (update_pool results i (Some a) cur) a
    = Some (refreshed p token0_ token1_ fee_ liquidity_ sqrtPriceX96_ tick_).
Proof.
  intros Hget (H0 & H1 & H2 & H3 & H4).
  unfold update_pool, try_statements, update_if_success.
  rewrite H0. simpl. rewrite Hget. simpl.
  rewrite H1. simpl. rewrite obj_get_set, decide_True by reflexivity. simpl.
  rewrite H2. simpl. rewrite obj_get_set, decide_True by reflexivity. simpl.
  rewrite H3. simpl. rewrite obj_get_set, decide_True by reflexivity. simpl.
  rewrite H4. simpl. rewrite obj_get_set, decide_True by reflexivity. simpl.
  rewrite obj_get_set, decide_True by reflexivity. reflexivity.
Qed.

Lemma pools_data_loop_read (fuel : nat) (poolAddresses : list address)
    (results : list callResult) (currentPool j : nat) (cur : obj pool) (a : address)
    (p : pool) token0_ token1_ fee_ liquidity_ sqrtPriceX96_ tick_ :
  NoDup poolAddresses ->
  poolAddresses !! j = Some a ->
  (currentPool <= j)%nat ->
  (length results <= 5 * currentPool + fuel)%nat ->
  obj_get cur a = Some p ->
  pool_read results (5 * j) token0_ token1_ fee_ liquidity_ sqrtPriceX96_ tick_ ->
  obj_get (pools_data_loop fuel poolAddresses results (5 * currentPool) currentPool cur) a
    = Some (refreshed p token0_ token1_ fee_ liquidity_ sqrtPriceX96_ tick_).
Proof.
  intros Hnd Hj. revert currentPool cur.
  induction fuel as [|fuel IH]; intros currentPool cur Hle Hfuel Hget Hread.
  - destruct Hread as (H0 & _). apply lookup_lt_Some in H0. lia.
  - assert (5 * j < length results)%nat as Hin
      by (destruct Hread as (H0 & _); apply lookup_lt_Some in H0; exact H0).
    cbn [pools_data_loop]. rewrite bool_decide_eq_true_2 by lia.
    replace (5 * currentPool + 5)%nat with (5 * S currentPool)%nat by lia.
    destruct (decide (currentPool = j)) as [->|Hne].
    + rewrite Hj. rewrite pools_data_loop_other.
      * apply update_pool_read; assumption.
      * intros c Hc Hc'. assert (c = j) by (eapply NoDup_lookup; eassumption). lia.
    + apply IH; [lia|lia| |exact Hread].
      rewrite update_pool_other; [exact Hget|].
      intros Hc. assert (currentPool = j) by (eapply NoDup_lookup; eassumption). lia.
Qed.

Lemma pool_state_calls_length (poolAddresses : list address) :
  length (pool_state_calls poolAddresses) = (5 * length poolAddresses)%nat.
Proof.
  unfold pool_state_calls.
  induction poolAddresses as [|x l IH]; [reflexivity|].
  rewrite bind_cons, length_app, IH. simpl. lia.
Qed.

(** X8.  [getPoolsData] asks for five values per pool, in one multicall.
    For a pool of [poolDataMap] that is listed once, whose five results
    came back successful and decode at their types, the returned map holds
    the pool with [token0] and [token1] lower-cased, the fee, the tick,
    and liquidity and [sqrtPriceX96] as decimal strings; the liquidity
    string reads back through [BigInt] as the integer the pool returned.
    What the multicall returned for the other pools, decodable or not,
    does not matter. *)
Theorem getPoolsData_decodes_each_pool
    (poolAddresses : list address) (poolDataMap_ : obj pool)
    (results : list callResult) (j : nat) (a : address) (p : pool)
    (token0_ token1_ : address) (fee_ liquidity_ sqrtPriceX96_ tick_ : Z) (m : mem) :
  NoDup poolAddresses ->
  poolAddresses !! j = Some a ->
  obj_get poolDataMap_ a = Some p ->
  pool_read results (5 * j) token0_ token1_ fee_ liquidity_ sqrtPriceX96_ tick_ ->
  0 <= liquidity_ ->
  exists (k : (exn + list callResult)%type -> task (obj pool)) (enriched : obj pool),
    run_sync m (getPoolsData poolAddresses poolDataMap_)
      = (m, Vis (Aggregate3 (pool_state_calls poolAddresses)) k) /\
    length (pool_state_calls poolAddresses) = (5 * length poolAddresses)%nat /\
    run_sync m (k (inr results)) = (m, Ret enriched) /\
    obj_get enriched a
      = Some (refreshed p token0_ token1_ fee_ liquidity_ sqrtPriceX96_ tick_) /\
    BigInt (pretty liquidity_) = Some liquidity_.
Proof.
  intros Hnd Hj Hget Hread Hliq.
  assert (length poolAddresses <> 0%nat) as Hlen.
  { apply lookup_lt_Some in Hj. lia. }
  unfold getPoolsData. rewrite bool_decide_eq_false_2 by exact Hlen.
  eexists _, _. split; [reflexivity|]. split.
  { apply pool_state_calls_length. }
  split; [reflexivity|]. split; [|apply BigInt_toString, Hliq].
  apply (pools_data_loop_read (length results) poolAddresses results 0 j);
    try assumption; lia.
Qed.

Definition one_pool_address : address := "0x1111111111111111111111111111111111111111".

Definition one_pool : pool :=
  {| pool_address := one_pool_address;
     token0 := "0xabc0000000000000000000000000000000000001";
     token1 := toLowerCase WETH_ADDRESS;
     fee := 3000; dex := "Uniswap V3"; liquidity := None; slot0 := None |}.

Definition one_pool_results : list callResult :=
  [ {| success := true; returnData := AbiAddress "0xAbC0000000000000000000000000000000000001" |};
    {| success := true; returnData := AbiAddress WETH_ADDRESS |};
    {| success := true; returnData := AbiUint 3000 |};
    {| success := true; returnData := AbiUint 9007199254740993 |};
    {| success := true; returnData := AbiSlot0 79228162514264337593543950336 (-12) |} ].

Lemma getPoolsData_decodes_each_pool_witness :
  exists (k : (exn + list callResult)%type -> task (obj pool)) (enriched : obj pool),
    run_sync (warm 2000 0 0) (getPoolsData [one_pool_address] [(one_pool_address, one_pool)])
      = (warm 2000 0 0, Vis (Aggregate3 (pool_state_calls [one_pool_address])) k) /\
    length (pool_state_calls [one_pool_address]) = (5 * 1)%nat /\
    run_sync (warm 2000 0 0) (k (inr one_pool_results)) = (warm 2000 0 0, Ret enriched) /\
    obj_get enriched one_pool_address
      = Some (refreshed one_pool "0xAbC0000000000000000000000000000000000001" WETH_ADDRESS
                3000 9007199254740993 79228162514264337593543950336 (-12)) /\
    BigInt (pretty 9007199254740993) = Some 9007199254740993.
Proof.
  apply (getPoolsData_decodes_each_pool [one_pool_address] [(one_pool_address, one_pool)]
           one_pool_results 0 one_pool_address one_pool).
  - apply NoDup_singleton.
  - reflexivity.
  - reflexivity.
  - repeat split; reflexivity.
  - lia.
Defined.

(** ** getTokensBasicInfo *)

Lemma basic_info_loop_surplus (fuel : nat) (tokenAddresses : list address)
    (results : list callResult) (currentToken : nat) (tokenInfoMap : obj tokenInfo) :
  (currentToken <= length tokenAddresses)%nat ->
  (4 * length tokenAddresses < length results)%nat ->
  (length results <= 4 * currentToken + fuel)%nat ->
  basic_info_loop fuel tokenAddresses results (4 * currentToken) currentToken tokenInfoMap
    = None.
Proof.
  revert currentToken tokenInfoMap.
  induction fuel as [|fuel IH]; intros currentToken tokenInfoMap Hcur Hsurplus Hfuel; [lia|].
  cbn [basic_info_loop]. rewrite bool_decide_eq_true_2 by lia.
  destruct (tokenAddresses !! currentToken) as [a|] eqn:Ha; [|reflexivity].
  cbn [mbind option_bind].
  apply lookup_lt_Some in Ha.
  replace (4 * currentToken + 4)%nat with (4 * S currentToken)%nat by lia.
  apply IH; lia.
Qed.

(** X9.  Two ways in which [getTokensBasicInfo] loses a whole batch
    without throwing: when the multicall is rejected, and when it returns
    more than four results per token (the loop then reads a token address
    past the end of the batch, a [TypeError] outside the inner [try]).
    In both cases it resolves to the empty map, in the same atomic
    segment and without touching the module state. *)
Theorem getTokensBasicInfo_loses_the_batch
    (tokenAddresses : list address) (answer : (exn + list callResult)%type) (m : mem) :
  match answer with
  | inl _ => True
  | inr results => (4 * length tokenAddresses < length results)%nat
  end ->
  run_sync m (getTokensBasicInfo tokenAddresses)
    = (m, Vis (Aggregate3 (basic_info_calls tokenAddresses))
            (PoolServiceFacts.after_aggregate tokenAddresses)) /\
  run_sync m (PoolServiceFacts.after_aggregate tokenAddresses answer) = (m, Ret []).
Proof.
  intros Hanswer. split; [reflexivity|].
  unfold PoolServiceFacts.after_aggregate. destruct answer as [e|results]; cbn.
  - reflexivity.
  - pose proof (basic_info_loop_surplus (length results) tokenAddresses results 0 [])
      as Hloop.
    rewrite Nat.mul_0_r in Hloop. rewrite Hloop by lia. reflexivity.
Qed.

Lemma getTokensBasicInfo_loses_the_batch_witness :
  run_sync (warm 2000 0 0)
    (PoolServiceFacts.after_aggregate ["0xAbC0000000000000000000000000000000000001"]
       (inr (one_pool_results))) = (warm 2000 0 0, Ret []).
Proof.
  apply (getTokensBasicInfo_loses_the_batch ["0xAbC0000000000000000000000000000000000001"]
           (inr one_pool_results) (warm 2000 0 0)).
  simpl. lia.
Defined.

Definition default_fields : basicFields :=
  {| bf_name := ""; bf_symbol := ""; bf_decimals := 18; bf_totalSupply := "0" |}.

(** X10.  The four decodes of a token share one [try] block.  When the
    [name] call of a token succeeded but its return data does not decode
    as a string, the decode throws and the block is abandoned: the token
    is recorded with all four defaults ("", "", 18, "0"), whatever its
    [symbol], [decimals] and [totalSupply] calls returned.  The other
    tokens of the batch (distinct addresses, four results each) are not
    affected: the map still has one entry per token, in order. *)
Theorem getTokensBasicInfo_undecodable_name_resets_the_token
    (tokenAddresses : list address) (results : list callResult)
    (i : nat) (a : address) (r0 : callResult) (m : mem) :
  length results = (4 * length tokenAddresses)%nat ->
  NoDup (toLowerCase <$> tokenAddresses) ->
  tokenAddresses !! i = Some a ->
  results !! (4 * i)%nat = Some r0 ->
  success r0 = true ->
  decode_string (returnData r0) = None ->
  exists tokenInfoMap,
    run_sync m (PoolServiceFacts.after_aggregate tokenAddresses (inr results))
      = (m, Ret tokenInfoMap) /\
    obj_keys tokenInfoMap = toLowerCase <$> tokenAddresses /\
    tokenInfoMap !! i = Some (toLowerCase a, new_tokenInfo (toLowerCase a) default_fields).
Proof.
  intros Hlen Hnodup Hi H0 Hok Hdecode.
  pose proof (PoolServiceFacts.basic_info_loop_spec
                (length results) [] tokenAddresses results []) as Hloop.
  cbn [app length fmap list_fmap] in Hloop. rewrite Nat.mul_0_r in Hloop.
  specialize (Hloop Hlen ltac:(lia) Hnodup).
  exists (PoolServiceFacts.decoded_entries results 0 tokenAddresses).
  split; [|split].
  - unfold PoolServiceFacts.after_aggregate. cbn. rewrite Hloop. reflexivity.
  - apply PoolServiceFacts.decoded_entries_keys.
  - rewrite (PoolServiceFacts.decoded_entries_lookup results 0 tokenAddresses i a Hi).
    rewrite Nat.add_0_l. do 3 f_equal.
    unfold decode_basic_fields, try_statements, decode_if_success.
    rewrite H0. simpl. rewrite Hok, Hdecode. reflexivity.
Qed.

(** The [name] call of the token returned a number. *)
Definition odd_name_results : list callResult :=
  [ {| success := true; returnData := AbiUint 77 |};
    {| success := true; returnData := AbiString "ODD" |};
    {| success := true; returnData := AbiUint 6 |};
    {| success := true; returnData := AbiUint 1000000 |} ].

Lemma getTokensBasicInfo_undecodable_name_resets_the_token_witness :
  exists tokenInfoMap,
    run_sync (warm 2000 0 0)
      (PoolServiceFacts.after_aggregate ["0xAbC0000000000000000000000000000000000001"]
         (inr odd_name_results)) = (warm 2000 0 0, Ret tokenInfoMap) /\
    obj_keys tokenInfoMap = ["0xabc0000000000000000000000000000000000001"] /\
    tokenInfoMap !! 0%nat
      = Some ("0xabc0000000000000000000000000000000000001",
              new_tokenInfo "0xabc0000000000000000000000000000000000001" default_fields).
Proof.
  apply (getTokensBasicInfo_undecodable_name_resets_the_token
           ["0xAbC0000000000000000000000000000000000001"] odd_name_results 0
           "0xAbC0000000000000000000000000000000000001"
           {| success := true; returnData := AbiUint 77 |} (warm 2000 0 0)).
  - reflexivity.
  - apply NoDup_singleton.
  - reflexivity.
  - reflexivity.
  - reflexivity.
  - reflexivity.
Defined.

(** ** findWethPoolsBatched *)

(** What is recorded about a pool listed under [poolAddress]. *)
Definition recorded_pool (poolAddress : address) (p : pool) : Prop :=
  pool_address p = poolAddress /\ dex p = "Uniswap V3" /\
  (token0 p = toLowerCase WETH_ADDRESS \/ token1 p = toLowerCase WETH_ADDRESS).

(** Every list of [tokenPoolsMap] is free of repetitions and of the zero
    address, and every pool it names has its object in [poolDataMap]. *)
Definition pools_consistent (maps : poolMaps) : Prop :=
  forall token listed, obj_get (tokenPoolsMap maps) token = Some listed ->
    NoDup listed /\
    forall poolAddress, poolAddress ∈ listed ->
      poolAddress <> ZeroAddress /\
      exists p, obj_get (poolDataMap maps) poolAddress = Some p /\
                recorded_pool poolAddress p.

Definition weth_pair (md : callMetadata) : Prop :=
  md_token0 md = toLowerCase WETH_ADDRESS \/ md_token1 md = toLowerCase WETH_ADDRESS.

Definition tracked (keys : list string) (maps : poolMaps) : Prop :=
  pools_consistent maps /\ obj_keys (tokenPoolsMap maps) = keys.

Lemma record_pool_tracked (keys : list string) (metadata : option callMetadata)
    (result : callResult) (maps : poolMaps) :
  match metadata with Some md => weth_pair md | None => True end ->
  tracked keys maps -> tracked keys (record_pool metadata result maps).
Proof.
  intros Hmd [Hcons Hkeys]. unfold record_pool.
  destruct (success result); [|split; assumption].
  destruct (decode_address (returnData result)) as [poolAddress|]; [|split; assumption].
  case_bool_decide as Hzero; [|split; assumption].
  destruct metadata as [md|]; [|split; assumption]. cbv zeta.
  destruct (obj_get (tokenPoolsMap maps) (md_tokenAddress md)) as [known|] eqn:Hknown;
    [|split; assumption].
  case_bool_decide as Hin; [split; assumption|].
  split.
  - intros token listed. cbn [tokenPoolsMap poolDataMap]. rewrite obj_get_set.
    assert (forall q, q ∈ known ->
              q <> ZeroAddress /\
              exists p, obj_get (obj_set (poolDataMap maps) poolAddress
                                   {| pool_address := poolAddress;
                                      token0 := md_token0 md; token1 := md_token1 md;
                                      fee := md_fee md; dex := "Uniswap V3";
                                      liquidity := None; slot0 := None |}) q = Some p /\
                        recorded_pool q p) as Hknown'.
    { intros q Hq. destruct (Hcons _ _ Hknown) as [_ Hq'].
      destruct (Hq' q Hq) as (Hnz & p & Hp & Hrec). split; [exact Hnz|].
      rewrite obj_get_set. destruct (decide (poolAddress = q)) as [->|_].
      - contradiction.
      - exists p. split; assumption. }
    destruct (decide (md_tokenAddress md = token)) as [Heq|Hne].
    + subst token. intros [= <-]. split.
      * apply NoDup_app. split; [apply (Hcons _ _ Hknown)|]. split.
        -- intros x Hx Hx'. apply list_elem_of_singleton in Hx'. subst x. contradiction.
        -- apply NoDup_singleton.
      * intros q Hq. apply elem_of_app in Hq as [Hq|Hq]; [apply Hknown', Hq|].
        apply list_elem_of_singleton in Hq. subst q. split; [exact Hzero|].
        rewrite obj_get_set, decide_True by reflexivity.
        eexists. split; [reflexivity|]. repeat split. exact Hmd.
    + intros Hlisted. destruct (Hcons _ _ Hlisted) as [Hnd Hq']. split; [exact Hnd|].
      intros q Hq. destruct (Hq' q Hq) as (Hnz & p & Hp & Hrec). split; [exact Hnz|].
      rewrite obj_get_set. destruct (decide (poolAddress = q)) as [<-|_].
      * eexists. split; [reflexivity|]. repeat split. exact Hmd.
      * exists p. split; assumption.
  - cbn [tokenPoolsMap]. rewrite <- Hkeys. unfold obj_keys.
    apply obj_set_keys_present. eapply obj_get_Some_key, Hknown.
Qed.

Lemma record_pools_tracked (keys : list string) (results : list callResult)
    (batchMetadata : list callMetadata) (j : nat) (maps : poolMaps) :
  Forall weth_pair batchMetadata ->
  tracked keys maps -> tracked keys (record_pools results batchMetadata j maps).
Proof.
  intros Hmd. revert j maps.
  induction results as [|result results IH]; intros j maps Hmaps; simpl; [exact Hmaps|].
  apply IH, record_pool_tracked; [|exact Hmaps].
  destruct (batchMetadata !! j) as [md|] eqn:Hj; [|exact I].
  rewrite Forall_forall in Hmd. apply Hmd. eapply list_elem_of_lookup_2, Hj.
Qed.

Lemma discovery_loop_tracked (keys : list string) (fuel : nat) (calls : list call3)
    (callMetadata_ : list callMetadata) (i : nat) (maps : poolMaps) :
  Forall weth_pair callMetadata_ ->
  tracked keys maps ->
  settles (discovery_loop fuel calls callMetadata_ i maps) (tracked keys) (fun _ => True).
Proof.
  intros Hmd. revert i maps.
  induction fuel as [|fuel IH]; intros i maps Hmaps; cbn [discovery_loop]; [exact Hmaps|].
  case_bool_decide; [|exact Hmaps].
  unfold mbind, task_bind. apply settles_bind.
  intros [e|results]; simpl; [exact I|].
  apply settles_bind.
  assert (tracked keys
            (record_pools results
               (slice callMetadata_ (Z.of_nat i) (Z.of_nat (i + MULTICALL_BATCH_SIZE)))
               0 maps)) as Hmaps'.
  { apply record_pools_tracked; [|exact Hmaps].
    unfold slice. apply Forall_take, Forall_drop, Hmd. }
  case_bool_decide; simpl.
  - intros []. apply IH, Hmaps'.
  - apply IH, Hmaps'.
Qed.

Lemma pool_calls_weth_pairs (tokenAddresses : list address)
    (calls : list (call3 * callMetadata)) :
  pool_calls tokenAddresses = Some calls -> Forall weth_pair calls.*2.
Proof.
  revert calls. induction tokenAddresses as [|a rest IH]; intros calls; simpl.
  - intros [= <-]. constructor.
  - destruct (getAddress (toLowerCase a)) as [checksumToken|]; simpl; [|discriminate].
    destruct (pool_calls rest) as [calls'|]; simpl; [|discriminate].
    intros [= <-]. simpl.
    repeat (apply Forall_cons; split; [unfold weth_pair; simpl; auto|]).
    apply IH. reflexivity.
Qed.

Lemma empty_pool_lists_spec (tokenAddresses : list address) :
  (forall token listed,
     obj_get (empty_pool_lists tokenAddresses) token = Some listed -> listed = []) /\
  (forall a, a ∈ tokenAddresses ->
     toLowerCase a ∈ obj_keys (empty_pool_lists tokenAddresses)).
Proof.
  unfold empty_pool_lists.
  assert (forall (o : obj (list address)),
            (forall token listed, obj_get o token = Some listed -> listed = []) ->
            (forall token listed,
               obj_get (foldl (fun o a => obj_set o (toLowerCase a) []) o tokenAddresses) token
                 = Some listed -> listed = []) /\
            (forall k, k ∈ obj_keys o \/ k ∈ (toLowerCase <$> tokenAddresses) ->
               k ∈ obj_keys (foldl (fun o a => obj_set o (toLowerCase a) []) o
                               tokenAddresses))) as Hgen.
  { induction tokenAddresses as [|a rest IH]; intros o Ho; simpl.
    - split; [exact Ho|]. intros k [Hk|Hk]; [exact Hk|inversion Hk].
    - destruct (IH (obj_set o (toLowerCase a) [])) as [IH1 IH2].
      { intros token listed. rewrite obj_get_set.
        destruct (decide (toLowerCase a = token)); [intros [= <-]; reflexivity|apply Ho]. }
      split; [exact IH1|].
      intros k Hk. apply IH2.
      assert (k = toLowerCase a \/ k ∈ obj_keys o \/ k ∈ (toLowerCase <$> rest)) as Hcases.
      { destruct Hk as [Hk|Hk]; [auto|].
        apply elem_of_cons in Hk as [->|Hk]; auto. }
      destruct Hcases as [->|[Hk'|Hk']]; [left|left|right; exact Hk'].
      + eapply obj_get_Some_key. rewrite obj_get_set, decide_True by reflexivity.
        reflexivity.
      + unfold obj_keys in *. destruct (decide (toLowerCase a ∈ o.*1)) as [Hin|Hnin].
        * rewrite obj_set_keys_present by exact Hin. exact Hk'.
        * rewrite obj_set_fresh by exact Hnin. rewrite fmap_app.
          apply elem_of_app. left. exact Hk'. }
  destruct (Hgen []) as [H1 H2]; [intros token listed; discriminate|].
  split; [exact H1|].
  intros a Ha. apply H2. right. apply list_elem_of_fmap. exists a. auto.
Qed.

(** X11.  [findWethPoolsBatched] never throws, and the two maps it returns
    fit together whatever the multicalls answer: no list of
    [tokenPoolsMap] names a pool twice or names the zero address, and
    every pool a list names has its object in [poolDataMap], filed under
    its own address, labelled "Uniswap V3", with WETH as one of its two
    tokens.  Either both maps are empty (the failure path) or every token
    of the batch has its list, possibly empty, under its lower-cased
    address. *)
Theorem findWethPoolsBatched_maps_fit_together (tokenAddresses : list address) :
  always (findWethPoolsBatched tokenAddresses)
    (fun maps =>
       pools_consistent maps /\
       (maps = {| tokenPoolsMap := []; poolDataMap := [] |} \/
        forall a, a ∈ tokenAddresses ->
          is_Some (obj_get (tokenPoolsMap maps) (toLowerCase a)))).
Proof.
  unfold findWethPoolsBatched.
  apply always_try_catch with (Qe := fun _ => True).
  - destruct (pool_calls tokenAddresses) as [calls|] eqn:Hcalls; [|exact I].
    destruct (empty_pool_lists_spec tokenAddresses) as [Hempty Hkeys].
    eapply settles_mono;
      [| |apply (discovery_loop_tracked (obj_keys (empty_pool_lists tokenAddresses)))].
    + intros maps [Hcons Hk]. split; [exact Hcons|]. right.
      intros a Ha. specialize (Hkeys a Ha). rewrite <- Hk in Hkeys.
      unfold obj_keys in Hkeys.
      apply list_elem_of_fmap in Hkeys as ([k listed] & Hk' & Hin). simpl in Hk'. subst k.
      clear -Hin. induction (tokenPoolsMap maps) as [|[k0 v0] o IH]; [inversion Hin|].
      simpl. destruct (String.eqb_spec k0 (toLowerCase a)); [eexists; reflexivity|].
      apply IH. apply elem_of_cons in Hin as [[= ? ?]|Hin]; [congruence|exact Hin].
    + auto.
    + eapply pool_calls_weth_pairs, Hcalls.
    + split; [|reflexivity].
      intros token listed Hlisted. cbn [tokenPoolsMap] in Hlisted.
      rewrite (Hempty _ _ Hlisted). split; [constructor|].
      intros q Hq. inversion Hq.
  - intros e _. split; [|left; reflexivity].
    intros token listed Hlisted. discriminate Hlisted.
Qed.

(** ** enrichWithPoolData: a token whose pools hold no liquidity *)

(** X12.  A token with pools none of which has both a tick and a positive
    liquidity (pools that were never read, that are missing from the pool
    map, or whose liquidity is "0") ends the enrichment normally with its
    pool count set, an empty main-pool address, main-pool tick 0, price 0
    and liquidity 0; its main DEX label and its market cap are left as
    they were, and so are its name, symbol, decimals and supply. *)
Theorem enrich_token_without_liquid_pool
    (wethPriceUsd : R) (tokenAddress : address) (tokenData : tokenInfo) :
  pools tokenData <> [] ->
  Forall PoolServiceFacts.reads_as_integer (pools tokenData) ->
  (forall q liq t, Some q ∈ pools tokenData ->
     PoolServiceFacts.candidate q liq t -> liq = 0) ->
  enrich_token wethPriceUsd tokenAddress tokenData
    = (with_price_and_liquidity 0 0
         (with_main_pool "" 0
            (with_pool_count (Z.of_nat (length (pools tokenData))) tokenData)),
       None).
Proof.
  intros Hne Hread Hzero.
  set (info1 := with_pool_count (Z.of_nat (length (pools tokenData))) tokenData).
  destruct (PoolServiceFacts.select_main_pool_spec (pools tokenData) no_selection info1 Hread)
    as (sel' & info' & Heq & Hle & Hmax & Hcase).
  destruct Hcase as [[-> ->]|(best & t & Hin & Hc & Hlt & _)].
  - unfold enrich_token.
    rewrite bool_decide_eq_false_2
      by (intros Hlen; destruct (pools tokenData); [congruence|discriminate Hlen]).
    fold info1. rewrite Heq. cbn [bestPool no_selection mainPoolAddress mainPoolTick].
    destruct (Rlt_dec 0 0) as [Hlt|_]; [lra|]. reflexivity.
  - pose proof (Hzero best _ t Hin Hc) as Hz. simpl in Hlt. lia.
Qed.

Definition idle_pools : list (option pool) :=
  [ Some {| pool_address := one_pool_address;
            token0 := "0xabc0000000000000000000000000000000000001";
            token1 := toLowerCase WETH_ADDRESS;
            fee := 3000; dex := "Uniswap V3";
            liquidity := Some "0"; slot0 := Some ("0", 0) |};
    None;
    Some one_pool ].

Definition idle_token : tokenInfo :=
  with_pools idle_pools
    (new_tokenInfo "0xabc0000000000000000000000000000000000001"
       {| bf_name := "Alpha"; bf_symbol := "ALP"; bf_decimals := 6;
          bf_totalSupply := "1000000" |}).

Lemma enrich_token_without_liquid_pool_witness :
  enrich_token 1911 "0xabc0000000000000000000000000000000000001" idle_token
    = (with_price_and_liquidity 0 0
         (with_main_pool "" 0 (with_pool_count 3 idle_token)), None).
Proof.
  apply (enrich_token_without_liquid_pool 1911
           "0xabc0000000000000000000000000000000000001" idle_token).
  - discriminate.
  - apply Forall_cons. split.
    { intros q l [= <-]. simpl. intros [= <-]. eexists. reflexivity. }
    apply Forall_cons. split; [intros q l [=]|].
    apply Forall_cons. split; [intros q l [= <-]; discriminate|].
    apply Forall_nil. exact I.
  - intros q liq t Hin (l & Hl & Hne & Hbig & Ht).
    apply elem_of_cons in Hin as [[= ->]|Hin].
    + simpl in Hl. injection Hl as <-. injection Hbig as <-. reflexivity.
    + apply elem_of_cons in Hin as [Hin|Hin]; [discriminate Hin|].
      apply list_elem_of_singleton in Hin. injection Hin as ->. discriminate Hl.
Defined.

(** ** enrichWithPoolData: what the enrichment leaves alone *)

(** The fields of a token object that come from the basic-information
    and pool-attachment steps. *)
Definition basic (t : tokenInfo)
    : address * string * string * Z * string * list (option pool) :=
  (info_address t, name t, symbol t, decimals t, totalSupply t, pools t).

(** [cur] has the tokens of [base], under the same keys and in the same
    order, each with the basic fields it has in [base]. *)
Definition same_tokens (base cur : obj tokenInfo) : Prop :=
  obj_keys cur = obj_keys base /\
  forall a t', obj_get cur a = Some t' ->
    exists t, obj_get base a = Some t /\ basic t' = basic t.

Lemma select_main_pool_basic (pools_ : list (option pool)) (sel : selection)
    (info : tokenInfo) :
  basic (select_main_pool pools_ sel info).1.2 = basic info.
Proof.
  revert sel info. induction pools_ as [|p rest IH]; intros sel info; simpl; [reflexivity|].
  destruct p as [pool_|]; [|apply IH].
  destruct (liquidity pool_) as [liquidity_|]; [|apply IH].
  destruct (tick pool_) as [tick_|]; [|apply IH].
  case_bool_decide; [apply IH|].
  destruct (BigInt liquidity_) as [liquidityBigInt|]; [|reflexivity].
  case_bool_decide; [|apply IH].
  rewrite IH. reflexivity.
Qed.

Lemma enrich_token_basic (wethPriceUsd : R) (tokenAddress : address)
    (tokenData : tokenInfo) :
  basic (enrich_token wethPriceUsd tokenAddress tokenData).1 = basic tokenData.
Proof.
  unfold enrich_token. case_bool_decide; [reflexivity|].
  pose proof (select_main_pool_basic (pools tokenData) no_selection
                (with_pool_count (Z.of_nat (length (pools tokenData))) tokenData)) as Hsel.
  destruct (select_main_pool _ _ _) as [[sel info] thrown]. simpl in Hsel.
  destruct thrown as [e|]; [exact Hsel|].
  match goal with |- context [let '(price, liquidity_usd_) := ?x in _] =>
    destruct x as [price liquidity_usd_] end.
  destruct (Rlt_dec 0 price); exact Hsel.
Qed.

Lemma enrich_entries_same_tokens (wethPriceUsd : R) (entries : list (string * tokenInfo))
    (tokenInfoMap : obj tokenInfo) :
  (forall k v, (k, v) ∈ entries ->
     exists v0, obj_get tokenInfoMap k = Some v0 /\ basic v0 = basic v) ->
  same_tokens tokenInfoMap (enrich_entries wethPriceUsd entries tokenInfoMap).
Proof.
  revert tokenInfoMap. induction entries as [|[k v] entries IH]; intros o Hent; simpl.
  - split; [reflexivity|]. intros a t' H. exists t'. auto.
  - destruct (Hent k v) as (v0 & Hget & Hbasic); [left|].
    pose proof (enrich_token_basic wethPriceUsd k v) as Hinfo.
    destruct (enrich_token wethPriceUsd k v) as [info thrown]. simpl in Hinfo.
    assert (same_tokens o (obj_set o k info)) as Hstep.
    { split; [apply obj_set_keys_present; eapply obj_get_Some_key, Hget|].
      intros a t'. rewrite obj_get_set. destruct (decide (k = a)) as [Heq|Hne].
      - subst a. intros [= <-]. exists v0. split; [exact Hget|congruence].
      - intros H. exists t'. auto. }
    destruct thrown as [e|]; [exact Hstep|].
    destruct (IH (obj_set o k info)) as [Hkeys Hvals].
    { intros k2 v2 Hin. rewrite obj_get_set. destruct (decide (k = k2)) as [Heq|Hne].
      - subst k2. exists info. split; [reflexivity|].
        destruct (Hent k v2) as (v0' & Hget' & Hbasic'); [right; exact Hin|].
        congruence.
      - apply Hent. right. exact Hin. }
    destruct Hstep as [Hkeys0 Hvals0]. split; [congruence|].
    intros a t' Ha. destruct (Hvals a t' Ha) as (t1 & Ht1 & Hb1).
    destruct (Hvals0 a t1 Ht1) as (t0 & Ht0 & Hb0). exists t0. split; [exact Ht0|congruence].
Qed.

(** X23.  Whatever the price lookup does, [enrichWithPoolData] never
    throws, and the map it resolves to has the tokens of the map it was
    given, under the same keys and in the same order, each with the
    address, name, symbol, decimals, total supply and pools it came in
    with: the enrichment only adds the pool count, the main pool, the
    price, the liquidity and the market cap. *)
Theorem enrichWithPoolData_keeps_the_tokens (tokenInfoMap : obj tokenInfo) :
  NoDup (obj_keys tokenInfoMap) ->
  always (enrichWithPoolData tokenInfoMap) (same_tokens tokenInfoMap).
Proof.
  intros Hnd. unfold enrichWithPoolData, mbind, task_bind.
  apply always_try_catch with (Qe := fun _ => True).
  - apply settles_bind.
    assert (forall A (t : task A), settles t (fun _ => True) (fun _ => True)) as Hany.
    { intros A t. induction t; simpl; auto. }
    eapply settles_mono; [| |apply Hany]; [|auto].
    intros wethPriceUsd _. simpl. apply enrich_entries_same_tokens.
    intros k v Hin. exists v. split; [|reflexivity].
    apply obj_get_elem_of; assumption.
  - intros e _. simpl. split; [reflexivity|]. intros a t' H. exists t'. auto.
Qed.

Lemma enrichWithPoolData_keeps_the_tokens_witness :
  always
    (enrichWithPoolData [("0xabc0000000000000000000000000000000000001", idle_token)])
    (same_tokens [("0xabc0000000000000000000000000000000000001", idle_token)]).
Proof.
  apply (enrichWithPoolData_keeps_the_tokens
           [("0xabc0000000000000000000000000000000000001", idle_token)]).
  apply NoDup_singleton.
Defined.

(** ** processAndStoreTokensData *)

(** X13.  [processAndStoreTokensData] reports what was written.  For a
    non-empty map it builds one document per entry, in the order of the
    entries and keyed by the lower-cased address, and sends them in one
    bulk write, in the same atomic segment; it resolves to these
    documents if the write succeeds and to the empty list if the write is
    rejected, so a failed write counts as no token processed.  For the
    empty map it resolves to the empty list at once, without a write. *)
Theorem processAndStoreTokensData_reports_the_write
    (tokensData : obj tokenInfo) (m : mem) :
  tokensData <> [] ->
  let docs := PoolServiceFacts.docs_of (clock m) tokensData in
  run_sync m (processAndStoreTokensData tokensData)
    = (m, Vis (GeckoDataBulkWrite docs) (PoolServiceFacts.after_bulkWrite docs)) /\
  length docs = length tokensData /\
  doc_contractAddress <$> docs = toLowerCase <$> obj_keys tokensData /\
  (forall m', run_sync m' (PoolServiceFacts.after_bulkWrite docs (inr ())) = (m', Ret docs)) /\
  (forall e m', run_sync m' (PoolServiceFacts.after_bulkWrite docs (inl e)) = (m', Ret [])) /\
  (forall m', run_sync m' (processAndStoreTokensData []) = (m', Ret [])).
Proof.
  intros Hne docs. split; [|split; [|split; [|split; [|split]]]].
  - apply PoolServiceFacts.processAndStoreTokensData_first_segment, Hne.
  - unfold docs, PoolServiceFacts.docs_of. apply length_fmap.
  - apply PoolServiceFacts.docs_of_addresses.
  - reflexivity.
  - reflexivity.
  - reflexivity.
Qed.

Lemma processAndStoreTokensData_reports_the_write_witness :
  let tokensData := [("0xabc0000000000000000000000000000000000001", idle_token)] in
  let docs := PoolServiceFacts.docs_of 5 tokensData in
  run_sync (warm 2000 0 5) (processAndStoreTokensData tokensData)
    = (warm 2000 0 5,
       Vis (GeckoDataBulkWrite docs) (PoolServiceFacts.after_bulkWrite docs)) /\
  length docs = 1%nat.
Proof.
  intros tokensData docs.
  destruct (processAndStoreTokensData_reports_the_write tokensData (warm 2000 0 5))
    as (H1 & H2 & _); [discriminate|].
  split; [exact H1|exact H2].
Defined.

(** X14.  The documents never carry a falsy value for [decimals] or
    [totalSupply]: a token with 0 decimals is written with 18 decimals
    (the [||] default) and any other with its own, and an empty supply
    string is written as "0".  Every address written is in lower case. *)
Theorem written_documents_have_no_zero_decimals
    (tokensData : obj tokenInfo) (m : mem) :
  tokensData <> [] ->
  exists docs k,
    run_sync m (processAndStoreTokensData tokensData)
      = (m, Vis (GeckoDataBulkWrite docs) k) /\
    Forall (fun doc => doc_decimals doc <> 0 /\ doc_totalSupply doc <> "" /\
                       toLowerCase (doc_contractAddress doc) = doc_contractAddress doc)
           docs /\
    forall i key info,
      tokensData !! i = Some (key, info) ->
      exists doc, docs !! i = Some doc /\
        doc_decimals doc = (if bool_decide (decimals info = 0) then 18 else decimals info).
Proof.
  intros Hne. eexists _, _. split.
  - apply PoolServiceFacts.processAndStoreTokensData_first_segment, Hne.
  - split.
    + unfold PoolServiceFacts.docs_of. apply Forall_fmap, Forall_forall.
      intros [k v] _. simpl. repeat split.
      * case_bool_decide; [discriminate|assumption].
      * case_bool_decide; [discriminate|assumption].
      * apply toLowerCase_idemp.
    + intros i key info Hi. unfold PoolServiceFacts.docs_of.
      rewrite list_lookup_fmap. unfold obj in Hi. rewrite Hi. simpl.
      eexists. split; reflexivity.
Qed.

Definition zero_decimals_token : tokenInfo :=
  new_tokenInfo "0xabc0000000000000000000000000000000000001"
    {| bf_name := "Whole"; bf_symbol := "WHL"; bf_decimals := 0; bf_totalSupply := "21" |}.

Lemma written_documents_have_no_zero_decimals_witness :
  exists docs k,
    run_sync (warm 2000 0 5)
      (processAndStoreTokensData
         [("0xabc0000000000000000000000000000000000001", zero_decimals_token)])
      = (warm 2000 0 5, Vis (GeckoDataBulkWrite docs) k) /\
    exists doc, docs !! 0%nat = Some doc /\ doc_decimals doc = 18.
Proof.
  destruct (written_documents_have_no_zero_decimals
              [("0xabc0000000000000000000000000000000000001", zero_decimals_token)]
              (warm 2000 0 5)) as (docs & k & Hrun & _ & Hdoc); [discriminate|].
  exists docs, k. split; [exact Hrun|].
  exact (Hdoc 0%nat _ zero_decimals_token eq_refl).
Defined.

End PoolServiceProperties.

(** * Runs of the pipeline in progress *)

Module PoolServiceRuns.
Import PoolService JSFacts.

(** ** What a task still does to the run counter and to the in-flight flag

    [updateTokenData] is entered and left through two ghost primitives
    that count the invocations in progress; [isUpdating] is assigned by
    the cron callback only. *)

Inductive flag_op := OpEnter | OpLeave | OpSet (b : bool).

Definition flag_event {X} (ev : event X) : option flag_op :=
  match ev with
  | EnterUpdateTokenData => Some OpEnter
  | LeaveUpdateTokenData => Some OpLeave
  | SetIsUpdating b => Some (OpSet b)
  | _ => None
  end.

(** [owes t Q Qe n c]: on every path, [t] enters no run and never sets the
    flag; it leaves [n] runs more than what [Q] (or [Qe], on a throw) then
    still asks for, clears the flag [c] times more, and clears it only
    once it has left every run it was in. *)
Fixpoint owes {A} (t : task A) (Q : A -> nat -> nat -> Prop)
    (Qe : exn -> nat -> nat -> Prop) (n c : nat) : Prop :=
  match t with
  | Ret a => Q a n c
  | Throw e => Qe e n c
  | Vis ev k =>
      match flag_event ev with
      | None => forall x, owes (k x) Q Qe n c
      | Some OpLeave => exists n', n = S n' /\ forall x, owes (k x) Q Qe n' c
      | Some (OpSet false) =>
          exists c', c = S c' /\ n = 0%nat /\ forall x, owes (k x) Q Qe n c'
      | Some _ => False
      end
  end.

Lemma owes_mono {A} (t : task A) (Q Q' : A -> nat -> nat -> Prop)
    (Qe Qe' : exn -> nat -> nat -> Prop) n c :
  (forall a n c, Q a n c -> Q' a n c) -> (forall e n c, Qe e n c -> Qe' e n c) ->
  owes t Q Qe n c -> owes t Q' Qe' n c.
Proof.
  intros HQ HQe. revert n c. induction t as [a|e|X ev k IH]; intros n c; simpl; auto.
  destruct (flag_event ev) as [[| |[]]|]; auto.
  - intros (n' & -> & H). exists n'. auto.
  - intros (c' & -> & -> & H). exists c'. auto.
Qed.

Lemma owes_bind {A B} (t : task A) (f : A -> task B) Q Qe n c :
  owes t (fun a n c => owes (f a) Q Qe n c) Qe n c -> owes (bind t f) Q Qe n c.
Proof.
  revert n c. induction t as [a|e|X ev k IH]; intros n c; simpl; auto.
  destruct (flag_event ev) as [[| |[]]|]; auto.
  - intros (n' & -> & H). exists n'. auto.
  - intros (c' & -> & -> & H). exists c'. auto.
Qed.

Lemma owes_try_catch {A} (t : task A) (h : exn -> task A) Q Qe n c :
  owes t Q (fun e n c => owes (h e) Q Qe n c) n c -> owes (try_catch t h) Q Qe n c.
Proof.
  revert n c. induction t as [a|e|X ev k IH]; intros n c; simpl; auto.
  destruct (flag_event ev) as [[| |[]]|]; auto.
  - intros (n' & -> & H). exists n'. auto.
  - intros (c' & -> & -> & H). exists c'. auto.
Qed.

(** A task that touches neither the counter nor the flag. *)
Fixpoint quiet {A} (t : task A) : Prop :=
  match t with
  | Vis ev k => flag_event ev = None /\ forall x, quiet (k x)
  | _ => True
  end.

Lemma quiet_bind {A B} (t : task A) (f : A -> task B) :
  quiet t -> (forall a, quiet (f a)) -> quiet (bind t f).
Proof.
  intros Ht Hf. induction t as [a|e|X ev k IH]; simpl; auto.
  destruct Ht as [Hev Hk]. split; [exact Hev|]. intros x. apply IH, Hk.
Qed.

Lemma quiet_try_catch {A} (t : task A) (h : exn -> task A) :
  quiet t -> (forall e, quiet (h e)) -> quiet (try_catch t h).
Proof.
  intros Ht Hh. induction t as [a|e|X ev k IH]; simpl; auto.
  destruct Ht as [Hev Hk]. split; [exact Hev|]. intros x. apply IH, Hk.
Qed.

Lemma quiet_owes {A} (t : task A) Q Qe n c :
  quiet t -> (forall a, Q a n c) -> (forall e, Qe e n c) -> owes t Q Qe n c.
Proof.
  intros Ht HQ HQe. induction t as [a|e|X ev k IH]; simpl; auto.
  destruct Ht as [Hev Hk]. rewrite Hev. intros x. apply IH, Hk.
Qed.

Lemma quiet_await_async {A} (t : task A) : quiet t -> quiet (await_async t).
Proof.
  intros Ht. unfold await_async, mbind, task_bind.
  apply quiet_try_catch.
  - apply quiet_bind; [exact Ht|]. intros a. simpl. auto.
  - intros e. simpl. auto.
Qed.

Ltac quiet_step :=
  lazymatch goal with
  | |- quiet (mbind _ _) => unfold mbind, task_bind; apply quiet_bind
  | |- quiet (bind _ _) => apply quiet_bind
  | |- quiet (try_catch _ _) => apply quiet_try_catch
  | |- quiet (await_async _) => apply quiet_await_async
  | |- quiet (call _) => simpl; split; [reflexivity|intros; exact I]
  | |- quiet (await _) => simpl; split; [reflexivity|intros [?|?]; exact I]
  | |- quiet (Ret _) => exact I
  | |- quiet (Throw _) => exact I
  end.

Lemma quiet_fetchWethPrice : quiet fetchWethPrice.
Proof.
  unfold fetchWethPrice. quiet_step.
  - repeat (quiet_step; [quiet_step|intros ?]).
    assert (forall now, quiet (refreshWethPrice now)) as Hrefresh.
    { intros now. unfold refreshWethPrice. quiet_step; [quiet_step|].
      intros [[token0_ token1_] slot0_tick].
      repeat (quiet_step; [quiet_step|intros ?]). quiet_step. }
    destruct a0 as [cached|]; [|apply Hrefresh].
    destruct (truthy cached && _)%bool; [quiet_step|apply Hrefresh].
  - intros e. quiet_step; [quiet_step|intros ?; quiet_step].
Qed.

Lemma quiet_getTokensBasicInfo tokenAddresses : quiet (getTokensBasicInfo tokenAddresses).
Proof.
  unfold getTokensBasicInfo. quiet_step; [|intros e; quiet_step].
  quiet_step; [quiet_step|]. intros results.
  destruct (basic_info_loop _ _ _ _ _ _); quiet_step.
Qed.

Lemma quiet_discovery_loop fuel calls callMetadata_ i maps :
  quiet (discovery_loop fuel calls callMetadata_ i maps).
Proof.
  revert i maps. induction fuel as [|fuel IH]; intros i maps; cbn [discovery_loop];
    [quiet_step|].
  case_bool_decide; [|quiet_step].
  quiet_step; [quiet_step|]. intros results.
  quiet_step; [case_bool_decide; quiet_step|]. intros _. apply IH.
Qed.

Lemma quiet_findWethPoolsBatched tokenAddresses : quiet (findWethPoolsBatched tokenAddresses).
Proof.
  unfold findWethPoolsBatched. quiet_step; [|intros e; quiet_step].
  destruct (pool_calls tokenAddresses); [apply quiet_discovery_loop|quiet_step].
Qed.

Lemma quiet_getPoolsData poolAddresses poolDataMap_ :
  quiet (getPoolsData poolAddresses poolDataMap_).
Proof.
  unfold getPoolsData. quiet_step; [|intros e; quiet_step].
  case_bool_decide; [quiet_step|].
  quiet_step; [quiet_step|]. intros results. quiet_step.
Qed.

Lemma quiet_enrichWithPoolData tokenInfoMap : quiet (enrichWithPoolData tokenInfoMap).
Proof.
  unfold enrichWithPoolData. quiet_step; [|intros e; quiet_step].
  quiet_step; [quiet_step; apply quiet_fetchWethPrice|]. intros wethPriceUsd. quiet_step.
Qed.

Lemma quiet_build_docs entries : quiet (build_docs entries).
Proof.
  induction entries as [|[k v] entries IH]; cbn [build_docs]; [quiet_step|].
  quiet_step; [quiet_step|]. intros now.
  quiet_step; [exact IH|]. intros docs. quiet_step.
Qed.

Lemma quiet_processAndStoreTokensData tokensData : quiet (processAndStoreTokensData tokensData).
Proof.
  unfold processAndStoreTokensData. quiet_step; [|intros e; quiet_step].
  case_bool_decide; [quiet_step|].
  quiet_step; [apply quiet_build_docs|]. intros docs.
  quiet_step; [|intros _; quiet_step].
  case_bool_decide; [|quiet_step].
  repeat (quiet_step; [quiet_step|intros ?]). quiet_step.
Qed.

Lemma quiet_process_batch batch : quiet (process_batch batch).
Proof.
  unfold process_batch.
  quiet_step; [quiet_step; apply quiet_getTokensBasicInfo|]. intros tokenBasicInfo.
  quiet_step; [quiet_step; apply quiet_findWethPoolsBatched|]. intros maps.
  quiet_step; [quiet_step; apply quiet_getPoolsData|]. intros enrichedPoolDataMap.
  quiet_step; [quiet_step; apply quiet_enrichWithPoolData|]. intros enrichedData.
  quiet_step. apply quiet_processAndStoreTokensData.
Qed.

Lemma quiet_batches_loop batches processedCount : quiet (batches_loop batches processedCount).
Proof.
  revert processedCount. induction batches as [|batch rest IH]; intros processedCount;
    cbn [batches_loop]; [quiet_step|].
  quiet_step; [apply quiet_process_batch|]. intros updatedTokens.
  quiet_step; [case_bool_decide; quiet_step|]. intros _. apply IH.
Qed.

(** ** The two callbacks *)

Definition done {A} : A -> nat -> nat -> Prop := fun _ n c => n = 0%nat /\ c = 0%nat.

(** [shape n c t]: [t] still leaves [n] runs and clears the flag [c]
    times, on every path. *)
Definition shape (n c : nat) (t : task unit) : Prop := owes t done done n c.

(** [updateTokenData] after its entry was counted. *)
Definition entered_run : task unit :=
  _ ← try_catch
        (addresses ← await TokenFindAll;
         let batches := chunkArray addresses BATCH_SIZE in
         _ ← batches_loop batches 0;
         Ret ())
        (fun error => Ret ());
  call LeaveUpdateTokenData.

(** The cron callback after it set the flag and the entry of its run was
    counted. *)
Definition flagged_run : task unit :=
  try_catch
    (_ ← entered_run; _ ← call Microtask; call (SetIsUpdating false))
    (fun e => _ ← call Microtask; _ ← call (SetIsUpdating false); Throw e).

Definition enter (m : mem) : mem :=
  {| isUpdating := isUpdating m; cachedWethPrice := cachedWethPrice m;
     wethPriceLastUpdated := wethPriceLastUpdated m; clock := clock m;
     running := running m + 1 |}.

Definition raise_flag (m : mem) : mem :=
  {| isUpdating := true; cachedWethPrice := cachedWethPrice m;
     wethPriceLastUpdated := wethPriceLastUpdated m; clock := clock m;
     running := running m |}.

Lemma run_sync_updateTokenData (m : mem) :
  run_sync m updateTokenData = run_sync (enter m) entered_run.
Proof. reflexivity. Qed.

Lemma run_sync_cron_callback (m : mem) :
  run_sync m cron_callback =
  if isUpdating m then (m, Ret ()) else run_sync (enter (raise_flag m)) flagged_run.
Proof. unfold cron_callback. cbn. destruct (isUpdating m); reflexivity. Qed.

Lemma owes_entered_run Q Qe n c : Q () n c -> owes entered_run Q Qe (S n) c.
Proof.
  intros HQ. unfold entered_run, mbind, task_bind. apply owes_bind, owes_try_catch.
  apply quiet_owes.
  - quiet_step; [quiet_step|]. intros addresses.
    quiet_step; [apply quiet_batches_loop|]. intros _. quiet_step.
  - intros []. simpl. exists n. split; [reflexivity|]. intros []. exact HQ.
  - intros e. simpl. exists n. split; [reflexivity|]. intros []. exact HQ.
Qed.

Lemma shape_entered_run : shape 1 0 entered_run.
Proof. apply owes_entered_run. split; reflexivity. Qed.

Lemma shape_flagged_run : shape 1 1 flagged_run.
Proof.
  unfold shape, flagged_run, mbind, task_bind. apply owes_try_catch, owes_bind.
  apply owes_entered_run. simpl. intros [].
  exists 0%nat. split; [reflexivity|]. split; [reflexivity|]. intros []. split; reflexivity.
Qed.

Lemma shape_quiet (t : task unit) : quiet t -> shape 0 0 t.
Proof. intros Ht. apply quiet_owes; [exact Ht| |]; intros; split; reflexivity. Qed.

(** ** One atomic segment *)

(** A parked task waits at a suspension point. *)
Definition parked (t : task unit) : Prop :=
  match t with
  | Vis ev _ => flag_event ev = None
  | _ => False
  end.

Lemma run_sync_shape (t : task unit) (n c : nat) (m : mem) :
  shape n c t ->
  exists n' c',
    (n' <= n)%nat /\ (c' <= c)%nat /\ ((c' < c)%nat -> n' = 0%nat) /\
    running (run_sync m t).1 = running m - Z.of_nat (n - n') /\
    isUpdating (run_sync m t).1 = (if bool_decide (c' < c)%nat then false else isUpdating m) /\
    match (run_sync m t).2 with
    | Vis ev k => parked (Vis ev k) /\ shape n' c' (Vis ev k)
    | _ => n' = 0%nat /\ c' = 0%nat
    end.
Proof.
  unfold shape. revert n c m.
  induction t as [[]|e|X ev k IH]; intros n c m Hshape.
  - destruct Hshape as [-> ->]. exists 0%nat, 0%nat. simpl.
    repeat split; lia.
  - destruct Hshape as [-> ->]. exists 0%nat, 0%nat. simpl.
    repeat split; lia.
  - assert (forall m' x,
              handle_sync ev m = Some (m', x) ->
              flag_event ev = None ->
              running m' = running m /\ isUpdating m' = isUpdating m) as Hplain.
    { clear. intros m' x. destruct ev; simpl; try discriminate;
        intros [= <- <-] _; split; reflexivity. }
    simpl in Hshape. cbn [run_sync].
    destruct (handle_sync ev m) as [[m' x]|] eqn:Hev.
    + destruct (flag_event ev) as [[| |[]]|] eqn:Hflag; try contradiction.
      * (* leaving a run *)
        destruct Hshape as (n0 & -> & Hk).
        destruct (IH x n0 c m' (Hk x)) as (n' & c' & Hn & Hc & Hz & Hrun & Hflag' & Hrest).
        assert (running m' = running m - 1 /\ isUpdating m' = isUpdating m) as [Hr Hi].
        { clear -Hev Hflag. destruct ev; simpl in *; try discriminate.
          injection Hev as <- <-. split; reflexivity. }
        exists n', c'. split; [lia|]. split; [exact Hc|]. split; [exact Hz|].
        split; [rewrite Hrun, Hr; lia|]. split; [rewrite Hflag', Hi; reflexivity|exact Hrest].
      * (* clearing the flag *)
        destruct Hshape as (c0 & -> & -> & Hk).
        destruct (IH x 0%nat c0 m' (Hk x)) as (n' & c' & Hn & Hc & Hz & Hrun & Hflag' & Hrest).
        assert (running m' = running m /\ isUpdating m' = false) as [Hr Hi].
        { clear -Hev Hflag. destruct ev; simpl in *; try discriminate.
          injection Hflag as <-. injection Hev as <- <-. split; reflexivity. }
        exists n', c'. split; [lia|]. split; [lia|]. split; [lia|].
        split; [rewrite Hrun, Hr; lia|]. split; [|exact Hrest].
        rewrite Hflag', Hi. rewrite (bool_decide_eq_true_2 (c' < S c0)%nat) by lia.
        destruct (bool_decide (c' < c0)%nat); reflexivity.
      * (* a primitive that touches neither *)
        destruct (IH x n c m' (Hshape x)) as (n' & c' & Hn & Hc & Hz & Hrun & Hflag' & Hrest).
        destruct (Hplain m' x eq_refl eq_refl) as [Hr Hi].
        exists n', c'. split; [exact Hn|]. split; [exact Hc|]. split; [exact Hz|].
        split; [rewrite Hrun, Hr; reflexivity|]. split; [rewrite Hflag', Hi; reflexivity|].
        exact Hrest.
    + (* a suspension point *)
      assert (flag_event ev = None) as Hflag.
      { clear -Hev. destruct ev; simpl in *; try discriminate; reflexivity. }
      exists n, c. simpl. split; [lia|]. split; [lia|]. split; [lia|].
      split; [lia|]. split; [rewrite bool_decide_eq_false_2 by lia; reflexivity|].
      split; [exact Hflag|]. simpl. rewrite Hflag. rewrite Hflag in Hshape. exact Hshape.
Qed.

(** ** The invariant of the event loop *)

(** What a parked invocation is: a task that touches neither the counter
    nor the flag (the price pre-fetch, or a run that has already left and
    cleared), the run started by the start-up timer, or a run started by
    the cron callback, which has [n] runs to leave and the flag to
    clear. *)
Inductive kind := Neutral | InStartup | InCron (n : nat).

Definition weight (kd : kind) : nat :=
  match kd with Neutral => 0 | InStartup => 1 | InCron n => n end.
Definition crons (kd : kind) : nat :=
  match kd with InCron _ => 1 | _ => 0 end.
Definition startups (kd : kind) : nat :=
  match kd with InStartup => 1 | _ => 0 end.

Definition shape_of (kd : kind) (t : task unit) : Prop :=
  match kd with
  | Neutral => shape 0 0 t
  | InStartup => shape 1 0 t
  | InCron n => (n <= 1)%nat /\ shape n 1 t
  end.

Definition has_kind (kd : kind) (t : task unit) : Prop := parked t /\ shape_of kd t.

Definition overlap_inv (s : sys) : Prop :=
  exists ks : list kind,
    Forall2 has_kind ks (pending s) /\
    running (sys_mem s) = Z.of_nat (sum_list_with weight ks) /\
    sum_list_with crons ks = (if isUpdating (sys_mem s) then 1 else 0)%nat /\
    (sum_list_with startups ks <= if startup_due s then 0 else 1)%nat.

Definition with_mem (s : sys) (m : mem) : sys :=
  {| sys_mem := m; startup_due := startup_due s; pending := pending s |}.

Lemma advance_from (s : sys) (due : bool) (others : list (task unit))
    (t t' : task unit) (m' : mem) :
  run_sync (sys_mem s) t = run_sync m' t' ->
  advance s due others t = advance (with_mem s m') due others t'.
Proof. intros H. unfold advance. simpl. rewrite H. reflexivity. Qed.

Lemma advance_kinds (s : sys) (due : bool) (others : list (task unit))
    (ks : list kind) (kd : kind) (t : task unit) :
  shape_of kd t ->
  Forall2 has_kind ks others ->
  running (sys_mem s) = Z.of_nat (weight kd + sum_list_with weight ks) ->
  (crons kd + sum_list_with crons ks)%nat = (if isUpdating (sys_mem s) then 1 else 0)%nat ->
  exists ks',
    Forall2 has_kind ks' (pending (advance s due others t)) /\
    running (sys_mem (advance s due others t)) = Z.of_nat (sum_list_with weight ks') /\
    sum_list_with crons ks'
      = (if isUpdating (sys_mem (advance s due others t)) then 1 else 0)%nat /\
    (sum_list_with startups ks' <= startups kd + sum_list_with startups ks)%nat.
Proof.
  intros Hshape Hothers Hrun Hflag.
  assert (exists n c, shape n c t /\ weight kd = n /\ crons kd = c /\
                      (n <= 1)%nat /\ (startups kd = 1%nat -> c = 0%nat)) as
    (n & c & Ht & Hn & Hc & Hn1 & Hsc).
  { destruct kd as [| |n]; simpl in *.
    - exists 0%nat, 0%nat. repeat split; auto.
    - exists 1%nat, 0%nat. repeat split; auto.
    - exists n, 1%nat. destruct Hshape. repeat split; auto; discriminate. }
  destruct (run_sync_shape t n c (sys_mem s) Ht)
    as (n' & c' & Hn' & Hc' & Hz & Hrun' & Hflag' & Hrest).
  unfold advance. destruct (run_sync (sys_mem s) t) as [m' t'] eqn:Hsync.
  simpl in Hrun', Hflag', Hrest. simpl.
  assert ((if isUpdating m' then 1 else 0)%nat
          = (c' + sum_list_with crons ks)%nat) as Hflag''.
  { rewrite Hflag'. case_bool_decide as Hlt.
    - destruct (isUpdating (sys_mem s)); lia.
    - rewrite <- Hflag. lia. }
  assert (t' = t' -> (c' <= 1)%nat) as Hc1 by (intros _; destruct kd; simpl in *; lia).
  specialize (Hc1 eq_refl).
  destruct t' as [[]|e|X ev k]; simpl.
  - destruct Hrest as [-> ->]. exists ks. split; [exact Hothers|].
    split; [lia|]. split; [lia|]. lia.
  - destruct Hrest as [-> ->]. exists ks. split; [exact Hothers|].
    split; [lia|]. split; [lia|]. lia.
  - destruct Hrest as [Hparked Hshape'].
    destruct (decide (c' = 1%nat)) as [->|Hc0].
    + (* still a cron-started run *)
      exists (InCron n' :: ks). split.
      { constructor; [|exact Hothers]. split; [exact Hparked|]. split; [lia|exact Hshape']. }
      simpl. split; [lia|]. split; [lia|].
      assert (startups kd = 0%nat) by (destruct kd; simpl in *; lia). lia.
    + assert (c' = 0%nat) as -> by lia.
      destruct (decide (n' = 0%nat)) as [->|Hn0].
      * exists (Neutral :: ks). split.
        { constructor; [|exact Hothers]. split; [exact Hparked|exact Hshape']. }
        simpl. split; [lia|]. split; [lia|]. lia.
      * (* the start-up run, still inside *)
        assert (n' = 1%nat) as -> by lia.
        assert (c = 0%nat) as -> by (destruct (decide (c = 0%nat)); [assumption|lia]).
        assert (kd = InStartup) as ->.
        { destruct kd as [| |n0]; simpl in *; [lia|reflexivity|lia]. }
        exists (InStartup :: ks). split.
        { constructor; [|exact Hothers]. split; [exact Hparked|exact Hshape']. }
        simpl. split; [lia|]. split; [lia|]. lia.
Qed.

Lemma sum_list_with_delete {A} (f : A -> nat) (l : list A) (i : nat) (x : A) :
  l !! i = Some x -> sum_list_with f l = (f x + sum_list_with f (delete i l))%nat.
Proof.
  revert i. induction l as [|y l IH]; intros i Hi; [discriminate|].
  destruct i as [|i]; simpl in *.
  - injection Hi as ->. reflexivity.
  - rewrite (IH i Hi). lia.
Qed.

Lemma weight_bound (ks : list kind) (tasks : list (task unit)) :
  Forall2 has_kind ks tasks ->
  (sum_list_with weight ks <= sum_list_with crons ks + sum_list_with startups ks)%nat.
Proof.
  induction 1 as [|kd t ks tasks [_ Hkd] _ IH]; simpl; [lia|].
  destruct kd as [| |n]; simpl in *; lia.
Qed.

Lemma advance_startup_due (s : sys) (due : bool) (others : list (task unit)) (t : task unit) :
  startup_due (advance s due others t) = due.
Proof. unfold advance. destruct (run_sync (sys_mem s) t). reflexivity. Qed.

Lemma shape_of_resumed (kd : kind) {X} (ev : event X) (k : X -> task unit) (x : X) :
  has_kind kd (Vis ev k) -> shape_of kd (k x).
Proof.
  intros [Hparked Hshape]. simpl in Hparked.
  destruct kd as [| |n]; unfold shape_of, shape in *; simpl in Hshape;
    rewrite Hparked in Hshape.
  - apply Hshape.
  - apply Hshape.
  - destruct Hshape as [Hn Hshape]. split; [exact Hn|apply Hshape].
Qed.

Lemma step_keeps_overlap_inv (s s' : sys) : overlap_inv s -> step s s' -> overlap_inv s'.
Proof.
  intros (ks & Hkinds & Hrun & Hflag & Hstart) Hstep.
  destruct Hstep as [s|s Hdue|s i X ev k x Hi|s now].
  - (* the cron callback *)
    destruct (isUpdating (sys_mem s)) eqn:Hbusy.
    + exists ks. unfold advance. rewrite run_sync_cron_callback, Hbusy. simpl.
      rewrite Hbusy. auto.
    + rewrite (advance_from s _ _ cron_callback flagged_run (enter (raise_flag (sys_mem s))))
        by (rewrite run_sync_cron_callback, Hbusy; reflexivity).
      destruct (advance_kinds (with_mem s (enter (raise_flag (sys_mem s)))) (startup_due s)
                  (pending s) ks (InCron 1) flagged_run)
        as (ks' & Hk' & Hr' & Hf' & Hs').
      * split; [lia|apply shape_flagged_run].
      * exact Hkinds.
      * simpl. lia.
      * simpl. lia.
      * exists ks'. rewrite advance_startup_due. simpl in Hs'.
        split; [exact Hk'|]. split; [exact Hr'|]. split; [exact Hf'|]. lia.
  - (* the start-up timer *)
    unfold startup_callback.
    rewrite (advance_from s _ _ updateTokenData entered_run (enter (sys_mem s)))
      by apply run_sync_updateTokenData.
    rewrite Hdue in Hstart.
    destruct (advance_kinds (with_mem s (enter (sys_mem s))) false
                (pending s) ks InStartup entered_run)
      as (ks' & Hk' & Hr' & Hf' & Hs').
    + apply shape_entered_run.
    + exact Hkinds.
    + simpl. lia.
    + simpl. exact Hflag.
    + exists ks'. rewrite advance_startup_due. simpl in Hs'.
      split; [exact Hk'|]. split; [exact Hr'|]. split; [exact Hf'|]. lia.
  - (* a suspended invocation resumes *)
    destruct (Forall2_lookup_r _ _ _ _ _ Hkinds Hi) as (kd & Hkd & Hhas).
    destruct (advance_kinds s (startup_due s) (delete i (pending s)) (delete i ks) kd (k x))
      as (ks' & Hk' & Hr' & Hf' & Hs').
    + eapply shape_of_resumed, Hhas.
    + apply Forall2_delete, Hkinds.
    + rewrite Hrun, (sum_list_with_delete weight ks i kd Hkd). reflexivity.
    + rewrite <- Hflag, (sum_list_with_delete crons ks i kd Hkd). reflexivity.
    + exists ks'. rewrite advance_startup_due.
      split; [exact Hk'|]. split; [exact Hr'|]. split; [exact Hf'|].
      rewrite (sum_list_with_delete startups ks i kd Hkd) in Hstart. lia.
  - (* time passes *)
    exists ks. simpl. auto.
Qed.

Lemma start_overlap_inv (now : Z) : overlap_inv (start now).
Proof.
  unfold start.
  destruct (advance_kinds
              {| sys_mem := {| isUpdating := false; cachedWethPrice := None;
                               wethPriceLastUpdated := 0; clock := now; running := 0 |};
                 startup_due := true; pending := [] |}
              true [] [] Neutral prefetch_callback)
    as (ks' & Hk' & Hr' & Hf' & Hs').
  - apply shape_quiet. unfold prefetch_callback.
    quiet_step; [apply quiet_fetchWethPrice|intros p; quiet_step].
  - constructor.
  - reflexivity.
  - reflexivity.
  - exists ks'. rewrite advance_startup_due. simpl in Hs'.
    split; [exact Hk'|]. split; [exact Hr'|]. split; [exact Hf'|]. lia.
Qed.

Lemma reachable_overlap_inv (s : sys) : reachable s -> overlap_inv s.
Proof.
  induction 1 as [now|s s' _ IH Hstep].
  - apply start_overlap_inv.
  - exact (step_keeps_overlap_inv s s' IH Hstep).
Qed.


(** The cron callback fired once, then the start-up timer. *)
Definition both_started : sys :=
  let s1 := advance (start 0) (startup_due (start 0)) (pending (start 0)) cron_callback in
  advance s1 false (pending s1) startup_callback.


(** X16.  [isUpdating] is never left set without a run to clear it: in
    every reachable state in which the flag is set, a parked invocation
    of the cron callback exists that, however it is resumed, clears the
    flag exactly once on every path, after leaving [updateTokenData], and
    never sets it; when the flag is not set, at most one run is in
    progress. *)
Theorem flag_is_backed_by_a_parked_run (s : sys) :
  reachable s ->
  if isUpdating (sys_mem s)
  then exists t n, t ∈ pending s /\ parked t /\ (n <= 1)%nat /\ shape n 1 t
  else running (sys_mem s) <= 1.
Proof.
  intros Hreach.
  destruct (reachable_overlap_inv s Hreach) as (ks & Hkinds & Hrun & Hflag & Hstart).
  destruct (isUpdating (sys_mem s)).
  - assert (exists i n, ks !! i = Some (InCron n)) as (i & n & Hi).
    { clear -Hflag. induction ks as [|kd ks IH]; simpl in Hflag; [lia|].
      destruct kd as [| |n].
      - destruct (IH Hflag) as (i & n & Hi). exists (S i), n. exact Hi.
      - destruct (IH Hflag) as (i & n & Hi). exists (S i), n. exact Hi.
      - exists 0%nat, n. reflexivity. }
    destruct (Forall2_lookup_l _ _ _ _ _ Hkinds Hi) as (t & Ht & Hparked & Hn & Hshape).
    exists t, n. split; [eapply list_elem_of_lookup_2, Ht|]. auto.
  - pose proof (weight_bound ks (pending s) Hkinds) as Hbound.
    destruct (startup_due s); lia.
Qed.

Lemma flag_is_backed_by_a_parked_run_witness :
  reachable both_started /\
  exists t n, t ∈ pending both_started /\ parked t /\ (n <= 1)%nat /\ shape n 1 t.
Proof.
  assert (reachable both_started) as Hreach.
  { unfold both_started. eapply reachable_step.
    - eapply reachable_step; [apply (reachable_start 0)|apply step_cron].
    - apply step_startup. reflexivity. }
  split; [exact Hreach|].
  exact (flag_is_backed_by_a_parked_run both_started Hreach).
Defined.

End PoolServiceRuns.

(** * Properties of token discovery *)

Module TokenDiscoveryProperties.
Import TokenDiscovery JSFacts.

Lemma discovery_exec_bind {A B} (t : task A) (f : A -> task B) (w : world) :
  exec w (bind t f) =
  match exec w t with
  | (w', inr a) => exec w' (f a)
  | (w', inl e) => (w', inl e)
  end.
Proof.
  revert w. induction t as [a|e|X ev k IH]; intros w; simpl.
  - destruct (exec w (f a)) as [w' r]. reflexivity.
  - reflexivity.
  - destruct (respond ev w) as [w' x]. apply IH.
Qed.

Lemma discovery_exec_try_catch {A} (t : task A) (h : exn -> task A) (w : world) :
  exec w (try_catch t h) =
  match exec w t with
  | (w', inl e) => exec w' (h e)
  | (w', inr a) => (w', inr a)
  end.
Proof.
  revert w. induction t as [a|e|X ev k IH]; intros w; simpl.
  - reflexivity.
  - destruct (exec w (h e)) as [w' r]. reflexivity.
  - destruct (respond ev w) as [w' x]. apply IH.
Qed.

(** The filter of the query for one factory, when the chain is at block
    [currentBlock]. *)
Definition window (currentBlock : Z) (factoryAddress : address) : filter :=
  {| filter_address := factoryAddress;
     topics := [eventTopic];
     fromBlock := Z.max 0 (currentBlock - 20000);
     toBlock := currentBlock |}.

(** The tokens of the logs of one factory that decode; none if the query
    for the factory is rejected. *)
Definition found_in (logs_ : filter -> (exn + list log)%type) (currentBlock : Z)
    (factoryAddress : address) : list token :=
  match logs_ (window currentBlock factoryAddress) with
  | inr logs => omap (token_of_log factoryAddress) logs
  | inl _ => []
  end.

Definition found (logs_ : filter -> (exn + list log)%type) (currentBlock : Z)
    (factories : list address) : list token :=
  factories ≫= found_in logs_ currentBlock.

Definition asked (w : world) (queries : list filter) : world :=
  {| w_block := w_block w; w_logs := w_logs w; w_tokens := w_tokens w;
     w_queries := queries ++ w_queries w; w_writes := w_writes w |}.

Lemma process_logs_omap (factoryAddress : address) (logs : list log) (tokens : list token) :
  process_logs factoryAddress logs tokens
    = tokens ++ omap (token_of_log factoryAddress) logs.
Proof.
  revert tokens. induction logs as [|l logs IH]; intros tokens; simpl.
  - rewrite app_nil_r. reflexivity.
  - destruct (token_of_log factoryAddress l) as [t|]; rewrite IH; [|reflexivity].
    rewrite <- app_assoc. reflexivity.
Qed.

Lemma exec_factories_loop (factories : list address) (currentBlock : Z)
    (tokens : list token) (w : world) :
  exec w (factories_loop factories (Z.max 0 (currentBlock - 20000)) currentBlock tokens)
    = (asked w (rev (window currentBlock <$> factories)),
       inr (tokens ++ found (w_logs w) currentBlock factories)).
Proof.
  revert tokens w. induction factories as [|f rest IH]; intros tokens w.
  - simpl. rewrite app_nil_r. destruct w; reflexivity.
  - cbn [factories_loop]. unfold mbind, task_bind.
    rewrite discovery_exec_bind, discovery_exec_try_catch. cbn [exec bind await respond].
    fold (window currentBlock f).
    unfold found. rewrite bind_cons. fold (found (w_logs w) currentBlock rest).
    unfold found_in at 1.
    destruct (w_logs w (window currentBlock f)) as [e|logs]; cbn [exec bind].
    + rewrite IH. cbn [w_logs]. f_equal.
      unfold asked. cbn. rewrite <- app_assoc. reflexivity.
    + rewrite IH. cbn [w_logs]. rewrite process_logs_omap, <- app_assoc. f_equal.
      unfold asked. cbn. rewrite <- app_assoc. reflexivity.
Qed.

Lemma exec_fetchAndStoreTokens (w : world) :
  exec w fetchAndStoreTokens =
  match w_block w with
  | inl _ => (w, inr ())
  | inr currentBlock =>
      let tokens := found (w_logs w) currentBlock FACTORY_ADDRESSES in
      let w1 := asked w (rev (window currentBlock <$> FACTORY_ADDRESSES)) in
      if bool_decide (0 < length tokens)%nat
      then ({| w_block := w_block w1; w_logs := w_logs w1;
               w_tokens := foldl upsert (w_tokens w1) tokens;
               w_queries := w_queries w1; w_writes := tokens :: w_writes w1 |}, inr ())
      else (w1, inr ())
  end.
Proof.
  unfold fetchAndStoreTokens, mbind, task_bind.
  rewrite !discovery_exec_try_catch, discovery_exec_bind. cbn [exec await respond].
  destruct (w_block w) as [e|currentBlock]; cbn [exec]; [reflexivity|].
  rewrite discovery_exec_bind, exec_factories_loop. cbn [app].
  case_bool_decide; reflexivity.
Qed.

(** X17.  [fetchAndStoreTokens] never throws.  Once the block number is
    known it asks for the logs of each of the three factories, in the
    order of [FACTORY_ADDRESSES] and with the same block window
    [max(0, currentBlock - 20000) .. currentBlock], whether or not an
    earlier query was rejected or returned logs that do not decode.  If
    the block number cannot be read it asks for nothing and writes
    nothing. *)
Theorem fetchAndStoreTokens_queries_every_factory (w : world) :
  (exec w fetchAndStoreTokens).2 = inr () /\
  match w_block w with
  | inl _ => (exec w fetchAndStoreTokens).1 = w
  | inr currentBlock =>
      w_queries (exec w fetchAndStoreTokens).1
        = rev (window currentBlock <$> FACTORY_ADDRESSES) ++ w_queries w /\
      Forall (fun q => 0 <= fromBlock q /\ topics q = [eventTopic] /\
                       toBlock q = currentBlock /\
                       (20000 <= currentBlock -> fromBlock q = currentBlock - 20000))
             (window currentBlock <$> FACTORY_ADDRESSES)
  end.
Proof.
  rewrite exec_fetchAndStoreTokens.
  destruct (w_block w) as [e|currentBlock]; [split; reflexivity|].
  cbv zeta. split; [case_bool_decide; reflexivity|]. split.
  - case_bool_decide; reflexivity.
  - apply Forall_fmap, Forall_forall. intros f _. simpl.
    split; [lia|]. split; [reflexivity|]. split; [reflexivity|]. lia.
Qed.

Lemma foldl_upsert (tokens : list token) (store : gset address) :
  foldl upsert store tokens = list_to_set (contractAddress <$> tokens) ∪ store.
Proof.
  revert store. induction tokens as [|t tokens IH]; intros store; simpl.
  - rewrite (left_id_L ∅ (∪)). reflexivity.
  - rewrite IH. unfold upsert.
    rewrite (assoc_L (∪)), (comm_L (∪) _ {[contractAddress t]}). reflexivity.
Qed.

Lemma token_of_log_shape (factoryAddress : address) (l : log) (t : token) :
  token_of_log factoryAddress l = Some t ->
  decimals t = 18 /\
  toLowerCase (contractAddress t) = contractAddress t /\
  factory t = toLowerCase factoryAddress /\
  createdAt t = blockNumber l * 2000.
Proof.
  unfold token_of_log. destruct (log_data l) as [d|]; simpl; [|discriminate].
  intros [= <-]. simpl. repeat split. apply toLowerCase_idemp.
Qed.

(** X18.  What [fetchAndStoreTokens] writes, once the block number is
    known: one upsert per log that decodes, for the factories whose query
    was answered, in the order of the factories and of their logs, sent
    in a single bulk write.  A rejected query loses the logs of its
    factory only and a log that does not decode loses itself only.
    Every update sets 18 decimals, a lower-case contract address and the
    lower-cased address of one of the three factories.  When no log
    decodes no write is sent.  After a write that the collection accepts
    it holds the addresses it held before and those of the updates. *)
Theorem fetchAndStoreTokens_writes_the_decodable_logs (w : world) (currentBlock : Z) :
  w_block w = inr currentBlock ->
  let tokens := found (w_logs w) currentBlock FACTORY_ADDRESSES in
  let w' := (exec w fetchAndStoreTokens).1 in
  w_writes w' = (if bool_decide (tokens = []) then w_writes w else tokens :: w_writes w) /\
  w_tokens w' = list_to_set (contractAddress <$> tokens) ∪ w_tokens w /\
  Forall (fun t => decimals t = 18 /\
                   toLowerCase (contractAddress t) = contractAddress t /\
                   factory t ∈ (toLowerCase <$> FACTORY_ADDRESSES)) tokens.
Proof.
  intros Hblock tokens w'. subst w'. rewrite exec_fetchAndStoreTokens, Hblock. cbv zeta.
  fold tokens. split; [|split].
  - destruct tokens as [|t tokens']; reflexivity.
  - destruct tokens as [|t tokens'] eqn:Htokens.
    + simpl. rewrite (left_id_L ∅ (∪)). reflexivity.
    + rewrite bool_decide_eq_true_2 by (simpl; lia). cbn [fst w_tokens asked].
      apply foldl_upsert.
  - apply Forall_forall. intros t Ht. unfold tokens, found in Ht.
    apply list_elem_of_bind in Ht as (f & Ht & Hf).
    unfold found_in in Ht.
    destruct (w_logs w (window currentBlock f)) as [e|logs]; [inversion Ht|].
    apply list_elem_of_omap in Ht as (l & _ & Hl).
    destruct (token_of_log_shape f l t Hl) as (Hd & Ha & Hfac & _).
    split; [exact Hd|]. split; [exact Ha|].
    rewrite Hfac. apply list_elem_of_fmap. exists f. auto.
Qed.

(** The first factory has two logs, one of which does not decode; the
    query for the second factory is rejected; the third has no log. *)
Definition sample_logs (f : filter) : (exn + list log)%type :=
  if String.eqb (filter_address f) "0xb51F74E6d8568119061f59Fd7f98824F1e666AC1"
  then inr [ {| log_data := Some {| decoded_tokenAddress := "0xAbC0000000000000000000000000000000000001";
                                    decoded_deployer := "0xDeF0000000000000000000000000000000000002";
                                    decoded_name := "Alpha"; decoded_symbol := "ALP";
                                    decoded_supply := 1000 |};
                blockNumber := 29000 |};
             {| log_data := None; blockNumber := 29500 |} ]
  else if String.eqb (filter_address f) "0x9bd7dCc13c532F37F65B0bF078C8f83E037e7445"
  then inl (Rejected "timeout")
  else inr [].

Definition sample_world : world :=
  {| w_block := inr 30000; w_logs := sample_logs; w_tokens := ∅;
     w_queries := []; w_writes := [] |}.

Lemma fetchAndStoreTokens_writes_the_decodable_logs_witness :
  w_writes (exec sample_world fetchAndStoreTokens).1
    = [[ {| contractAddress := "0xabc0000000000000000000000000000000000001";
            name := "Alpha"; symbol := "ALP"; decimals := 18;
            createdAt := 58000000;
            deployer := "0xdef0000000000000000000000000000000000002";
            factory := "0xb51f74e6d8568119061f59fd7f98824f1e666ac1" |} ]].
Proof.
  exact (proj1 (fetchAndStoreTokens_writes_the_decodable_logs sample_world 30000 eq_refl)).
Defined.

End TokenDiscoveryProperties.

(** * Further properties of tokenDataService.js *)

Module TokenDataServiceProperties.
Import TokenDataService JSFacts TaskOutcomes.

(** ** What fetchPriceData returns *)

Lemma obj_set_NoDup {V} (o : obj V) (k : string) (v : V) :
  NoDup (obj_keys o) -> NoDup (obj_keys (obj_set o k v)).
Proof.
  intros Hnd. unfold obj_keys in *.
  destruct (decide (k ∈ o.*1)) as [Hin|Hnin].
  - rewrite obj_set_keys_present by exact Hin. exact Hnd.
  - rewrite obj_set_fresh by exact Hnin. rewrite fmap_app. simpl.
    apply NoDup_app. split; [exact Hnd|]. split; [|apply NoDup_singleton].
    intros x Hx Hx'. apply list_elem_of_singleton in Hx'. subst x. contradiction.
Qed.

Lemma obj_set_Forall {V} (P : string * V -> Prop) (o : obj V) (k : string) (v : V) :
  Forall P o -> P (k, v) -> Forall P (obj_set o k v).
Proof.
  intros Ho Hkv. induction Ho as [|[k' v'] o Hhd Htl IH]; simpl.
  - constructor; [exact Hkv|constructor].
  - destruct (String.eqb k' k); constructor; assumption.
Qed.

(** An entry as [fetchPriceData] files it. *)
Definition filed (entry : string * tokenData) : Prop :=
  toLowerCase entry.1 = entry.1 /\ market_cap entry.2 = fdv_usd entry.2.

Definition well_filed (result : priceResult) : Prop :=
  NoDup (obj_keys (tokens result)) /\ Forall filed (tokens result).

Lemma forEach_body_well_filed (result : priceResult) (token : apiToken) :
  well_filed result ->
  settles (forEach_body result token) well_filed (fun _ => True).
Proof.
  intros [Hnd Hall]. unfold forEach_body.
  destruct (tok_id token) as [id_|]; simpl; [|exact I].
  destruct (split "_" id_ !! 1%nat) as [piece|]; simpl; [|exact I].
  destruct (tok_attributes token) as [a|]; simpl; [|exact I].
  intros now. split; simpl.
  - apply obj_set_NoDup, Hnd.
  - apply obj_set_Forall; [exact Hall|]. split; simpl; [apply toLowerCase_idemp|reflexivity].
Qed.

Lemma forEach_well_filed (data : list apiToken) (result : priceResult) :
  well_filed result ->
  settles (forEach data result) well_filed (fun _ => True).
Proof.
  revert result. induction data as [|token data IH]; intros result Hres; cbn [forEach].
  - exact Hres.
  - unfold mbind, task_bind. apply settles_bind.
    eapply settles_mono; [| |apply forEach_body_well_filed, Hres]; simpl; auto.
Qed.

(** X19.  Whatever the price API answers, [fetchPriceData] never throws,
    and in the result it returns every key is in lower case and occurs
    once (an address sent twice by the API keeps one entry), and every
    entry has its [market_cap] equal to its [fdv_usd]. *)
Theorem fetchPriceData_entries_are_well_filed (addresses : list address) :
  always (fetchPriceData addresses) well_filed.
Proof.
  assert (well_filed {| tokens := [] |}) as Hempty by (split; constructor).
  unfold always, fetchPriceData. simpl.
  intros n [] [e|response]; simpl; [exact Hempty|].
  destruct (resp_data response) as [data|]; simpl; [|exact Hempty].
  do 2 apply settles_try_catch.
  eapply settles_mono; [| |apply forEach_well_filed, Hempty]; simpl; auto.
Qed.

(** ** Passes against the collections and the price API *)

(** What the passes can change besides the price records and the clock:
    the requests sent, the call counter, the [Token] collection, the
    priority list and the API. *)
Definition track (w : world)
    : list (list address) * Z * list address * list address
      * (list address -> (exn + apiResponse)%type) :=
  (w_requests w, apiCallsThisMinute (w_mem w), w_tokens w, topTokens (w_mem w), w_api w).

(** A task whose primitives leave all of that alone. *)
Fixpoint inert {A} (t : task A) : Prop :=
  match t with
  | Vis ev k => (forall w, track (respond ev w).1 = track w) /\ forall x, inert (k x)
  | _ => True
  end.

Lemma exec_inert {A} (t : task A) (w : world) : inert t -> track (exec w t).1 = track w.
Proof.
  revert w. induction t as [a|e|X ev k IH]; intros w Ht; simpl; [reflexivity..|].
  destruct Ht as [Hev Hk]. specialize (Hev w).
  destruct (respond ev w) as [w' x]. simpl in Hev. rewrite <- Hev. apply IH, Hk.
Qed.

Lemma inert_bind {A B} (t : task A) (f : A -> task B) :
  inert t -> (forall a, inert (f a)) -> inert (bind t f).
Proof.
  intros Ht Hf. induction t as [a|e|X ev k IH]; simpl; auto.
  destruct Ht as [Hev Hk]. split; [exact Hev|]. intros x. apply IH, Hk.
Qed.

Lemma inert_try_catch {A} (t : task A) (h : exn -> task A) :
  inert t -> (forall e, inert (h e)) -> inert (try_catch t h).
Proof.
  intros Ht Hh. induction t as [a|e|X ev k IH]; simpl; auto.
  destruct Ht as [Hev Hk]. split; [exact Hev|]. intros x. apply IH, Hk.
Qed.

Lemma inert_forEach (data : list apiToken) (result : priceResult) :
  inert (forEach data result).
Proof.
  revert result. induction data as [|token data IH]; intros result; cbn [forEach];
    [exact I|].
  unfold mbind, task_bind. apply inert_bind; [|intros r; apply IH].
  unfold forEach_body.
  destruct (tok_id token) as [id_|]; simpl; [|exact I].
  destruct (split "_" id_ !! 1%nat) as [piece|]; simpl; [|exact I].
  destruct (tok_attributes token) as [a|]; simpl; [|exact I].
  split; [reflexivity|]. intros now. exact I.
Qed.

Lemma inert_build_operations (priority : bool) (entries : obj tokenData) :
  inert (build_operations priority entries).
Proof.
  induction entries as [|[a d] entries IH]; cbn [build_operations]; [exact I|].
  unfold mbind, task_bind. apply inert_bind.
  - simpl. split; [reflexivity|]. intros now. exact I.
  - intros now. apply inert_bind; [exact IH|]. intros ops. exact I.
Qed.

Lemma inert_store_prices (priority : bool) (priceData : priceResult) :
  inert (store_prices priority priceData).
Proof.
  unfold store_prices, mbind, task_bind.
  apply inert_bind; [apply inert_build_operations|]. intros ops.
  case_bool_decide; [|exact I].
  simpl. split; [reflexivity|]. intros [e|[]]; exact I.
Qed.

(** The effect of one request on what is tracked. *)
Definition requested (w : world) (request : list address)
    : list (list address) * Z * list address * list address
      * (list address -> (exn + apiResponse)%type) :=
  (request :: w_requests w, apiCallsThisMinute (w_mem w) + 1, w_tokens w,
   topTokens (w_mem w), w_api w).

Lemma exec_fetchPriceData (w : world) (addresses : list address) :
  exists w1 result,
    exec w (fetchPriceData addresses) = (w1, inr result) /\
    track w1 = requested w (toLowerCase <$> addresses).
Proof.
  unfold fetchPriceData. cbn [exec bind try_catch call await mbind task_bind respond sync
                              handle_sync with_mem w_mem w_api].
  set (w1 := elapse _).
  assert (track w1 = requested w (toLowerCase <$> addresses)) as Htrack by reflexivity.
  clearbody w1.
  destruct (w_api w (toLowerCase <$> addresses)) as [e|response]; cbn [exec try_catch bind].
  - eexists _, _. split; [reflexivity|exact Htrack].
  - destruct (resp_data response) as [data|]; cbn [exec try_catch bind].
    + rewrite !TokenDataServiceFacts.exec_try_catch.
      pose proof (exec_inert (forEach data {| tokens := [] |}) w1 (inert_forEach _ _))
        as Hinert.
      destruct (exec w1 (forEach data {| tokens := [] |})) as [w2 [e|r]];
        simpl in Hinert; cbn [exec]; eexists _, _;
        (split; [reflexivity|rewrite Hinert; exact Htrack]).
    + eexists _, _. split; [reflexivity|exact Htrack].
Qed.

Lemma track_elapse (w : world) : track (elapse w) = track w.
Proof. reflexivity. Qed.

(** One guarded batch: the body of the [try] in both passes. *)
Lemma exec_guarded_batch (w : world) (priority : bool) (addresses : list address) :
  exists w',
    exec w (try_catch
              (priceData ← await_async (fetchPriceData addresses);
               store_prices priority priceData)
              (fun error => Ret ())) = (w', inr ()) /\
    track w' = requested w (toLowerCase <$> addresses).
Proof.
  destruct (exec_fetchPriceData w addresses) as (w1 & result & Hfetch & Htrack).
  unfold await_async, mbind, task_bind.
  rewrite TokenDataServiceFacts.exec_try_catch, TokenDataServiceFacts.exec_bind,
    TokenDataServiceFacts.exec_try_catch, TokenDataServiceFacts.exec_bind, Hfetch.
  cbn [exec bind call respond].
  pose proof (exec_inert (store_prices priority result) (elapse w1)
                (inert_store_prices priority result)) as Hinert.
  rewrite track_elapse in Hinert.
  destruct (exec (elapse w1) (store_prices priority result)) as [w2 [e|[]]];
    simpl in Hinert; cbn [exec]; eexists; (split; [reflexivity|congruence]).
Qed.

(** [w'] is [w] after the requests [batches], sent in that order and
    counted; the [Token] collection, the priority list and the API are
    as before. *)
Definition extends (w w' : world) (batches : list (list address)) : Prop :=
  w_requests w' = rev batches ++ w_requests w /\
  apiCallsThisMinute (w_mem w') = apiCallsThisMinute (w_mem w) + Z.of_nat (length batches) /\
  w_tokens w' = w_tokens w /\
  topTokens (w_mem w') = topTokens (w_mem w) /\
  w_api w' = w_api w.

Lemma extends_requested (w w' : world) (request : list address) :
  track w' = requested w request -> extends w w' [request].
Proof.
  unfold track, requested. intros [= H1 H2 H3 H4 H5].
  repeat split; simpl; assumption.
Qed.

Lemma extends_same (w w' : world) : track w' = track w -> extends w w' [].
Proof.
  unfold track. intros [= H1 H2 H3 H4 H5].
  repeat split; simpl; try assumption. lia.
Qed.

Lemma extends_trans (w w1 w2 : world) (first rest : list (list address)) :
  extends w w1 first -> extends w1 w2 rest -> extends w w2 (first ++ rest).
Proof.
  intros (H1 & H2 & H3 & H4 & H5) (G1 & G2 & G3 & G4 & G5).
  unfold extends. rewrite rev_app_distr, <- app_assoc, <- H1, G1, G2, H2, G3, G4, G5,
    length_app. repeat split; try assumption. lia.
Qed.

Lemma exec_batch_loop (fuel : nat) (tokensToUpdate : list address) (i : nat) (w : world) :
  (length tokensToUpdate <= i + fuel)%nat ->
  apiCallsThisMinute (w_mem w) + Z.of_nat ((length tokensToUpdate - i + 29) / 30) <= 28 ->
  exists batches w',
    exec w (batch_loop fuel tokensToUpdate (Z.of_nat i)) = (w', inr ()) /\
    extends w w' batches /\
    concat batches = toLowerCase <$> drop i tokensToUpdate /\
    Forall (fun b => (0 < length b <= 30)%nat) batches /\
    length batches = ((length tokensToUpdate - i + 29) / 30)%nat.
Proof.
  revert i w. induction fuel as [|fuel IH]; intros i w Hfuel Hbudget.
  - exists [], w. split; [reflexivity|]. split; [apply extends_same; reflexivity|].
    rewrite drop_ge by lia. split; [reflexivity|]. split; [constructor|].
    replace (length tokensToUpdate - i)%nat with 0%nat by lia. reflexivity.
  - cbn [batch_loop]. case_bool_decide as Hi.
    + assert (i < length tokensToUpdate)%nat as Hi' by lia.
      pose proof (JSArrays.windows_left _ _ Hi') as Hleft.
      unfold mbind, task_bind.
      cbn [exec bind call respond sync handle_sync with_mem w_mem].
      rewrite bool_decide_eq_false_2 by lia.
      rewrite TokenDataServiceFacts.exec_bind.
      set (w0 := with_mem w (w_mem w)).
      destruct (exec_guarded_batch w0 false
                  (slice tokensToUpdate (Z.of_nat i) (Z.of_nat i + BATCH_SIZE)))
        as (w1 & Hbatch & Htrack).
      unfold mbind, task_bind in Hbatch. rewrite Hbatch.
      apply extends_requested in Htrack.
      replace (Z.of_nat i + BATCH_SIZE) with (Z.of_nat (i + 30)) in *
        by (unfold BATCH_SIZE; lia).
      rewrite JSArrays.slice_window in Htrack.
      rewrite TokenDataServiceFacts.exec_bind.
      assert (exists w2,
                exec w1 (if bool_decide (Z.of_nat (i + 30) < Z.of_nat (length tokensToUpdate))
                         then call (SetTimeout 100) else Ret ()) = (w2, inr ()) /\
                extends w1 w2 []) as (w2 & Hwait & Hext2).
      { case_bool_decide.
        - eexists. split; [reflexivity|]. apply extends_same. reflexivity.
        - eexists. split; [reflexivity|]. apply extends_same. reflexivity. }
      rewrite Hwait.
      pose proof (extends_trans w0 w1 w2 _ _ Htrack Hext2) as Hext. simpl in Hext.
      destruct (IH (i + 30)%nat w2) as (batches & w' & Hloop & Hext' & Hcat & Hsize & Hcount).
      * lia.
      * destruct Hext as (_ & Hc & _). rewrite Hc. change (apiCallsThisMinute (w_mem w0)) with (apiCallsThisMinute (w_mem w)).
        cbn [length]. rewrite Hleft in Hbudget. lia.
      * exists ((toLowerCase <$> take 30 (drop i tokensToUpdate)) :: batches), w'.
        split; [exact Hloop|]. split; [|split; [|split]].
        -- pose proof (extends_trans w0 w2 w' _ _ Hext Hext') as Hall.
           simpl in Hall. exact Hall.
        -- simpl. rewrite Hcat, <- fmap_app, <- drop_drop, take_drop. reflexivity.
        -- constructor; [|exact Hsize].
           rewrite length_fmap, length_take, length_drop. lia.
        -- cbn [length]. rewrite Hcount, Hleft. reflexivity.
    + exists [], w. split; [reflexivity|]. split; [apply extends_same; reflexivity|].
      rewrite drop_ge by lia. split; [reflexivity|]. split; [constructor|].
      replace (length tokensToUpdate - i)%nat with 0%nat by lia. reflexivity.
Qed.

Lemma find_oldest_length (prices : gmap address priceDoc) (excluded : list address)
    (limit : Z) :
  0 < limit -> Z.of_nat (length (find_oldest prices excluded limit)) <= limit.
Proof.
  intros Hpos. unfold find_oldest, mongo_limit.
  rewrite bool_decide_eq_false_2 by lia.
  rewrite length_fmap, length_take. lia.
Qed.

Lemma slice_prefix_length {A} (l : list A) (limit : Z) :
  0 <= limit -> Z.of_nat (length (slice l 0 limit)) <= limit.
Proof.
  intros Hpos.
  pose proof (JSArrays.slice_window l 0 (Z.to_nat limit)) as Hslice.
  replace (Z.of_nat (0 + Z.to_nat limit)) with limit in Hslice by lia.
  change (Z.of_nat 0) with 0 in Hslice. rewrite Hslice, length_take. lia.
Qed.

Lemma windows_within (len k : nat) : (len <= 30 * k)%nat -> ((len + 29) / 30 <= k)%nat.
Proof.
  intros Hlen. apply Nat.lt_succ_r. apply Nat.Div0.div_lt_upper_bound. lia.
Qed.

(** X20.  One non-priority pass, run on its own against the collections
    with fewer than 28 calls counted and at least one token outside the
    priority list.  The pass selects the price records outside the
    priority list, oldest first, or, only when there is none, the first
    tokens of the [Token] collection; at most [(28 - n) * 30] of them.
    Whatever the price API answers, it then asks about every selected
    token exactly once, in that order, in requests of at most 30
    lower-cased addresses, as few as possible; each request is counted,
    the counter ends at 28 or below, and the pass does not throw. *)
Theorem rotation_pass_asks_each_selected_token_once (w : world) :
  let n := apiCallsThisMinute (w_mem w) in
  let excluded := topTokens (w_mem w) in
  let allTokens := filter (fun a => a ∉ excluded) (w_tokens w) in
  let maxTokens := (28 - n) * 30 in
  let oldestFirstTokens := find_oldest (w_prices w) excluded maxTokens in
  let tokensToUpdate :=
    if bool_decide (0 < length oldestFirstTokens)%nat
    then oldestFirstTokens else slice allTokens 0 maxTokens in
  let w' := (exec w updateNonPriorityTokens).1 in
  n < 28 -> allTokens <> [] ->
  (exec w updateNonPriorityTokens).2 = inr () /\
  Z.of_nat (length tokensToUpdate) <= maxTokens /\
  exists batches : list (list address),
    w_requests w' = rev batches ++ w_requests w /\
    concat batches = toLowerCase <$> tokensToUpdate /\
    Forall (fun b => (0 < length b <= 30)%nat) batches /\
    length batches = ((length tokensToUpdate + 29) / 30)%nat /\
    apiCallsThisMinute (w_mem w') = n + Z.of_nat (length batches) /\
    apiCallsThisMinute (w_mem w') <= 28.
Proof.
  intros n excluded allTokens maxTokens oldestFirstTokens tokensToUpdate w' Hn Hall.
  assert (Z.of_nat (length tokensToUpdate) <= maxTokens) as Hlen.
  { unfold tokensToUpdate. case_bool_decide.
    - apply find_oldest_length. unfold maxTokens. lia.
    - apply slice_prefix_length. unfold maxTokens. lia. }
  assert ((length tokensToUpdate + 29) / 30 <= Z.to_nat (28 - n))%nat as Hwindows.
  { apply windows_within. unfold maxTokens in Hlen. lia. }
  subst w'. unfold updateNonPriorityTokens, mbind, task_bind.
  cbn [exec bind call respond sync handle_sync with_mem w_mem].
  fold n. rewrite bool_decide_eq_false_2 by lia.
  rewrite TokenDataServiceFacts.exec_try_catch.
  cbn [exec bind call await respond sync handle_sync with_mem w_mem w_tokens w_prices
       elapse topTokens apiCallsThisMinute].
  fold excluded. fold allTokens.
  rewrite bool_decide_eq_false_2 by (destruct allTokens; [congruence|discriminate]).
  cbn [exec bind call await respond sync handle_sync with_mem w_mem w_tokens w_prices
       elapse topTokens apiCallsThisMinute].
  fold n. fold maxTokens. fold excluded. fold oldestFirstTokens. fold tokensToUpdate.
  match goal with
  | |- context [exec ?w0 (batch_loop ?fuel ?selected 0)] =>
      change (exec w0 (batch_loop fuel selected 0))
        with (exec w0 (batch_loop (length tokensToUpdate) tokensToUpdate (Z.of_nat 0)));
      destruct (exec_batch_loop (length tokensToUpdate) tokensToUpdate 0 w0)
        as (batches & w1 & Hloop & Hext & Hcat & Hsize & Hcount)
  end.
  { lia. }
  { cbn [w_mem apiCallsThisMinute elapse with_mem]. rewrite Nat.sub_0_r. lia. }
  rewrite Hloop. cbn [fst snd].
  rewrite Nat.sub_0_r in Hcount. rewrite drop_0 in Hcat.
  destruct Hext as (Hreq & Hcnt & _).
  cbn [w_requests w_mem apiCallsThisMinute elapse with_mem] in Hreq, Hcnt.
  split; [reflexivity|]. split; [exact Hlen|].
  exists batches. repeat (split; [assumption|]). rewrite Hcnt, Hcount. lia.
Qed.

Lemma rotation_pass_asks_each_selected_token_once_witness :
  let w := TokenDataServiceFacts.one_priced TokenDataServiceFacts.api_knows_first in
  exists batches : list (list address),
    w_requests (exec w updateNonPriorityTokens).1 = rev batches ++ [] /\
    concat batches = [TokenDataServiceFacts.tokA].
Proof.
  intros w.
  destruct (rotation_pass_asks_each_selected_token_once w)
    as (_ & _ & batches & Hreq & Hcat & _).
  - simpl. lia.
  - discriminate.
  - exists batches. split; [exact Hreq|exact Hcat].
Defined.

Lemma find_top_length (prices : gmap address priceDoc) :
  (length (find_top prices PRIORITY_TOKEN_COUNT) <= 10)%nat.
Proof.
  unfold find_top, mongo_limit. rewrite bool_decide_eq_false_2 by discriminate.
  rewrite length_fmap, length_take.
  change (Z.to_nat (Z.abs PRIORITY_TOKEN_COUNT)) with 10%nat. lia.
Qed.

Lemma find_top_recorded (prices : gmap address priceDoc) (limit : Z) (a : address) :
  a ∈ find_top prices limit -> a ∈ dom prices.
Proof.
  unfold find_top. intros Ha. apply list_elem_of_fmap in Ha.
  destruct Ha as ([a' d] & -> & Hin). simpl.
  assert ((a', d) ∈ merge_sort bigger_cap (map_to_list prices)) as Hsorted.
  { unfold mongo_limit in Hin. case_bool_decide; [exact Hin|].
    eapply subseteq_take; exact Hin. }
  rewrite merge_sort_Permutation in Hsorted.
  apply elem_of_map_to_list in Hsorted. apply elem_of_dom. eauto.
Qed.

(** X21.  One priority pass, run on its own with fewer than 30 calls
    counted, never throws and never writes the [Token] collection.  With
    an empty priority list it sends no request, counts nothing and writes
    no price: it only rebuilds the list, with at most 10 addresses, each
    the address of a price record.  With a non-empty list it sends exactly
    one request, for all the addresses of the list together, lower-cased,
    counts it once and leaves the list as it is. *)
Theorem priority_pass_sends_at_most_one_request (w : world) :
  let n := apiCallsThisMinute (w_mem w) in
  let priority := topTokens (w_mem w) in
  let w' := (exec w updatePriorityTokens).1 in
  n < 30 ->
  (exec w updatePriorityTokens).2 = inr () /\
  w_tokens w' = w_tokens w /\
  if bool_decide (priority = [])
  then w_requests w' = w_requests w /\
       apiCallsThisMinute (w_mem w') = n /\
       w_prices w' = w_prices w /\
       (length (topTokens (w_mem w')) <= 10)%nat /\
       forall a, a ∈ topTokens (w_mem w') -> a ∈ dom (w_prices w)
  else w_requests w' = (toLowerCase <$> priority) :: w_requests w /\
       apiCallsThisMinute (w_mem w') = n + 1 /\
       topTokens (w_mem w') = priority.
Proof.
  intros n priority w' Hn. subst w'.
  unfold updatePriorityTokens, mbind, task_bind.
  cbn [exec bind call respond sync handle_sync with_mem w_mem].
  fold n. rewrite bool_decide_eq_false_2 by lia.
  cbn [exec bind call respond sync handle_sync with_mem w_mem topTokens].
  fold priority. destruct priority as [|a rest] eqn:Hlist.
  - rewrite (bool_decide_eq_true_2 (length [] = 0%nat)) by reflexivity.
    rewrite (bool_decide_eq_true_2 ([] = [])) by reflexivity.
    cbn -[find_top]. split; [reflexivity|]. split; [reflexivity|]. repeat split.
    + apply find_top_length.
    + apply find_top_recorded.
  - rewrite (bool_decide_eq_false_2 (length (a :: rest) = 0%nat)) by discriminate.
    rewrite (bool_decide_eq_false_2 (a :: rest = [])) by discriminate.
    set (w0 := with_mem (with_mem w (w_mem w)) (w_mem w)).
    destruct (exec_guarded_batch w0 true (a :: rest)) as (w1 & Hbatch & Htrack).
    unfold mbind, task_bind in Hbatch. rewrite Hbatch.
    apply extends_requested in Htrack. destruct Htrack as (H1 & H2 & H3 & H4 & _).
    cbn [fst snd]. split; [reflexivity|]. split; [exact H3|].
    split; [exact H1|]. split; [exact H2|]. rewrite H4. exact Hlist.
Qed.

Lemma priority_pass_sends_at_most_one_request_witness :
  let w := TokenDataServiceFacts.one_priced TokenDataServiceFacts.api_knows_first in
  w_requests (exec w updatePriorityTokens).1 = [] /\
  (length (topTokens (w_mem (exec w updatePriorityTokens).1)) <= 10)%nat.
Proof.
  intros w.
  destruct (priority_pass_sends_at_most_one_request w) as (_ & _ & H); [simpl; lia|].
  destruct H as (Hreq & _ & _ & Htop & _). split; [exact Hreq|exact Htop].
Defined.

(** ** What no pass does *)

Lemma settles_exec {A} (t : task A) (Q : A -> Prop) (Qe : exn -> Prop) (w : world) :
  settles t Q Qe ->
  match (exec w t).2 with
  | inr a => Q a
  | inl e => Qe e
  end.
Proof.
  revert w. induction t as [a|e|X ev k IH]; intros w Ht; simpl; auto.
  destruct (respond ev w) as [w' x]. apply IH, Ht.
Qed.

Lemma exec_keeps (I : world -> Prop) {A} (t : task A) (w : world) :
  (forall X (ev : event X) w, I w -> I (respond ev w).1) ->
  I w -> I (exec w t).1.
Proof.
  intros Hev. revert w. induction t as [a|e|X ev k IH]; intros w Hw; simpl; auto.
  specialize (Hev X ev w Hw). destruct (respond ev w) as [w' x]. apply IH, Hev.
Qed.

Lemma dom_apply_update_subseteq (prices : gmap address priceDoc)
    (operations : list updateOne) :
  dom prices ⊆ dom (foldl apply_update prices operations).
Proof.
  revert prices. induction operations as [|op ops IH]; intros prices; simpl; [reflexivity|].
  etrans; [|apply IH]. unfold apply_update. rewrite dom_insert.
  apply union_subseteq_r.
Qed.

Lemma guarded_never_throws {A} (t : task A) (h : exn -> task A) :
  (forall e, always (h e) (fun _ => True)) -> always (try_catch t h) (fun _ => True).
Proof.
  intros Hh. apply always_try_catch with (Qe := fun _ => True); [|intros e _; apply Hh].
  clear. induction t; simpl; auto.
Qed.

Lemma await_async_never_throws {A} (t : task A) :
  always t (fun _ => True) -> always (await_async t) (fun _ => True).
Proof.
  intros Ht. unfold await_async, mbind, task_bind.
  apply settles_try_catch, settles_bind.
  eapply settles_mono; [| |exact Ht]; simpl; auto.
Qed.

Lemma job_never_throws (j : job) : always (job_body j) (fun _ => True).
Proof.
  destruct j; unfold job_body.
  - unfold updatePriorityTokens, mbind, task_bind, call, always.
    cbn [bind settles]. intros n. case_bool_decide; [exact I|].
    cbn [bind settles]. intros priority. case_bool_decide.
    + apply await_async_never_throws. unfold updateTopTokensList.
      apply guarded_never_throws. intros e. exact I.
    + apply guarded_never_throws. intros e. exact I.
  - unfold updateNonPriorityTokens, mbind, task_bind, call, always.
    cbn [bind settles]. intros n. case_bool_decide; [exact I|].
    apply guarded_never_throws. intros e. exact I.
  - unfold fullTokenUpdate. apply guarded_never_throws. intros e. exact I.
Qed.

(** X22.  None of the three scheduled price jobs (the priority pass, the
    non-priority pass, the full update), run against the collections,
    throws, writes the [Token] collection or removes a price record,
    whatever the price API answers. *)
Theorem price_jobs_never_throw_or_delete (j : job) (w : world) :
  (exec w (job_body j)).2 = inr () /\
  w_tokens (exec w (job_body j)).1 = w_tokens w /\
  dom (w_prices w) ⊆ dom (w_prices (exec w (job_body j)).1).
Proof.
  split.
  - pose proof (settles_exec (job_body j) _ _ w (job_never_throws j)) as H.
    destruct ((exec w (job_body j)).2) as [e|[]]; [contradiction|reflexivity].
  - apply (exec_keeps (fun w' => w_tokens w' = w_tokens w /\
                                  dom (w_prices w) ⊆ dom (w_prices w'))); [|split; reflexivity].
    intros X ev w0 [Htok Hdom].
    destruct ev; simpl; try (split; assumption).
    split; [exact Htok|]. etrans; [exact Hdom|]. apply dom_apply_update_subseteq.
Qed.

End TokenDataServiceProperties.
